(** * Rendering: WebGPU ray-tracing demos and their spatial partition builder

    A shallow embedding of the demo scripts of the repository and of the
    spatial partition builder they call, with the properties stated about
    them.

    Part I, the model:
    - [TypedArrays]  the bytes of Float32Array and Uint32Array for integers;
    - [Demo]         the nine scripts that call build_bsp_tree, their bind
                     group entries, the binding convention;
    - [Script]       what a script does after loading, as a state machine
                     over user and browser events with a trace of GPU calls;
    - [BspTree]      the builder (bounding boxes, split, recursion) and the
                     runs of its construction;
    - [JS]           Number arithmetic (binary64 and exact) and for loops;
    - [Materials]    the material color table;
    - [Jitter]       computeJitters and its callers;
    - [Texture]      the vertical flip of loadTexture;
    - [W05p01]       the page with controls of w05p01.js, as a state machine;
    - [Startup]      what main of a tree-building script needs before it
                     draws.
    Part II, the lemmas, one module of facts per module of the model.

    Conventions.
    - A JavaScript Number that only ever holds an integer (canvas.width,
      canvas.height, frame, subdivs, binding slots) is a [Z] or a [nat];
      other Numbers are binary64 floats, or exact rationals where a lemma is
      about arithmetic without rounding.
    - A typed array is a list of fixed length; a store outside its length is
      dropped, which is what [<[i:=v]>] on lists does.
    - Bytes are integers in [0, 256), least significant byte first, as a typed
      array lays them out on the platforms WebGPU runs on.
    - The GPU is observed through the chronological trace of the calls the
      script makes on it. *)

From Stdlib Require Import ZArith QArith Qminmax List Bool Lia Lqa.
From Stdlib Require Import Uint63 PrimFloat SpecFloat FloatOps.
From Stdlib Require String.
From stdpp Require Import base decidable option list functions.
Import ListNotations.

Set Default Proof Using "Type".

(* ===================================================================== *)
(** * Part I. The model                                                   *)
(* ===================================================================== *)

(* --------------------------------------------------------------------- *)
(** ** Typed arrays: how Float32Array and Uint32Array lay out integers    *)
(* --------------------------------------------------------------------- *)

Module TypedArrays.
Open Scope Z_scope.

(** The four bytes of a 32-bit word, least significant first. *)
Definition le_bytes (w : Z) : list Z :=
  [w mod 256; (w / 2 ^ 8) mod 256; (w / 2 ^ 16) mod 256; (w / 2 ^ 24) mod 256].

(** ToUint32 of an integer-valued Number. *)
Definition ToUint32 (v : Z) : Z := v mod 2 ^ 32.

(** The binary32 bit pattern of the float nearest to the integer [n >= 0]
    (round to nearest, ties to even; overflow gives +Infinity).  With
    [e = floor (log2 n)] the significand keeps the top 24 bits of [n]; a
    carry out of the rounded significand lands in the exponent field, which
    is the encoding of [2 ^ (e + 1)]. *)
Definition float32_bits_nonneg (n : Z) : Z :=
  if n =? 0 then 0
  else
    let e := Z.log2 n in
    if e <=? 23 then (127 + e) * 2 ^ 23 + (n * 2 ^ (23 - e) - 2 ^ 23)
    else
      let sh := e - 23 in
      let q := Z.shiftr n sh in
      let r := n mod 2 ^ sh in
      let half := 2 ^ (sh - 1) in
      let q' := if (half <? r) || ((r =? half) && Z.odd q) then q + 1 else q in
      let bits := (127 + e) * 2 ^ 23 + (q' - 2 ^ 23) in
      if 2139095040 <=? bits then 2139095040 else bits.

Definition float32_bits (v : Z) : Z :=
  if v <? 0 then 2 ^ 31 + float32_bits_nonneg (- v) else float32_bits_nonneg v.

(** The same pattern read off the Standard Library's IEEE 754 rounding to
    24 bits of precision, for normal numbers and zero. *)
Definition binary32_bits_of_integer (n : positive) : Z :=
  match binary_round 24 128 false n 0 with
  | S754_finite _ m e => (e + 23 + 127) * 2 ^ 23 + (Zpos m - 2 ^ 23)
  | S754_infinity _ => 2139095040
  | _ => 0
  end.

(** [new Float32Array(vs)] and [new Uint32Array(vs)], as the bytes that
    [device.queue.writeBuffer] copies. *)
Definition Float32Array (vs : list Z) : list Z :=
  flat_map (fun v => le_bytes (float32_bits v)) vs.

Definition Uint32Array (vs : list Z) : list Z :=
  flat_map (fun v => le_bytes (ToUint32 v)) vs.

End TypedArrays.

(* --------------------------------------------------------------------- *)
(** ** The demo scripts that consume the flattened tree                   *)
(* --------------------------------------------------------------------- *)

Module Demo.
Open Scope Z_scope.

(** The nine scripts that call [build_bsp_tree]; a file that holds several
    scripts contributes one variant per script, in file order. *)
Inductive variant :=
| part_002            (* src/unnamed/part_002 *)
| w06p01              (* src/w06/w06p01.js *)
| part_007            (* src/unnamed/part_007 *)
| Project_source_1    (* src/Project/source.js, lines 1-186 *)
| Project_source_2    (* src/Project/source.js, lines 186-425 *)
| w07p01              (* src/w07/w07p01.js *)
| w06p03_1            (* src/w06/w06p03.js, lines 1-210 *)
| w06p03_2            (* src/w06/w06p03.js, lines 211-468 *)
| w06p03_3.           (* src/w06/w06p03.js, lines 469-726 *)

#[global] Instance variant_eq_dec : EqDecision variant.
Proof. solve_decision. Defined.

Definition variants : list variant :=
  [part_002; w06p01; part_007; Project_source_1; Project_source_2; w07p01;
   w06p03_1; w06p03_2; w06p03_3].

(** The fields of the [buffers] object literal of [onReadComplete]. *)
Inductive buffers_field :=
| attribs | color | colors | indices | light_indices
| treeIds | bspTree | bspPlanes | aabb
| positions | normals | mat_indices.

#[global] Instance buffers_field_eq_dec : EqDecision buffers_field.
Proof. solve_decision. Defined.

(** The buffers w05p04.js, a script that draws a mesh without a tree,
    keeps in constants of [main]. *)
Inductive local_buffer :=
| positionsBuffer | indicesBuffer | normalsBuffer
| materialColorBuffer | materialEmissionBuffer | matIndicesBuffer.

(** What the [resource] of a bind group entry names. *)
Inductive resource :=
| uniformBuffer
| uniformUIBuffer
| jitterBuffer
| renderDst_view        (* textures.renderDst.createView() *)
| env_view              (* textures.env.createView() *)
| buffers_ (f : buffers_field)    (* { buffer: buffers.f } *)
| local_ (b : local_buffer).      (* { buffer: b }, w05p04.js only *)

(** The [entries] array handed to [device.createBindGroup], as
    (binding, resource) pairs in the order they are written. *)
Definition entries (v : variant) : list (nat * resource) :=
  match v with
  | part_002 =>
      [ (0, uniformBuffer); (1, buffers_ aabb); (2, buffers_ attribs);
        (3, buffers_ indices); (4, buffers_ color); (5, buffers_ light_indices);
        (6, buffers_ treeIds); (7, buffers_ bspTree); (8, buffers_ bspPlanes) ]%nat
  | w06p01 =>
      [ (0, uniformBuffer); (1, buffers_ aabb); (2, buffers_ positions);
        (3, buffers_ indices); (4, buffers_ normals); (5, buffers_ color);
        (6, buffers_ mat_indices); (7, buffers_ treeIds); (8, buffers_ bspTree);
        (9, buffers_ bspPlanes) ]%nat
  | part_007 | Project_source_1 | Project_source_2 | w07p01 =>
      [ (0, uniformBuffer); (1, uniformUIBuffer); (2, buffers_ aabb);
        (3, buffers_ attribs); (4, buffers_ indices); (5, buffers_ color);
        (6, buffers_ light_indices); (7, buffers_ treeIds); (8, buffers_ bspTree);
        (9, buffers_ bspPlanes); (11, renderDst_view) ]%nat
  | w06p03_1 =>
      [ (0, uniformBuffer); (1, buffers_ aabb); (2, buffers_ attribs);
        (3, buffers_ indices); (4, buffers_ color); (5, buffers_ light_indices);
        (6, buffers_ treeIds); (7, buffers_ bspTree); (8, buffers_ bspPlanes);
        (9, jitterBuffer) ]%nat
  | w06p03_2 | w06p03_3 =>
      [ (0, uniformBuffer); (1, uniformUIBuffer); (2, buffers_ aabb);
        (3, buffers_ attribs); (4, buffers_ indices); (5, buffers_ color);
        (7, buffers_ treeIds); (8, buffers_ bspTree); (9, buffers_ bspPlanes);
        (11, renderDst_view); (12, env_view) ]%nat
  end.

(** *** The binding convention *)

(** The resources of the convention, in its order. *)
Inductive role :=
| camera_view_parameters
| root_AABB
| vertex_attributes
| triangle_indices
| material_color_table
| material_index_per_triangle
| light_triangle_index_list
| leaf_triangle_id_array
| node_array
| plane_array.

Definition convention : list role :=
  [camera_view_parameters; root_AABB; vertex_attributes; triangle_indices;
   material_color_table; material_index_per_triangle;
   light_triangle_index_list; leaf_triangle_id_array; node_array; plane_array].

Definition rank (r : role) : nat :=
  match r with
  | camera_view_parameters => 0
  | root_AABB => 1
  | vertex_attributes => 2
  | triangle_indices => 3
  | material_color_table => 4
  | material_index_per_triangle => 5
  | light_triangle_index_list => 6
  | leaf_triangle_id_array => 7
  | node_array => 8
  | plane_array => 9
  end.

(** The role a bound resource plays in a script that consumes the tree.
    Positions and normals are the two per-vertex attribute arrays ([attribs]
    is their interleaving); the UI uniforms, the jitter table and the
    texture views are outside the convention, and [colors] is never bound. *)
Definition role_of (r : resource) : option role :=
  match r with
  | uniformBuffer => Some camera_view_parameters
  | buffers_ aabb => Some root_AABB
  | buffers_ attribs | buffers_ positions | buffers_ normals => Some vertex_attributes
  | buffers_ indices => Some triangle_indices
  | buffers_ color => Some material_color_table
  | buffers_ mat_indices => Some material_index_per_triangle
  | buffers_ light_indices => Some light_triangle_index_list
  | buffers_ treeIds => Some leaf_triangle_id_array
  | buffers_ bspTree => Some node_array
  | buffers_ bspPlanes => Some plane_array
  | uniformUIBuffer | jitterBuffer | renderDst_view | env_view
  | buffers_ colors | local_ _ => None
  end.

(** Entries by ascending binding slot (insertion sort, stable). *)
Fixpoint insert_by_slot (e : nat * resource) (l : list (nat * resource))
  : list (nat * resource) :=
  match l with
  | [] => [e]
  | e' :: l' =>
      if (fst e <=? fst e')%nat then e :: l else e' :: insert_by_slot e l'
  end.

Definition by_slot (l : list (nat * resource)) : list (nat * resource) :=
  fold_right insert_by_slot [] l.

(** The convention roles met when walking the bind group by ascending slot;
    [keep] selects the resources that are looked at. *)
Definition roles_by_slot (keep : resource -> bool) (v : variant) : list role :=
  omap (fun e => if keep (snd e) then role_of (snd e) else None) (by_slot (entries v)).

(** The roles every script needs whatever features it uses. *)
Definition core_roles : list role :=
  [camera_view_parameters; root_AABB; vertex_attributes; triangle_indices;
   material_color_table; leaf_triangle_id_array; node_array; plane_array].

#[global] Instance role_eq_dec : EqDecision role.
Proof. solve_decision. Defined.

Definition all_resources (r : resource) : bool := true.

Definition not_normals (r : resource) : bool :=
  match r with buffers_ normals => false | _ => true end.

(** A sequence of roles is in the convention's order when no role comes
    before a role that the convention lists earlier. *)
Definition in_convention_order (l : list role) : Prop :=
  forall i j r r',
    (i < j)%nat -> l !! i = Some r -> l !! j = Some r' -> (rank r <= rank r')%nat.

(** The same, as a check of neighbours. *)
Fixpoint follows_convention (l : list role) : bool :=
  match l with
  | [] => true
  | r :: l' =>
      match l' with
      | [] => true
      | r' :: _ => (rank r <=? rank r')%nat && follows_convention l'
      end
  end.

End Demo.

(* --------------------------------------------------------------------- *)
(** ** What a script does once the page has loaded                        *)
(* --------------------------------------------------------------------- *)

(** [main] is modelled from the point where every [await] has resolved and
    [readOBJFile] has delivered a mesh; from there on [main] and every event
    handler run to completion without suspension.  Events are taken from
    the end of [main] on: the one listener registered before the last
    [await] (the menu of w06p03.js) reads a constant that [main] has not
    initialised by then, so its handler stops before any GPU call.  The
    state holds the variables the closures share ([frame], [progressing],
    [bindGroup]), the callbacks handed to [requestAnimationFrame] that have
    not run yet, a counter for fresh GPU object handles and the trace of
    GPU calls, newest first. *)

Module Script.
Import TypedArrays Demo.
Open Scope Z_scope.

Record canvas := { width : Z; height : Z }.

Inductive loadOp := clear | load.

(** A handle of a GPU object; the objects [main] creates once have the fixed
    handles of [resolve], the buffers of [onReadComplete] get fresh ones. *)
Definition GPUObject := nat.

(** The [buffers] object: a field is [null] until something is stored. *)
Abbreviation buffers := (buffers_field -> option GPUObject).

Definition null_buffers : buffers := fun _ => None.

(** A bind group: each entry with what its resource expression evaluated to
    when [createBindGroup] ran. *)
Definition GPUBindGroup := list (nat * resource * option GPUObject).

Inductive call :=
| BuildBspTree (filled : list buffers_field)
      (* build_bsp_tree(drawingInfo, device, buffers) has returned *)
| CreateBindGroup (bg : GPUBindGroup)
| WriteUniformsUI (bytes : list Z)
      (* device.queue.writeBuffer(uniformUIBuffer, 0, uniformsUI) *)
| RenderPass (accumulation : option loadOp) (bg : option GPUBindGroup)
      (* beginRenderPass .. setBindGroup(0, bindGroup); draw(4) .. submit;
         [accumulation] is the loadOp of the rgba32float attachment *)
| RequestAnimationFrame.

Record state := {
  frame : Z;
  progressing : bool;
  bindGroup : option GPUBindGroup;
  scheduled : nat;
  next_handle : nat;
  log : list call
}.

Definition history (s : state) : list call := rev (log s).

Definition emit (c : call) (s : state) : state :=
  {| frame := frame s; progressing := progressing s; bindGroup := bindGroup s;
     scheduled := scheduled s; next_handle := next_handle s;
     log := c :: log s |}.

(** [device.createBuffer] for the field [f] of [buffers]. *)
Definition createBuffer_into (f : buffers_field) (bs : buffers * nat)
  : buffers * nat :=
  (<[f := Some (snd bs)]> (fst bs), S (snd bs)).

(** Which scripts keep a frame counter and an accumulation texture. *)
Definition progressive (v : variant) : bool :=
  match v with
  | part_007 | Project_source_1 | Project_source_2 | w07p01
  | w06p03_2 | w06p03_3 => true
  | part_002 | w06p01 | w06p03_1 => false
  end.

(** Which scripts call [onReadComplete] from [animate]; the others call it
    once from [main], just before the first [animate()]. *)
Definition animate_rebuilds (v : variant) : bool :=
  match v with
  | part_002 | w06p01 | w07p01 | w06p03_1 => true
  | part_007 | Project_source_1 | Project_source_2
  | w06p03_2 | w06p03_3 => false
  end.

(** The buffers a script creates itself at the top of [onReadComplete]. *)
Definition own_fields (v : variant) : list buffers_field :=
  match v with
  | w06p01 => [color; mat_indices]
  | _ => [color; light_indices]
  end.

(** The buffers the scripts bind without creating them: they are left in
    [buffers] by [build_bsp_tree]. *)
Definition tree_fields (v : variant) : list buffers_field :=
  match v with
  | w06p01 => [positions; normals; indices; aabb; treeIds; bspTree; bspPlanes]
  | _ => [attribs; indices; aabb; treeIds; bspTree; bspPlanes]
  end.

(** Modelled from the spec: [build_bsp_tree(drawingInfo, device, buffers)] is
    not among the sources; the specification describes it as synchronous,
    without suspension points, and as the call that leaves the root AABB,
    the leaf-triangle-id array, the node array and the plane array in
    [buffers].  The model is that effect on [buffers]: one fresh buffer per
    field of [tree_fields]. *)
Definition build_bsp_tree (v : variant) (bs : buffers * nat) : buffers * nat :=
  fold_left (fun acc f => createBuffer_into f acc) (tree_fields v) bs.

(** The value of a resource expression. *)
Definition resolve (bs : buffers) (r : resource) : option GPUObject :=
  match r with
  | uniformBuffer => Some 0%nat
  | uniformUIBuffer => Some 1%nat
  | jitterBuffer => Some 2%nat
  | renderDst_view => Some 3%nat
  | env_view => Some 4%nat
  | buffers_ f => bs f
  | local_ positionsBuffer => Some 5%nat
  | local_ indicesBuffer => Some 6%nat
  | local_ normalsBuffer => Some 7%nat
  | local_ materialColorBuffer => Some 8%nat
  | local_ materialEmissionBuffer => Some 9%nat
  | local_ matIndicesBuffer => Some 10%nat
  end.

Definition createBindGroup (v : variant) (bs : buffers) : GPUBindGroup :=
  map (fun e => (fst e, snd e, resolve bs (snd e))) (entries v).

(** [onReadComplete(device, pipeline)]: a fresh [buffers] object, the
    script's own buffers, the tree, the bind group. *)
Definition onReadComplete (v : variant) (s : state) : GPUBindGroup * state :=
  let bs0 := (null_buffers, next_handle s) in
  let bs1 := fold_left (fun acc f => createBuffer_into f acc) (own_fields v) bs0 in
  let bs2 := build_bsp_tree v bs1 in
  let bg := createBindGroup v (fst bs2) in
  (bg,
   {| frame := frame s; progressing := progressing s; bindGroup := bindGroup s;
      scheduled := scheduled s; next_handle := snd bs2;
      log := CreateBindGroup bg :: BuildBspTree (tree_fields v) :: log s |}).

Definition assign_bindGroup (r : GPUBindGroup * state) : state :=
  let s := snd r in
  {| frame := frame s; progressing := progressing s; bindGroup := Some (fst r);
     scheduled := scheduled s; next_handle := next_handle s; log := log s |}.

(** [render()]: one pass; the accumulation attachment exists in the
    progressive scripts only. *)
Definition render (v : variant) (s : state) : state :=
  let accumulation :=
    if progressive v then Some (if frame s =? 0 then clear else load) else None in
  emit (RenderPass accumulation (bindGroup s)) s.

(** [frame++] on a Number: exact below 2^53, where adding one rounds back. *)
Definition increment (f : Z) : Z := if f <? 2 ^ 53 then f + 1 else f.

(** [animate()]. *)
Definition animate (v : variant) (cv : canvas) (s : state) : state :=
  let s1 := if animate_rebuilds v then assign_bindGroup (onReadComplete v s) else s in
  let s2 := render v s1 in
  if progressive v && progressing s2 then
    let f := increment (frame s2) in
    let s3 := emit (WriteUniformsUI (Uint32Array [width cv; height cv; f])) s2 in
    {| frame := f; progressing := progressing s3; bindGroup := bindGroup s3;
       scheduled := S (scheduled s3); next_handle := next_handle s3;
       log := RequestAnimationFrame :: log s3 |}
  else s2.

Definition initial : state :=
  {| frame := 0; progressing := true; bindGroup := None; scheduled := 0;
     next_handle := 5; log := [] |}.

(** The synchronous tail of [main]. *)
Definition main (v : variant) (cv : canvas) : state :=
  let s1 :=
    if progressive v
    then emit (WriteUniformsUI (Float32Array [width cv; height cv; frame initial])) initial
    else initial in
  let s2 := if animate_rebuilds v then s1 else assign_bindGroup (onReadComplete v s1) in
  animate v cv s2.

(** What can happen afterwards. *)
Inductive event :=
| click_Progressive      (* the button of the progressive scripts *)
| animation_frame        (* the browser runs a requested callback *)
| change_subdivsMenu.    (* the menu of w06p03.js, first script *)

Definition handle (v : variant) (cv : canvas) (s : state) (e : event) : state :=
  match e with
  | click_Progressive =>
      if progressive v then
        let s1 :=
          {| frame := frame s; progressing := negb (progressing s);
             bindGroup := bindGroup s; scheduled := scheduled s;
             next_handle := next_handle s; log := log s |} in
        if progressing s1 then animate v cv s1 else s1
      else s
  | animation_frame =>
      match scheduled s with
      | O => s
      | S n =>
          animate v cv
            {| frame := frame s; progressing := progressing s;
               bindGroup := bindGroup s; scheduled := n;
               next_handle := next_handle s; log := log s |}
      end
  | change_subdivsMenu =>
      match v with
      | w06p03_1 => animate v cv s
      | _ => s
      end
  end.

Definition run (v : variant) (cv : canvas) (es : list event) : state :=
  fold_left (handle v cv) es (main v cv).

(** *** A script without a tree: src/w05/w05p04.js

    [main] creates its buffers and its bind group and requests the first
    frame; [animate] renders and requests the next one. *)

Definition w05p04_entries : list (nat * resource) :=
  [ (0, uniformBuffer); (1, local_ positionsBuffer); (2, local_ indicesBuffer);
    (3, local_ normalsBuffer); (4, local_ materialColorBuffer);
    (5, local_ materialEmissionBuffer); (6, local_ matIndicesBuffer) ]%nat.

Definition w05p04_bindGroup : GPUBindGroup :=
  map (fun e => (fst e, snd e, resolve null_buffers (snd e))) w05p04_entries.

Definition w05p04_main : state :=
  {| frame := 0; progressing := false; bindGroup := Some w05p04_bindGroup;
     scheduled := 1; next_handle := 11;
     log := [RequestAnimationFrame; CreateBindGroup w05p04_bindGroup] |}.

Definition w05p04_animate (s : state) : state :=
  let s1 := emit (RenderPass None (bindGroup s)) s in
  {| frame := frame s1; progressing := progressing s1; bindGroup := bindGroup s1;
     scheduled := S (scheduled s1); next_handle := next_handle s1;
     log := RequestAnimationFrame :: log s1 |}.

Definition w05p04_handle (s : state) (e : event) : state :=
  match e with
  | animation_frame =>
      match scheduled s with
      | O => s
      | S n =>
          w05p04_animate
            {| frame := frame s; progressing := progressing s;
               bindGroup := bindGroup s; scheduled := n;
               next_handle := next_handle s; log := log s |}
      end
  | _ => s
  end.

(** The demos: the nine that build the tree, and w05p04.js for the others. *)
Inductive demo :=
| builds_tree (v : variant)
| w05p04.

(** The GPU calls of a demo, oldest first, after the given events. *)
Definition trace (d : demo) (cv : canvas) (es : list event) : list call :=
  match d with
  | builds_tree v => history (run v cv es)
  | w05p04 => history (fold_left w05p04_handle es w05p04_main)
  end.

(** Observations on a trace. *)
Definition accumulation_loadOps (tr : list call) : list loadOp :=
  omap (fun c => match c with RenderPass (Some op) _ => Some op | _ => None end) tr.

Definition uniformsUI_writes (tr : list call) : list (list Z) :=
  omap (fun c => match c with WriteUniformsUI b => Some b | _ => None end) tr.

(** The four flattened buffers are present in a bind group and none is null. *)
Definition flattened_fields : list buffers_field := [aabb; treeIds; bspTree; bspPlanes].

Definition binds (bg : GPUBindGroup) (f : buffers_field) : bool :=
  existsb (fun e =>
             match e with
             | (_, buffers_ f', Some _) => bool_decide (f' = f)
             | _ => false
             end) bg.

Definition flattened_buffers_bound (bg : option GPUBindGroup) : bool :=
  match bg with
  | Some g => forallb (binds g) flattened_fields
  | None => false
  end.

Definition is_build (c : call) : bool :=
  match c with BuildBspTree _ => true | _ => false end.

(** What must hold of the calls older than a render pass. *)
Definition ready (older : list call) (bg : option GPUBindGroup) : Prop :=
  existsb is_build older = true /\
  flattened_buffers_bound bg = true /\
  exists g, bg = Some g /\ In (CreateBindGroup g) older.

Fixpoint draws_ready (l : list call) : Prop :=
  match l with
  | [] => True
  | c :: older =>
      match c with
      | RenderPass _ bg => ready older bg
      | _ => True
      end /\ draws_ready older
  end.

(** The invariant of a running script: every pass in the log was ready, and
    so is the bind group the next pass will use where [animate] does not
    make one itself. *)
Definition inv (v : variant) (s : state) : Prop :=
  draws_ready (log s) /\
  (animate_rebuilds v = false -> ready (log s) (bindGroup s)).

(** The invariant of a progressive script after [main]: the counter has left
    0, the oldest accumulation pass cleared and the others loaded, the oldest
    write of the UI uniforms was the float one and the others were integer
    writes of a positive frame number. *)
Definition progressing_inv (cv : canvas) (s : state) : Prop :=
  1 <= frame s /\
  (exists k, accumulation_loadOps (log s) = repeat load k ++ [clear]) /\
  (exists fs, Forall (fun f => 1 <= f) fs /\
     uniformsUI_writes (log s)
     = map (fun f => Uint32Array [width cv; height cv; f]) fs
       ++ [Float32Array [width cv; height cv; 0]]).

(** The value at which the binary32 pattern of an integer is the integer. *)
Definition float32_fixed_point : Z := 1318926965.

(** *** Counting the calls of a trace *)

Definition is_pass (c : call) : bool :=
  match c with RenderPass _ _ => true | _ => false end.

Definition is_create (c : call) : bool :=
  match c with CreateBindGroup _ => true | _ => false end.

Definition is_request (c : call) : bool :=
  match c with RequestAnimationFrame => true | _ => false end.

Definition count (p : call -> bool) (tr : list call) : nat :=
  length (List.filter p tr).

Definition is_click (e : event) : bool :=
  match e with click_Progressive => true | _ => false end.

Definition is_animation_frame (e : event) : bool :=
  match e with animation_frame => true | _ => false end.

(** The [size] the scripts give [uniformUIBuffer], in bytes. *)
Definition uniformUIBuffer_size : nat := 12.

(** The largest value [frame] reaches: adding one to 2^53 rounds back. *)
Definition frame_limit : Z := 2 ^ 53.

End Script.

(* --------------------------------------------------------------------- *)
(** ** The spatial partition builder                                      *)
(* --------------------------------------------------------------------- *)

(** Coordinates are exact rationals: the builder only compares coordinates
    and halves an extent. *)

Module BspTree.
Open Scope Q_scope.

Record vec3 := { x : Q; y : Q; z : Q }.

Inductive axis := axis_x | axis_y | axis_z.

Definition coord (a : axis) (p : vec3) : Q :=
  match a with
  | axis_x => x p
  | axis_y => y p
  | axis_z => z p
  end.

(** Triangle mesh: vertex positions, index triples, optional per-vertex
    normals, one material index per triangle. *)
Record mesh := {
  positions : list vec3;
  indices : list (nat * nat * nat);
  normals : list vec3;
  mat_indices : list nat
}.

Definition triangle_count (m : mesh) : nat := length (indices m).

Definition all_triangles (m : mesh) : list nat := seq 0 (triangle_count m).

(** Every index triple references valid positions. *)
Definition well_formed (m : mesh) : bool :=
  forallb (fun t =>
             match t with
             | (a, b, c) =>
                 (a <? length (positions m))%nat && (b <? length (positions m))%nat
                 && (c <? length (positions m))%nat
             end) (indices m).

(** An axis-aligned box, or the designated empty box. *)
Inductive AABB :=
| empty_AABB
| box (lo hi : vec3).

Definition vmin (p q : vec3) : vec3 :=
  {| x := Qmin (x p) (x q); y := Qmin (y p) (y q); z := Qmin (z p) (z q) |}.

Definition vmax (p q : vec3) : vec3 :=
  {| x := Qmax (x p) (x q); y := Qmax (y p) (y q); z := Qmax (z p) (z q) |}.

Fixpoint bound_points (ps : list vec3) : AABB :=
  match ps with
  | [] => empty_AABB
  | p :: ps' =>
      match bound_points ps' with
      | empty_AABB => box p p
      | box lo hi => box (vmin p lo) (vmax p hi)
      end
  end.

(** The vertices of triangle [t]. *)
Definition vertices (m : mesh) (t : nat) : list vec3 :=
  match indices m !! t with
  | Some (a, b, c) => omap (fun i => positions m !! i) [a; b; c]
  | None => []
  end.

(** Modelled from the spec: [computeAABB(triangleIndices, positions)] is not
    among the sources; section 4.1 of the specification has it return the
    tight box around every vertex of every referenced triangle, and the
    designated empty box for the empty set. *)
Definition computeAABB (m : mesh) (triangleIndices : list nat) : AABB :=
  bound_points (flat_map (vertices m) triangleIndices).

(** A partition node. *)
Inductive node :=
| leaf (ids : list nat)
| internal (a : axis) (position : Q) (left right : node).

Fixpoint leaves (n : node) : list (list nat) :=
  match n with
  | leaf ids => [ids]
  | internal _ _ l r => leaves l ++ leaves r
  end.

Fixpoint node_count (n : node) : nat :=
  match n with
  | leaf _ => 1
  | internal _ _ l r => S (node_count l + node_count r)
  end.

(** The policy constants. *)
Record policy := { threshold : nat; max_depth : nat }.

Definition extent (a : axis) (lo hi : vec3) : Q := coord a hi - coord a lo.

(** Longest axis; on exact ties x before y before z. *)
Definition longest_axis (lo hi : vec3) : axis :=
  if Qle_bool (extent axis_y lo hi) (extent axis_x lo hi)
     && Qle_bool (extent axis_z lo hi) (extent axis_x lo hi)
  then axis_x
  else if Qle_bool (extent axis_z lo hi) (extent axis_y lo hi) then axis_y
  else axis_z.

Definition midpoint (lo hi : Q) : Q := (lo + hi) / 2.

(** Classification of a triangle by its own box. *)
Definition at_or_below (m : mesh) (a : axis) (position : Q) (t : nat) : bool :=
  match computeAABB m [t] with
  | box lo _ => Qle_bool (coord a lo) position
  | empty_AABB => false
  end.

Definition at_or_above (m : mesh) (a : axis) (position : Q) (t : nat) : bool :=
  match computeAABB m [t] with
  | box _ hi => Qle_bool position (coord a hi)
  | empty_AABB => false
  end.

(** Modelled from the spec: the body of [build(triangleIndices, boundingBox,
    depth)] is not among the sources; this is steps 1 to 5 of section 4.2 of
    the specification.  [None] stands for "emit a leaf holding the whole
    set"; otherwise the plane and the two subsets are returned.  The empty
    box is not used for splitting. *)
Definition split (p : policy) (m : mesh) (triangleIndices : list nat)
           (boundingBox : AABB) (depth : nat)
  : option (axis * Q * list nat * list nat) :=
  if (length triangleIndices <? threshold p)%nat || (max_depth p <=? depth)%nat
  then None
  else
    match boundingBox with
    | empty_AABB => None
    | box lo hi =>
        let a := longest_axis lo hi in
        let position := midpoint (coord a lo) (coord a hi) in
        let l := List.filter (at_or_below m a position) triangleIndices in
        let r := List.filter (at_or_above m a position) triangleIndices in
        if (length l =? length triangleIndices)%nat
           || (length r =? length triangleIndices)%nat
        then None
        else Some (a, position, l, r)
    end.

(** Modelled from the spec: the recursion of [build], step 6 of section 4.2:
    both children are built from their subsets and recomputed boxes, one
    level deeper.  The recursion is driven by [fuel]; [None] means the fuel
    ran out before the recursion finished. *)
Fixpoint build (p : policy) (fuel : nat) (m : mesh) (triangleIndices : list nat)
         (boundingBox : AABB) (depth : nat) : option node :=
  match fuel with
  | O => None
  | S fuel' =>
      match split p m triangleIndices boundingBox depth with
      | None => Some (leaf triangleIndices)
      | Some (a, position, l, r) =>
          match build p fuel' m l (computeAABB m l) (S depth),
                build p fuel' m r (computeAABB m r) (S depth) with
          | Some tl, Some tr => Some (internal a position tl tr)
          | _, _ => None
          end
      end
  end.

Inductive outcome :=
| built (root : AABB) (tree : node)
| malformed_mesh
| out_of_fuel.

(** Modelled from the spec: [build_bsp_tree] is not among the sources; per
    sections 2, 4.2 and 7 of the specification it rejects a mesh with an
    out-of-range index and otherwise builds from all triangles, the
    whole-mesh box and depth 0. *)
Definition build_bsp_tree (p : policy) (fuel : nat) (m : mesh) : outcome :=
  if well_formed m then
    let root := computeAABB m (all_triangles m) in
    match build p fuel m (all_triangles m) root 0 with
    | Some t => built root t
    | None => out_of_fuel
    end
  else malformed_mesh.

(** The invocations of [build] that a run of [build_bsp_tree] makes. *)
Inductive invoked (p : policy) (m : mesh) : list nat -> AABB -> nat -> Prop :=
| invoked_root :
    invoked p m (all_triangles m) (computeAABB m (all_triangles m)) 0
| invoked_left tris bb depth a position l r :
    invoked p m tris bb depth ->
    split p m tris bb depth = Some (a, position, l, r) ->
    invoked p m l (computeAABB m l) (S depth)
| invoked_right tris bb depth a position l r :
    invoked p m tris bb depth ->
    split p m tris bb depth = Some (a, position, l, r) ->
    invoked p m r (computeAABB m r) (S depth).

(** [n] occurs in [t]. *)
Inductive subtree (n : node) : node -> Prop :=
| subtree_here : subtree n n
| subtree_left a position l r : subtree n l -> subtree n (internal a position l r)
| subtree_right a position l r : subtree n r -> subtree n (internal a position l r).

Definition axis_rank (a : axis) : nat :=
  match a with axis_x => 0 | axis_y => 1 | axis_z => 2 end.

(** A triangle's own box reaches the plane from both sides. *)
Definition straddles (m : mesh) (a : axis) (position : Q) (t : nat) : Prop :=
  exists lo hi, computeAABB m [t] = box lo hi /\
                coord a lo <= position /\ position <= coord a hi.

(** All triangles have the vertex positions of triangle 0. *)
Definition coincident (m : mesh) : Prop :=
  forall t, (t < triangle_count m)%nat -> vertices m t = vertices m 0.

(** *** Runs of the construction *)

(** Modelled from the spec: the tie-break, a policy constant beside the
    threshold and the maximum depth (section 4.2, step 2; section 5).
    [tb a a'] says that on an exact tie between [a] and [a'] axis [a] may be
    taken. *)
Definition tie_break := axis -> axis -> bool.

(** Modelled from the spec: the tie-break of section 4.2, step 2: on exact
    ties, prefer x, then y, then z. *)
Definition x_then_y_then_z : tie_break :=
  fun a a' => (axis_rank a <=? axis_rank a')%nat.

(** No tie-break at all: every tie is left open. *)
Definition open_ties : tie_break := fun _ _ => true.

Definition axes : list axis := [axis_x; axis_y; axis_z].

Definition axis_eqb (a a' : axis) : bool := (axis_rank a =? axis_rank a')%nat.

(** A tie-break decides every tie: no two different axes are each allowed
    before the other. *)
Definition decisive (tb : tie_break) : bool :=
  forallb (fun a => forallb (fun a' => implb (tb a a' && tb a' a) (axis_eqb a a')) axes)
          axes.

(** Modelled from the spec: the split-axis rule of section 4.2, step 2, as
    the specification words it: [a] is an axis along which the box has its
    greatest extent, and the tie-break allows it before every other axis of
    that same extent. *)
Definition admissible (tb : tie_break) (lo hi : vec3) (a : axis) : bool :=
  forallb (fun a' => Qle_bool (extent a' lo hi) (extent a lo hi)
                     && (negb (Qeq_bool (extent a' lo hi) (extent a lo hi)) || tb a a'))
          axes.

(** Modelled from the spec: a tree under construction.  Section 4.2 fixes
    what one invocation of [build] does; section 5 leaves open in which
    order the invocations are made (the two children of a node one after
    the other, interleaved, or by different workers).  A [pending] node is
    an invocation not yet made. *)
Inductive construction :=
| pending (triangleIndices : list nat) (boundingBox : AABB) (depth : nat)
| emitted (ids : list nat)
| branch (a : axis) (position : Q) (left right : construction).

(** Modelled from the spec: what one invocation of [build] does when it
    takes axis [a], steps 1 to 6 of section 4.2: a leaf by the termination
    policy, for the empty box or after a degenerate split; otherwise a node
    whose two children are still to be built from their subsets and
    recomputed boxes, one level deeper.  An axis the rule of step 2 does not
    admit is not taken. *)
Definition invoke (p : policy) (tb : tie_break) (m : mesh) (triangleIndices : list nat)
           (boundingBox : AABB) (depth : nat) (a : axis) : option construction :=
  if (length triangleIndices <? threshold p)%nat || (max_depth p <=? depth)%nat
  then Some (emitted triangleIndices)
  else
    match boundingBox with
    | empty_AABB => Some (emitted triangleIndices)
    | box lo hi =>
        if admissible tb lo hi a then
          let position := midpoint (coord a lo) (coord a hi) in
          let l := List.filter (at_or_below m a position) triangleIndices in
          let r := List.filter (at_or_above m a position) triangleIndices in
          if (length l =? length triangleIndices)%nat
             || (length r =? length triangleIndices)%nat
          then Some (emitted triangleIndices)
          else Some (branch a position
                            (pending l (computeAABB m l) (S depth))
                            (pending r (computeAABB m r) (S depth)))
        else None
    end.

Inductive side := go_left | go_right.

(** Modelled from the spec: one move of a run.  The pending invocation at
    the end of [path] is made, taking axis [a]; which pending invocation
    comes next is up to the run (section 5).  A path that does not lead to a
    pending invocation is no move. *)
Fixpoint advance (p : policy) (tb : tie_break) (m : mesh) (path : list side) (a : axis)
         (c : construction) : option construction :=
  match c, path with
  | pending triangleIndices boundingBox depth, [] =>
      invoke p tb m triangleIndices boundingBox depth a
  | branch a' position l r, go_left :: path' =>
      option_map (fun l' => branch a' position l' r) (advance p tb m path' a l)
  | branch a' position l r, go_right :: path' =>
      option_map (fun r' => branch a' position l r') (advance p tb m path' a r)
  | _, _ => None
  end.

(** A run is given by its moves, in the order in which they are made. *)
Definition schedule := list (list side * axis).

Fixpoint advance_all (p : policy) (tb : tie_break) (m : mesh) (run : schedule)
         (c : construction) : option construction :=
  match run with
  | [] => Some c
  | (path, a) :: run' =>
      match advance p tb m path a c with
      | Some c' => advance_all p tb m run' c'
      | None => None
      end
  end.

(** The tree, once no invocation is pending. *)
Fixpoint result (c : construction) : option node :=
  match c with
  | pending _ _ _ => None
  | emitted ids => Some (leaf ids)
  | branch a position l r =>
      match result l, result r with
      | Some tl, Some tr => Some (internal a position tl tr)
      | _, _ => None
      end
  end.

(** Modelled from the spec: a run of tree construction on a mesh, from the
    invocation on all triangles, the whole-mesh box and depth 0 (sections 2
    and 4.2), through the moves of [run]; [Some t] when the run is a run of
    the builder and leaves no invocation pending.  A mesh with an
    out-of-range index is rejected (section 7). *)
Definition construct (p : policy) (tb : tie_break) (m : mesh) (run : schedule)
  : option node :=
  if well_formed m then
    match advance_all p tb m run
            (pending (all_triangles m) (computeAABB m (all_triangles m)) 0) with
    | Some c => result c
    | None => None
    end
  else None.

(** The tree a construction ends in, whichever pending invocation is made
    next. *)
Inductive yields (p : policy) (tb : tie_break) (m : mesh) : construction -> node -> Prop :=
| yields_emitted ids : yields p tb m (emitted ids) (leaf ids)
| yields_pending triangleIndices boundingBox depth a c t :
    invoke p tb m triangleIndices boundingBox depth a = Some c ->
    yields p tb m c t ->
    yields p tb m (pending triangleIndices boundingBox depth) t
| yields_branch a position l r tl tr :
    yields p tb m l tl -> yields p tb m r tr ->
    yields p tb m (branch a position l r) (internal a position tl tr).

(** The moves of [run], made below the child on side [s]. *)
Definition under (s : side) (run : schedule) : schedule :=
  map (fun mv => (s :: fst mv, snd mv)) run.

(** The axis the sequential builder takes for a box. *)
Definition axis_of (boundingBox : AABB) : axis :=
  match boundingBox with
  | box lo hi => longest_axis lo hi
  | empty_AABB => axis_x
  end.

(** Sample inputs: policy constants, three triangles in a row along x of
    which the last straddles the first plane, and three coincident
    triangles. *)
Definition sample_policy : policy := {| threshold := 2; max_depth := 20 |}.

Definition three_triangles : mesh :=
  {| positions :=
       [ {| x := 0; y := 0; z := 0 |}; {| x := 1; y := 0; z := 0 |};
         {| x := 0; y := 1; z := 0 |};
         {| x := 3; y := 0; z := 0 |}; {| x := 4; y := 0; z := 0 |};
         {| x := 3; y := 1; z := 0 |};
         {| x := 3 # 2; y := 0; z := 0 |}; {| x := 5 # 2; y := 0; z := 0 |};
         {| x := 3 # 2; y := 1; z := 0 |} ];
     indices := [ (0, 1, 2); (3, 4, 5); (6, 7, 8) ]%nat;
     normals := [];
     mat_indices := [0; 0; 0]%nat |}.

Definition coincident_triangles : mesh :=
  {| positions :=
       [ {| x := 0; y := 0; z := 0 |}; {| x := 1; y := 0; z := 0 |};
         {| x := 0; y := 1; z := 0 |} ];
     indices := [ (0, 1, 2); (0, 1, 2); (0, 1, 2) ]%nat;
     normals := [];
     mat_indices := [0; 0; 0]%nat |}.

(** Two triangles in a box as wide along x as along y; the tree of
    [three_triangles] under [sample_policy], and two runs that end in it:
    one builds the left subtree to the end before the right one, the other
    alternates between the two. *)
Definition tied_triangles : mesh :=
  {| positions :=
       [ {| x := 0; y := 0; z := 0 |}; {| x := 1; y := 0; z := 0 |};
         {| x := 0; y := 4; z := 0 |};
         {| x := 3; y := 0; z := 0 |}; {| x := 4; y := 0; z := 0 |};
         {| x := 3; y := 4; z := 0 |} ];
     indices := [ (0, 1, 2); (3, 4, 5) ]%nat;
     normals := [];
     mat_indices := [0; 0]%nat |}.

Definition three_triangles_tree : node :=
  internal axis_x (4 # 2)
           (internal axis_x (5 # 4) (leaf [0%nat]) (leaf [2%nat]))
           (internal axis_x (11 # 4) (leaf [2%nat]) (leaf [1%nat])).

Definition left_first : schedule :=
  [ ([], axis_x);
    ([go_left], axis_x); ([go_left; go_left], axis_x); ([go_left; go_right], axis_x);
    ([go_right], axis_x); ([go_right; go_left], axis_x); ([go_right; go_right], axis_x) ].

Definition alternating : schedule :=
  [ ([], axis_x);
    ([go_right], axis_x); ([go_left], axis_x);
    ([go_right; go_right], axis_x); ([go_left; go_left], axis_x);
    ([go_right; go_left], axis_x); ([go_left; go_right], axis_x) ].

End BspTree.

(* --------------------------------------------------------------------- *)
(** ** Numbers and loops                                                  *)
(* --------------------------------------------------------------------- *)

Module JS.

(** The arithmetic a script does on Numbers.  [binary64] is what runs: IEEE
    754 double precision, with [fround] the rounding of a store into a
    Float32Array.  [exact] is the same arithmetic without rounding. *)
Class Number (N : Type) := {
  of_nat : nat -> N;
  plus : N -> N -> N;
  minus : N -> N -> N;
  times : N -> N -> N;
  divide : N -> N -> N;
  fround : N -> N
}.

Definition binary32_of (v : float) : float :=
  match Prim2SF v with
  | S754_finite s m e => SF2Prim (binary_round 24 128 s m e)
  | _ => v
  end.

#[global] Instance binary64 : Number float := {|
  of_nat n := PrimFloat.of_uint63 (Uint63.of_Z (Z.of_nat n));
  plus := PrimFloat.add;
  minus := PrimFloat.sub;
  times := PrimFloat.mul;
  divide := PrimFloat.div;
  fround := binary32_of
|}.

#[global] Instance exact : Number Q := {|
  of_nat n := inject_Z (Z.of_nat n);
  plus := Qplus;
  minus := Qminus;
  times := Qmult;
  divide := Qdiv;
  fround v := v
|}.

(** The literal [0.5]. *)
Definition half {N : Type} `{Number N} : N := divide (of_nat 1) (of_nat 2).

(** [for (let i = start; i < start + n; i++) body]: [n] rounds of [body],
    threading the variables the loop assigns. *)
Fixpoint for_loop {St : Type} (n : nat) (i : nat) (body : nat -> St -> St) (st : St)
  : St :=
  match n with
  | O => st
  | S n' => for_loop n' (S i) body (body i st)
  end.

End JS.

(* --------------------------------------------------------------------- *)
(** ** The material color table                                           *)
(* --------------------------------------------------------------------- *)

Module Materials.
Import JS Demo.

Record RGBA (N : Type) := { r : N; g : N; b : N; a : N }.
Arguments r {N}.
Arguments g {N}.
Arguments b {N}.
Arguments a {N}.

Record Material (N : Type) := { color : RGBA N; emission : RGBA N }.
Arguments color {N}.
Arguments emission {N}.

Section Table.
Context {N : Type} `{Number N}.

(** Which scripts add emission to color before pushing. *)
Definition combines (v : variant) : bool :=
  match v with
  | part_002 | w06p01 | w07p01 | w06p03_1 => true
  | part_007 | Project_source_1 | Project_source_2 | w06p03_2 | w06p03_3 => false
  end.

(** What one round of the loop pushes for [mat = materials[i]]. *)
Definition pushed (v : variant) (mat : Material N) : list N :=
  if combines v then
    [ plus (r (color mat)) (r (emission mat));
      plus (g (color mat)) (g (emission mat));
      plus (b (color mat)) (b (emission mat));
      plus (a (color mat)) (a (emission mat)) ]
  else
    [ r (color mat); g (color mat); b (color mat); a (color mat);
      r (emission mat); g (emission mat); b (emission mat); a (emission mat) ].

(** The loop that fills [matColors]. *)
Definition matColors (v : variant) (materials : list (Material N)) : list N :=
  for_loop (length materials) 0
    (fun i matColors =>
       match materials !! i with
       | Some mat => matColors ++ pushed v mat
       | None => matColors
       end) [].

(** [new Float32Array(matColors)], the table that is uploaded. *)
Definition color_table (v : variant) (materials : list (Material N)) : list N :=
  map fround (matColors v materials).

(** The [size] of [buffers.color], in bytes. *)
Definition color_buffer_size (v : variant) (materials : list (Material N)) : nat :=
  match v with
  | w06p01 => length (matColors v materials) * 4
  | part_002 | w07p01 | w06p03_1 => length materials * 16
  | part_007 | Project_source_1 | Project_source_2 | w06p03_2 | w06p03_3 =>
      length materials * 32
  end.

(** Floats per record. *)
Definition stride (v : variant) : nat := if combines v then 4 else 8.

(** The [i]-th record of a table. *)
Definition record (v : variant) (table : list N) (i : nat) : list N :=
  take (stride v) (drop (i * stride v) table).

End Table.

(** Two materials: a red surface that emits nothing, a black surface that
    emits red. *)
Definition red_surface : Material float :=
  {| color := {| r := 1; g := 0; b := 0; a := 1 |}%float;
     emission := {| r := 0; g := 0; b := 0; a := 0 |}%float |}.

Definition red_light : Material float :=
  {| color := {| r := 0; g := 0; b := 0; a := 1 |}%float;
     emission := {| r := 1; g := 0; b := 0; a := 0 |}%float |}.

(** *** w05p04.js: colors and emissions in two buffers *)

(** A GPU buffer as [createBuffer(device, data, usage)] of w05p04.js and of
    src/unnamed/part_006 makes it: [size] is [data.byteLength] and the data
    is written at offset 0.  The data is a Float32Array or a Uint32Array:
    four bytes an element. *)
Record GPUBuffer (A : Type) := { size : nat; contents : list A }.
Arguments size {A}.
Arguments contents {A}.

Definition createBuffer {A : Type} (data : list A) : GPUBuffer A :=
  {| size := length data * 4; contents := data |}.

Section Separate.
Context {N : Type} `{Number N}.

(** What [createMaterialBuffers] returns. *)
Record MaterialBuffers := {
  materialColorBuffer : GPUBuffer N;
  materialEmissionBuffer : GPUBuffer N;
  matIndicesBuffer : GPUBuffer Z
}.

(** [createMaterialBuffers(device, drawingInfo)]: the [forEach] pushes the
    four color components on [matColors] and the four emission components
    on [matEmission]; each becomes a Float32Array in a buffer of its own,
    and [drawingInfo.mat_indices] goes into a third. *)
Definition createMaterialBuffers (materials : list (Material N))
           (mat_indices : list Z) : MaterialBuffers :=
  let '(matColors, matEmission) :=
    fold_left
      (fun (acc : list N * list N) material =>
         (fst acc ++ [r (color material); g (color material);
                      b (color material); a (color material)],
          snd acc ++ [r (emission material); g (emission material);
                      b (emission material); a (emission material)]))
      materials ([], []) in
  {| materialColorBuffer := createBuffer (map fround matColors);
     materialEmissionBuffer := createBuffer (map fround matEmission);
     matIndicesBuffer := createBuffer mat_indices |}.

(** The four components of a color, in the order they are pushed. *)
Definition rgba (c : RGBA N) : list N := [r c; g c; b c; a c].

End Separate.

Arguments MaterialBuffers : clear implicits.

End Materials.

(* --------------------------------------------------------------------- *)
(** ** Jitter offsets                                                     *)
(* --------------------------------------------------------------------- *)

(** [computeJitters] of w06p03.js (first script), w05p01.js and
    src/unnamed/part_005: the three copies differ in layout only (an early
    [return] in place of the [else]).  [Math.random()] is an oracle: its
    [k]-th call returns [random k].  The state of the loops is the array and
    the number of calls made so far. *)

Module Jitter.
Import JS.

Section Compute.
Context {N : Type} `{Number N}.
Variable random : nat -> N.

(** [jitterArray[idx] = value] where [value] holds one call of
    [Math.random()]; the array is a Float32Array. *)
Definition store (idx : nat) (value : N -> N) (st : list N * nat) : list N * nat :=
  (<[idx := fround (value (random (snd st)))]> (fst st), S (snd st)).

Definition computeJitters (jitterArray : list N) (pixelSize : N) (subdivs : Z)
  : list N :=
  let step := divide pixelSize (of_nat (Z.to_nat subdivs)) in
  if (subdivs <? 2)%Z then
    <[1%nat := fround (of_nat 0)]> (<[0%nat := fround (of_nat 0)]> jitterArray)
  else
    let s := Z.to_nat subdivs in
    fst (for_loop s 0
           (fun i =>
              for_loop s 0
                (fun j st =>
                   let idx := ((i * s + j) * 2)%nat in
                   let st1 :=
                     store idx
                       (fun rnd => minus (times (plus rnd (of_nat j)) step)
                                         (times pixelSize half)) st in
                   store (idx + 1)
                     (fun rnd => minus (times (plus rnd (of_nat i)) step)
                                       (times pixelSize half)) st1))
           (jitterArray, 0%nat)).

(** The value the loops compute for index [k]. *)
Definition jitter_value (pixelSize : N) (subdivs : Z) (k : nat) : N :=
  let s := Z.to_nat subdivs in
  let cell := (k / 2)%nat in
  let n := if Nat.even k then (cell mod s)%nat else (cell / s)%nat in
  fround (minus (times (plus (random k) (of_nat n))
                       (divide pixelSize (of_nat s)))
                (times pixelSize half)).

(** State of the loops after [cells] cells: [2 * cells] calls of
    [Math.random()] were made, the indices below [2 * cells] that exist
    hold their values, the others are untouched. *)
Definition after (jitterArray : list N) (pixelSize : N) (subdivs : Z)
           (cells : nat) (st : list N * nat) : Prop :=
  snd st = (2 * cells)%nat /\
  length (fst st) = length jitterArray /\
  forall k,
    fst st !! k =
    if (k <? 2 * cells)%nat then
      if (k <? length jitterArray)%nat
      then Some (jitter_value pixelSize subdivs k) else None
    else jitterArray !! k.

End Compute.

(** [new Float32Array(400)]. *)
Definition jitter_400 {N : Type} `{Number N} : list N := repeat (of_nat 0) 400.

(** *** The callers of [computeJitters] *)

Section Callers.
Context {N : Type} `{Number N}.

(** [createJitterBuffer(device, size)] of src/unnamed/part_005: the array
    and the [size] of the GPU buffer, [jitter.byteLength]. *)
Definition createJitterBuffer (size : nat) : list N * nat :=
  let jitter := repeat (of_nat 0) (size * 2) in
  (jitter, (length jitter * 4)%nat).

(** The change handler of [subdivsMenu] in src/unnamed/part_005: a new
    array of [subdivisions * subdivisions * 2] floats is filled and written
    to the jitter buffer that [main] created.  [random] holds the values
    [Math.random()] returns during the handler. *)
Definition part_005_change (random : nat -> N) (pixelSize : N) (subdivisions : Z)
  : list N :=
  let newJitterBufferSize := (subdivisions * subdivisions * 2)%Z in
  let jitter := repeat (of_nat 0) (Z.to_nat newJitterBufferSize) in
  computeJitters random jitter pixelSize subdivisions.

(** Whether [device.queue.writeBuffer(buffer, 0, data)] stays within a
    buffer of [size] bytes. *)
Definition write_fits (size : nat) (data : list N) : Prop :=
  (length data * 4 <= size)%nat.

(** w06p03.js, first script: [new Float32Array([aspect, camConst, subdivs])]
    with [camConst = 1]; [subdivs] is the menu's value, a numeral that each
    use converts to its number. *)
Definition w06p03_uniforms (aspect : N) (subdivs : nat) : list N :=
  map fround [aspect; of_nat 1; of_nat subdivs].

(** What the change handler of [subdivsMenu] in that script does to
    [uniforms] and [jitter]: [uniforms[3] = subdivs], then [computeJitters].
    An event is the selected value with the values [Math.random()] returns
    during the handler. *)
Definition w06p03_change (pixelSize : N) (st : list N * list N)
           (e : nat * (nat -> N)) : list N * list N :=
  (<[3%nat := fround (of_nat (fst e))]> (fst st),
   computeJitters (snd e) (snd st) pixelSize (Z.of_nat (fst e))).

End Callers.

End Jitter.

(* --------------------------------------------------------------------- *)
(** ** Texture upload: the vertical flip of loadTexture                   *)
(* --------------------------------------------------------------------- *)

(** [loadTexture] of w05p01.js, of both scripts of src/unnamed/part_005 and
    of w03p01.js draws the image on a canvas, reads its pixels (four bytes
    each, rows from the top) and copies them into a new Uint8Array with the
    rows in the opposite order; that array goes to [writeTexture] with
    [bytesPerRow = img.width * 4]. *)

Module Texture.
Import JS.

(** [imageData.data[i]] as a Uint8Array stores it: a read outside the array
    is [undefined], which is stored as 0. *)
Definition read (data : list Byte.byte) (i : nat) : Byte.byte :=
  default Byte.x00 (data !! i).

(** The three loops over [y], [x] and [c] that fill [textureData]. *)
Definition flip (width height : nat) (data : list Byte.byte) : list Byte.byte :=
  for_loop height 0
    (fun y =>
       for_loop width 0
         (fun x =>
            for_loop 4 0
              (fun c textureData =>
                 <[((y * width + x) * 4 + c)%nat :=
                     read data (((height - y - 1) * width + x) * 4 + c)]>
                   textureData)))
    (repeat Byte.x00 (width * height * 4)).

(** The index the byte at [idx] is copied from. *)
Definition source_index (width height idx : nat) : nat :=
  ((height - (idx / 4) / width - 1) * width + (idx / 4) mod width) * 4 + idx mod 4.

(** Row [y] of an image of [width] pixels a row. *)
Definition row (width : nat) (image : list Byte.byte) (y : nat) : list Byte.byte :=
  take (width * 4) (drop (y * (width * 4)) image).

End Texture.

(* --------------------------------------------------------------------- *)
(** ** A page with controls: src/w05/w05p01.js                            *)
(* --------------------------------------------------------------------- *)

(** What [main] of w05p01.js does once the texture has loaded, and what its
    five listeners do afterwards.  The page draws on demand: a listener
    updates an array or the bind group and requests one frame.  The GPU is
    observed through the chronological trace of calls, as for the scripts
    above. *)

(** Values of the two select elements, as WebGPU names them. *)
Module GPUModes.
Import String.
Definition clamp_to_edge : string := "clamp-to-edge".
Definition repeat_ : string := "repeat".
Definition nearest : string := "nearest".
Definition linear : string := "linear".
End GPUModes.

Module W05p01.
Import JS Jitter.

Section Page.
Context {N : Type} `{Number N}.

Record GPUSampler := {
  addressModeU : String.string;
  addressModeV : String.string;
  minFilter : String.string;
  magFilter : String.string
}.

(** [device.createSampler] as [loadTexture] and [updateSampler] call it,
    with the values of the two select elements. *)
Definition createSampler (addressmode filtermode : String.string) : GPUSampler :=
  {| addressModeU := addressmode; addressModeV := addressmode;
     minFilter := filtermode; magFilter := filtermode |}.

Inductive resource :=
| uniformBuffer
| sampler_ (s : GPUSampler)      (* texture.sampler *)
| texture_view                   (* texture.createView() *)
| jitterBuffer
| vPositionsBuffer
| meshFacesBuffer.

Definition GPUBindGroup := list (nat * resource).

(** [createBindGroup(device, pipeline, uniformBuffer, texture, ...)]; of its
    arguments only [texture.sampler] ever changes. *)
Definition createBindGroup (texture_sampler : GPUSampler) : GPUBindGroup :=
  [ (0, uniformBuffer); (1, sampler_ texture_sampler); (2, texture_view);
    (3, jitterBuffer); (4, vPositionsBuffer); (5, meshFacesBuffer) ]%nat.

Inductive call :=
| CreateSampler (s : GPUSampler)
| CreateBindGroup (bg : GPUBindGroup)
| WriteUniforms (data : list N)   (* writeBuffer(uniformBuffer, 0, uniforms) *)
| WriteJitter (data : list N)     (* writeBuffer(jitterBuffer, 0, jitter) *)
| RenderPass (bg : GPUBindGroup)  (* setBindGroup(0, bindGroup); draw(4); submit *)
| RequestAnimationFrame.

Record state := {
  addressmode : String.string;    (* addressModeElement.value *)
  filtermode : String.string;     (* filterModeElement.value *)
  uniforms : list N;
  jitter : list N;
  texture_sampler : GPUSampler;   (* texture.sampler *)
  bindGroup : GPUBindGroup;
  pending : nat;                  (* callbacks requested and not yet run *)
  log : list call
}.

Definition emit (c : call) (s : state) : state :=
  {| addressmode := addressmode s; filtermode := filtermode s;
     uniforms := uniforms s; jitter := jitter s;
     texture_sampler := texture_sampler s; bindGroup := bindGroup s;
     pending := pending s; log := c :: log s |}.

(** [uniforms[i] = value; device.queue.writeBuffer(uniformBuffer, 0, uniforms)]. *)
Definition store_uniform (i : nat) (value : N) (s : state) : state :=
  let uniforms' := <[i := fround value]> (uniforms s) in
  {| addressmode := addressmode s; filtermode := filtermode s;
     uniforms := uniforms'; jitter := jitter s;
     texture_sampler := texture_sampler s; bindGroup := bindGroup s;
     pending := pending s; log := WriteUniforms uniforms' :: log s |}.

(** [computeJitters(jitter, pixelSize, subdivs);
     device.queue.writeBuffer(jitterBuffer, 0, jitter)]. *)
Definition store_jitters (random : nat -> N) (pixelSize : N) (subdivs : nat)
           (s : state) : state :=
  let jitter' := computeJitters random (jitter s) pixelSize (Z.of_nat subdivs) in
  {| addressmode := addressmode s; filtermode := filtermode s;
     uniforms := uniforms s; jitter := jitter';
     texture_sampler := texture_sampler s; bindGroup := bindGroup s;
     pending := pending s; log := WriteJitter jitter' :: log s |}.

(** [updateSampler()]. *)
Definition updateSampler (s : state) : state :=
  let sampler := createSampler (addressmode s) (filtermode s) in
  {| addressmode := addressmode s; filtermode := filtermode s;
     uniforms := uniforms s; jitter := jitter s;
     texture_sampler := sampler; bindGroup := bindGroup s;
     pending := pending s; log := CreateSampler sampler :: log s |}.

(** [bindGroup = createBindGroup(...)]. *)
Definition rebind (s : state) : state :=
  let bg := createBindGroup (texture_sampler s) in
  {| addressmode := addressmode s; filtermode := filtermode s;
     uniforms := uniforms s; jitter := jitter s;
     texture_sampler := texture_sampler s; bindGroup := bg;
     pending := pending s; log := CreateBindGroup bg :: log s |}.

(** [render()]. *)
Definition render (s : state) : state := emit (RenderPass (bindGroup s)) s.

(** [requestRender()]. *)
Definition requestRender (s : state) : state :=
  {| addressmode := addressmode s; filtermode := filtermode s;
     uniforms := uniforms s; jitter := jitter s;
     texture_sampler := texture_sampler s; bindGroup := bindGroup s;
     pending := S (pending s); log := RequestAnimationFrame :: log s |}.

(** The user picks a value in a select element. *)
Definition select_addressmode (value : String.string) (s : state) : state :=
  {| addressmode := value; filtermode := filtermode s;
     uniforms := uniforms s; jitter := jitter s;
     texture_sampler := texture_sampler s; bindGroup := bindGroup s;
     pending := pending s; log := log s |}.

Definition select_filtermode (value : String.string) (s : state) : state :=
  {| addressmode := addressmode s; filtermode := value;
     uniforms := uniforms s; jitter := jitter s;
     texture_sampler := texture_sampler s; bindGroup := bindGroup s;
     pending := pending s; log := log s |}.

(** The page as [main] finds it: the canvas, the values of the select
    elements and of the subdivisions menu (a numeral, parsed by [parseInt]),
    and the values [Math.random()] returns during [main]. *)
Record page := {
  width : nat;
  height : nat;
  addressmode0 : String.string;
  filtermode0 : String.string;
  subdivs0 : nat;
  random0 : nat -> N
}.

Definition aspect (p : page) : N := divide (of_nat (width p)) (of_nat (height p)).

Definition pixelSize (p : page) : N := divide (of_nat 1) (of_nat (height p)).

(** [main] from the return of [loadTexture], which has created the first
    sampler, to the initial [render()]: the bind group, the jitter offsets,
    the uniforms, [updateSampler()], [render()]. *)
Definition main (p : page) : state :=
  let sampler := createSampler (addressmode0 p) (filtermode0 p) in
  let bg := createBindGroup sampler in
  let jitter' :=
    computeJitters (random0 p) jitter_400 (pixelSize p) (Z.of_nat (subdivs0 p)) in
  let uniforms' := map fround [aspect p; of_nat 1; of_nat 1; of_nat (subdivs0 p)] in
  render
    (updateSampler
       {| addressmode := addressmode0 p; filtermode := filtermode0 p;
          uniforms := uniforms'; jitter := jitter';
          texture_sampler := sampler; bindGroup := bg; pending := 0;
          log := [WriteUniforms uniforms'; WriteJitter jitter';
                  CreateBindGroup bg; CreateSampler sampler] |}).

(** What happens afterwards.  An input event carries the parsed value of its
    element; a change of the subdivisions menu also the values
    [Math.random()] returns during its listener. *)
Inductive event :=
| input_zoom (value : N)                  (* parseFloat(event.target.value) *)
| change_shader (value : N)               (* parseInt(event.target.value, 10) *)
| change_subdivs (value : nat) (random : nat -> N)
| change_addressmode (value : String.string)
| change_filtermode (value : String.string)
| animation_frame.                        (* the browser runs a requested callback *)

Definition handle (p : page) (s : state) (e : event) : state :=
  match e with
  | input_zoom value => requestRender (store_uniform 1 value s)
  | change_shader value => requestRender (store_uniform 2 value s)
  | change_subdivs value random =>
      requestRender
        (store_jitters random (pixelSize p) value
           (store_uniform 3 (of_nat value) s))
  | change_addressmode value =>
      requestRender (rebind (updateSampler (select_addressmode value s)))
  | change_filtermode value =>
      requestRender (rebind (updateSampler (select_filtermode value s)))
  | animation_frame =>
      match pending s with
      | O => s
      | S n =>
          render
            {| addressmode := addressmode s; filtermode := filtermode s;
               uniforms := uniforms s; jitter := jitter s;
               texture_sampler := texture_sampler s; bindGroup := bindGroup s;
               pending := n; log := log s |}
      end
  end.

Definition run (p : page) (es : list event) : state :=
  fold_left (handle p) es (main p).

(** The GPU calls, oldest first. *)
Definition trace (p : page) (es : list event) : list call := rev (log (run p es)).

(** *** Observations *)

(** The latest value an element was given, [initial] if none. *)
Definition latest {A : Type} (pick : event -> option A) (initial : A)
           (es : list event) : A :=
  fold_left (fun acc e => match pick e with Some v => v | None => acc end)
            es initial.

Definition zoom_of (e : event) : option N :=
  match e with input_zoom v => Some v | _ => None end.

Definition shader_of (e : event) : option N :=
  match e with change_shader v => Some v | _ => None end.

Definition subdivs_of (e : event) : option nat :=
  match e with change_subdivs v _ => Some v | _ => None end.

Definition addressmode_of (e : event) : option String.string :=
  match e with change_addressmode v => Some v | _ => None end.

Definition filtermode_of (e : event) : option String.string :=
  match e with change_filtermode v => Some v | _ => None end.

(** What the uniform buffer and the jitter buffer hold: the data of the
    newest write in a log. *)
Definition uniformBuffer_contents (l : list call) : option (list N) :=
  head (omap (fun c => match c with WriteUniforms d => Some d | _ => None end) l).

Definition jitterBuffer_contents (l : list call) : option (list N) :=
  head (omap (fun c => match c with WriteJitter d => Some d | _ => None end) l).

(** The sampler a bind group binds. *)
Definition bound_sampler (bg : GPUBindGroup) : option GPUSampler :=
  head (omap (fun e => match snd e with sampler_ s => Some s | _ => None end) bg).

Definition is_pass (c : call) : bool :=
  match c with RenderPass _ => true | _ => false end.

Definition is_animation_frame (e : event) : bool :=
  match e with animation_frame => true | _ => false end.

Definition is_frame_request (c : call) : bool :=
  match c with RequestAnimationFrame => true | _ => false end.

(** The sizes of the two buffers, in bytes: [size: 20] and
    [size: jitter.byteLength]. *)
Definition uniformBuffer_size : nat := 20.

Definition jitterBuffer_size : nat := length (jitter_400 (N := N)) * 4.

(** Whether a write stays within its buffer. *)
Definition write_within (c : call) : Prop :=
  match c with
  | WriteUniforms d => (length d * 4 <= uniformBuffer_size)%nat
  | WriteJitter d => (length d * 4 <= jitterBuffer_size)%nat
  | _ => True
  end.

End Page.

Arguments GPUSampler : clear implicits.
Arguments state : clear implicits.
Arguments page : clear implicits.
Arguments event : clear implicits.
Arguments call : clear implicits.

End W05p01.

(* --------------------------------------------------------------------- *)
(** ** Start-up: what [main] needs before it draws                        *)
(* --------------------------------------------------------------------- *)

(** [main] of a script that builds a tree looks up or awaits, one after the
    other, the things below.  Each may be missing: a lookup gives
    [undefined] or [null], an awaited promise resolves to [null] or rejects.
    Where the script tests for a missing value it reports and returns; where
    it does not, the first use throws, as does a rejected [await], and [main]
    ends there.  The page is taken to have loaded the scripts that define
    [readOBJFile] and [build_bsp_tree], and [build_bsp_tree] to return, as in
    [Script]. *)

Module Startup.
Import TypedArrays Demo Script.

Inductive prerequisite :=
| navigator_gpu       (* navigator.gpu *)
| adapter             (* what requestAdapter() delivers *)
| device              (* what requestDevice() delivers *)
| canvas_element      (* document.getElementById("webgpu-canvas") *)
| context             (* canvas.getContext("webgpu") *)
| wgsl_element        (* document.getElementById("wgsl") *)
| subdivs_menu        (* document.getElementById("subdivsMenu") *)
| environment_image   (* the image loadTexture fetches and decodes *)
| mesh                (* what readOBJFile delivers *)
| progressive_button. (* document.getElementById("Progressive") *)

#[global] Instance prerequisite_eq_dec : EqDecision prerequisite.
Proof. solve_decision. Defined.

Inductive availability :=
| present
| absent       (* undefined or null, looked up or delivered by a promise *)
| rejected.    (* the promise rejects; for a lookup, read as absent *)

Inductive reaction :=
| reports     (* console.error, alert, return *)
| logs        (* console.error, return *)
| throws.     (* no test: a TypeError at the first use, or a rejection *)

(** What the browser, the page and the network provide. *)
Definition environment := prerequisite -> availability.

(** The statements of [main] that can end it, and the calls traced in
    [Script], up to the first [animate()]. *)
Inductive step :=
| await_ (q : prerequisite)
      (* [await] of the promise for [q] *)
| need (q : prerequisite) (how : reaction)
      (* the test [if (!q)] where the script has one, else the first use *)
| write_uniformsUI
      (* device.queue.writeBuffer(uniformUIBuffer, 0, uniformsUI) *)
| call_onReadComplete
      (* bindGroup = onReadComplete(device, pipeline) *)
| call_animate.
      (* animate() *)

(** The opening of every script but the first of Project/source.js; line
    numbers are those of part_002. *)
Definition guarded_start : list step :=
  [ need navigator_gpu reports;     (* 6: if (!navigator.gpu) *)
    await_ adapter;                 (* 13 *)
    need adapter reports;           (* 14 *)
    await_ device;                  (* 20 *)
    need device reports;            (* 21 *)
    need canvas_element throws;     (* 28-29: canvas.getContext *)
    need context reports;           (* 30 *)
    need wgsl_element throws ].     (* 46: getElementById("wgsl").text *)

(** [main] in source order.  Where the mesh is not tested, its first use is
    [drawingInfo.materials.length] at the top of [onReadComplete], before
    any traced call. *)
Definition steps (v : variant) : list step :=
  match v with
  | part_002 =>
      guarded_start ++
      [ await_ mesh;                      (* 68 *)
        need mesh throws;                 (* 87, from animate() *)
        call_animate ]                    (* 144 *)
  | w06p01 =>
      guarded_start ++
      [ await_ mesh;                      (* 69 *)
        need mesh logs;                   (* 70 *)
        call_animate ]                    (* 177 *)
  | part_007 | Project_source_2 =>
      guarded_start ++
      [ await_ mesh;                      (* 88; 273 *)
        need mesh logs;                   (* 89; 274 *)
        write_uniformsUI;                 (* 177; 367 *)
        need progressive_button throws;   (* 180-181; 371-372 *)
        call_onReadComplete;              (* 188; 380 *)
        call_animate ]                    (* 199; 392 *)
  | Project_source_1 =>
      [ need navigator_gpu throws;        (* 5-6: gpu.requestAdapter() *)
        await_ adapter;                   (* 6 *)
        need adapter throws;              (* 7: adapter.requestDevice() *)
        await_ device;                    (* 7 *)
        need canvas_element throws;       (* 8-9 *)
        need context throws;              (* 11: context.configure *)
        need device throws;               (* 11: its [device] member *)
        need wgsl_element throws;         (* 17 *)
        await_ mesh;                      (* 54 *)
        write_uniformsUI;                 (* 136 *)
        need progressive_button throws;   (* 139-140 *)
        need mesh throws;                 (* 73, from line 153 *)
        call_onReadComplete;              (* 153 *)
        call_animate ]                    (* 167 *)
  | w07p01 =>
      guarded_start ++
      [ await_ mesh;                      (* 88 *)
        need mesh logs;                   (* 89 *)
        write_uniformsUI;                 (* 180 *)
        need progressive_button throws;   (* 183-184 *)
        call_animate ]                    (* 201 *)
  | w06p03_1 =>
      guarded_start ++
      [ need subdivs_menu throws;         (* 74, 93: subdivsMenu.value *)
        await_ mesh;                      (* 108 *)
        need mesh logs;                   (* 109 *)
        call_animate ]                    (* 191 *)
  | w06p03_2 | w06p03_3 =>
      guarded_start ++
      [ await_ environment_image;         (* 281-283, 317; 539-541, 575 *)
        need environment_image throws;    (* 285; 543: img.width *)
        await_ mesh;                      (* 322; 580 *)
        need mesh logs;                   (* 323; 581 *)
        write_uniformsUI;                 (* 410; 667 *)
        need progressive_button throws;   (* 414-415; 684-685 *)
        call_onReadComplete;              (* 423; 690 *)
        call_animate ]                    (* 435; 701 *)
  end.

(** Whether a step ends [main], and how. *)
Definition blocked (env : environment) (st : step)
  : option (prerequisite * reaction) :=
  match st with
  | await_ q =>
      match env q with
      | rejected => Some (q, throws)
      | _ => None
      end
  | need q how =>
      match env q with
      | present => None
      | _ => Some (q, how)
      end
  | _ => None
  end.

(** What a step that does not end [main] does. *)
Definition perform (v : variant) (cv : canvas) (st : step) (s : state) : state :=
  match st with
  | await_ _ | need _ _ => s
  | write_uniformsUI =>
      emit (WriteUniformsUI (Float32Array [width cv; height cv; frame s])) s
  | call_onReadComplete => assign_bindGroup (onReadComplete v s)
  | call_animate => animate v cv s
  end.

(** The steps in order, up to the first that ends [main]. *)
Fixpoint go (v : variant) (cv : canvas) (env : environment) (l : list step)
         (s : state) : option (prerequisite * reaction) * state :=
  match l with
  | [] => (None, s)
  | st :: l' =>
      match blocked env st with
      | Some r => (Some r, s)
      | None => go v cv env l' (perform v cv st s)
      end
  end.

(** Loading a page: where [main] stopped, if it did, and the state by the
    time [main] is over. *)
Definition load (v : variant) (env : environment) (cv : canvas)
  : option (prerequisite * reaction) * state :=
  go v cv env (steps v) initial.

(** Steps that make no traced call but the write of the UI uniforms. *)
Definition quiet (st : step) : bool :=
  match st with
  | call_onReadComplete | call_animate => false
  | _ => true
  end.

(** Steps that cannot end [main]. *)
Definition unblockable (st : step) : bool :=
  match st with
  | await_ _ | need _ _ => false
  | _ => true
  end.

(** No step that can end [main] comes after a call of [onReadComplete] or
    [animate]. *)
Fixpoint checks_first (l : list step) : bool :=
  match l with
  | [] => true
  | st :: l' => if quiet st then checks_first l' else forallb unblockable l'
  end.

(** Whatever [main] has done when it stops, it has not built, bound or
    drawn. *)
Definition undrawn (s : state) : Prop :=
  count is_build (log s) = 0%nat /\ count is_create (log s) = 0%nat /\
  count is_pass (log s) = 0%nat.

(** Sample environments: everything there; everything but [q]. *)
Definition complete : environment := fun _ => present.

Definition without (q : prerequisite) : environment :=
  fun q' => if bool_decide (q' = q) then absent else present.

End Startup.

(* ===================================================================== *)
(** * Part II. Properties                                                 *)
(* ===================================================================== *)

Module TypedArraysFacts.
Import TypedArrays.
Open Scope Z_scope.

Example float32_bits_1 : float32_bits 1 = 0x3F800000.
Proof. reflexivity. Qed.

Example float32_bits_512 : float32_bits 512 = 0x44000000.
Proof. reflexivity. Qed.

Example float32_bits_tie_down : float32_bits 16777217 = float32_bits 16777216.
Proof. reflexivity. Qed.

Example float32_bits_tie_up : float32_bits 16777219 = float32_bits 16777220.
Proof. reflexivity. Qed.

Example Float32Array_512 : Float32Array [512; 0] = [0; 0; 0; 68; 0; 0; 0; 0].
Proof. reflexivity. Qed.

Example Uint32Array_512 : Uint32Array [512; 1] = [0; 2; 0; 0; 1; 0; 0; 0].
Proof. reflexivity. Qed.

(** The encoder agrees with the Standard Library's rounding on a sample that
    covers exact values, ties in both directions, a carry into the exponent
    and the largest 32-bit integer. *)
Example float32_bits_agrees :
  Forall (fun n => float32_bits (Zpos n) = binary32_bits_of_integer n)
         [1; 2; 3; 512; 1080; 16777215; 16777217; 16777219; 33554431;
          1065353216; 1318926965; 2147483647; 4294967167; 4294967295]%positive.
Proof. repeat constructor. Qed.

Lemma le_bytes_value (a : Z) :
  0 <= a < 2 ^ 32 ->
  a = a mod 256 + 256 * ((a / 2 ^ 8) mod 256) + 65536 * ((a / 2 ^ 16) mod 256)
      + 16777216 * ((a / 2 ^ 24) mod 256).
Proof.
  intros Ha.
  change (2 ^ 8) with 256. change (2 ^ 16) with (256 * 256).
  change (2 ^ 24) with (256 * 256 * 256).
  change (2 ^ 32) with 4294967296 in Ha.
  rewrite <- !Z.div_div by lia.
  pose proof (Z.div_mod a 256 ltac:(lia)).
  pose proof (Z.div_mod (a / 256) 256 ltac:(lia)).
  pose proof (Z.div_mod (a / 256 / 256) 256 ltac:(lia)).
  assert (a / 256 / 256 / 256 < 256).
  { repeat (apply Z.div_lt_upper_bound; [lia|]). lia. }
  assert (0 <= a / 256 / 256 / 256) by (repeat apply Z.div_pos; lia).
  rewrite (Z.mod_small (a / 256 / 256 / 256)) by lia.
  lia.
Qed.

Lemma le_bytes_inj (a b : Z) :
  0 <= a < 2 ^ 32 -> 0 <= b < 2 ^ 32 -> le_bytes a = le_bytes b -> a = b.
Proof.
  intros Ha Hb H.
  rewrite (le_bytes_value a Ha), (le_bytes_value b Hb).
  unfold le_bytes in H. injection H as -> -> -> ->. reflexivity.
Qed.

(** Unfolding of the encoder once the exponent is known. *)
Lemma float32_bits_small (n e : Z) :
  0 <= e <= 23 -> 2 ^ e <= n < 2 ^ (e + 1) ->
  float32_bits_nonneg n = (127 + e) * 2 ^ 23 + (n * 2 ^ (23 - e) - 2 ^ 23).
Proof.
  intros He Hn. unfold float32_bits_nonneg.
  assert (0 < 2 ^ e) by (apply Z.pow_pos_nonneg; lia).
  assert (Z.log2 n = e) as -> by (apply Z.log2_unique; lia).
  destruct (n =? 0) eqn:E; [lia|].
  destruct (e <=? 23) eqn:E'; [reflexivity | lia].
Qed.

Lemma float32_bits_large (n e : Z) :
  23 < e -> 2 ^ e <= n < 2 ^ (e + 1) ->
  exists q', (q' = n / 2 ^ (e - 23) \/ q' = n / 2 ^ (e - 23) + 1) /\
    (q' = n / 2 ^ (e - 23) + 1 -> 2 ^ (e - 23 - 1) <= n mod 2 ^ (e - 23)) /\
    (q' = n / 2 ^ (e - 23) -> n mod 2 ^ (e - 23) <= 2 ^ (e - 23 - 1)) /\
    float32_bits_nonneg n =
      if 2139095040 <=? (127 + e) * 2 ^ 23 + (q' - 2 ^ 23) then 2139095040
      else (127 + e) * 2 ^ 23 + (q' - 2 ^ 23).
Proof.
  intros He Hn. unfold float32_bits_nonneg.
  assert (0 < 2 ^ e) by (apply Z.pow_pos_nonneg; lia).
  assert (Z.log2 n = e) as -> by (apply Z.log2_unique; lia).
  destruct (n =? 0) eqn:E; [lia|].
  destruct (e <=? 23) eqn:E'; [lia|].
  cbv zeta. rewrite Z.shiftr_div_pow2 by lia.
  destruct ((2 ^ (e - 23 - 1) <? n mod 2 ^ (e - 23))
            || ((n mod 2 ^ (e - 23) =? 2 ^ (e - 23 - 1)) && Z.odd (n / 2 ^ (e - 23)))) eqn:Eup.
  - exists (n / 2 ^ (e - 23) + 1).
    split; [lia|]. split; [|split; [lia|reflexivity]].
    intros _. apply orb_true_iff in Eup. destruct Eup as [Eup|Eup].
    + lia.
    + apply andb_true_iff in Eup. lia.
  - exists (n / 2 ^ (e - 23)).
    split; [lia|]. split; [lia|]. split; [|reflexivity].
    intros _. apply orb_false_iff in Eup. lia.
Qed.

Lemma log2_cases n : 0 < n < 2^32 ->
  exists e, 0 <= e <= 31 /\ 2^e <= n < 2^(e+1).
Proof.
  intros H. exists (Z.log2 n).
  pose proof (Z.log2_spec n ltac:(lia)) as Hs.
  assert (Z.log2 n < 32) by (apply Z.log2_lt_pow2; lia).
  pose proof (Z.log2_nonneg n).
  replace (Z.succ (Z.log2 n)) with (Z.log2 n + 1) in Hs by lia.
  lia.
Qed.

Lemma float32_bits_range n : 0 <= n -> 0 <= float32_bits_nonneg n <= 2139095040.
Proof.
  intros Hn. unfold float32_bits_nonneg.
  destruct (n =? 0) eqn:E0; [lia|].
  assert (0 < n) by lia.
  pose proof (Z.log2_spec n ltac:(lia)) as Hs.
  pose proof (Z.log2_nonneg n).
  set (e := Z.log2 n) in *.
  destruct (e <=? 23) eqn:E.
  - assert (e <= 23) by lia. split.
    + assert (2 ^ 23 <= n * 2 ^ (23 - e)).
      { replace 23 with (e + (23 - e)) at 1 by lia. rewrite Z.pow_add_r by lia.
        apply Z.mul_le_mono_nonneg_r; [apply Z.pow_nonneg|]; lia. }
      nia.
    + assert (n * 2 ^ (23 - e) < 2 ^ 24).
      { replace 24 with (Z.succ e + (23 - e)) by lia. rewrite Z.pow_add_r by lia.
        apply Z.mul_lt_mono_pos_r; [apply Z.pow_pos_nonneg|]; lia. }
      change (2^23) with 8388608 in *. change (2 ^ 24) with 16777216 in *. lia.
  - cbv zeta. match goal with |- context [2139095040 <=? ?b] => destruct (2139095040 <=? b) eqn:Eb end; [lia|].
    split; [|lia].
    assert (2 ^ 23 <= Z.shiftr n (e - 23)).
    { rewrite Z.shiftr_div_pow2 by lia. apply Z.div_le_lower_bound.
      - apply Z.pow_pos_nonneg; lia.
      - rewrite <- Z.pow_add_r by lia. replace (e - 23 + 23) with e by lia. lia. }
    destruct (_ || _); nia.
Qed.

Lemma float32_fixed_points n :
  0 <= n < 2 ^ 32 -> (float32_bits_nonneg n = n <-> n = 0 \/ n = 1318926965).
Proof.
  intros Hn. split.
  2:{ intros [-> | ->]; vm_compute; reflexivity. }
  intros Hfix.
  destruct (Z.eq_dec n 0) as [|Hnz]; [now left|]. right.
  destruct (log2_cases n ltac:(lia)) as (e & He & Hb).
  destruct (Z_le_gt_dec e 23) as [Hs|Hl].
  - exfalso. rewrite (float32_bits_small n e) in Hfix by lia.
    assert (2 ^ 23 <= n * 2 ^ (23 - e)).
    { replace 23 with (e + (23 - e)) at 1 by lia. rewrite Z.pow_add_r by lia.
      apply Z.mul_le_mono_nonneg_r; [apply Z.pow_nonneg|]; lia. }
    assert (n < 2 ^ 24).
    { eapply Z.lt_le_trans; [apply Hb|]. apply Z.pow_le_mono_r; lia. }
    change (2^23) with 8388608 in *. change (2 ^ 24) with 16777216 in *. nia.
  - destruct (float32_bits_large n e ltac:(lia) Hb) as (q' & Hq & Hup & Hdown & Heq).
    rewrite Heq in Hfix. clear Heq.
    assert (0 < 2 ^ (e - 23)) by (apply Z.pow_pos_nonneg; lia).
    pose proof (Z.div_mod n (2 ^ (e - 23)) ltac:(lia)) as Hdm.
    pose proof (Z.mod_pos_bound n (2 ^ (e - 23)) ltac:(lia)) as Hmb.
    revert Hfix Hq Hup Hdown Hdm Hmb Hb.
    generalize (n / 2 ^ (e - 23)) (n mod 2 ^ (e - 23)). intros q r.
    assert (Hc : e = 24 \/ e = 25 \/ e = 26 \/ e = 27 \/ e = 28 \/ e = 29 \/ e = 30 \/ e = 31) by lia.
    repeat (destruct Hc as [Hc | Hc]; [subst e | ]); [ .. | subst e];
    (repeat match goal with
       | |- context [2 ^ ?c] =>
           let v := eval vm_compute in (2 ^ c) in change (2 ^ c) with v
       end);
    intros; destruct (2139095040 <=? _) eqn:Ebig; lia.
Qed.

Lemma ToUint32_small (x : Z) : 0 <= x < 2 ^ 32 -> ToUint32 x = x.
Proof. intros H. unfold ToUint32. apply Z.mod_small. exact H. Qed.

Lemma float32_bits_nonneg_eq (x : Z) : 0 <= x -> float32_bits x = float32_bits_nonneg x.
Proof. intros H. unfold float32_bits. destruct (x <? 0) eqn:E; [lia | reflexivity]. Qed.

Lemma float32_bits_lt (x : Z) : 0 <= x -> 0 <= float32_bits x < 2 ^ 32.
Proof.
  intros H. rewrite float32_bits_nonneg_eq by exact H.
  pose proof (float32_bits_range x H). change (2 ^ 32) with 4294967296. lia.
Qed.

(** One field: the two layouts agree exactly when the words agree. *)
Lemma field_bytes_eq (x : Z) :
  0 <= x < 2 ^ 32 ->
  Float32Array [x] = Uint32Array [x] <-> float32_bits_nonneg x = x.
Proof.
  intros Hx. unfold Float32Array, Uint32Array. cbn [flat_map].
  rewrite !app_nil_r, ToUint32_small, float32_bits_nonneg_eq by lia.
  split.
  - intros H. apply le_bytes_inj in H; trivial.
    rewrite <- float32_bits_nonneg_eq by lia. apply float32_bits_lt. lia.
  - intros ->. reflexivity.
Qed.

(** *** What the two layouts keep of a value *)

(** The pattern of a positive integer below 2^24: exponent field and
    fraction field, the fraction exact. *)
Lemma float32_bits_exact (n : Z) :
  0 < n < 2 ^ 24 ->
  exists e m, 0 <= e <= 23 /\ 0 <= m < 2 ^ 23 /\
              float32_bits n = (127 + e) * 2 ^ 23 + m /\
              n * 2 ^ (23 - e) = 2 ^ 23 + m.
Proof.
  intros Hn.
  assert (Hlog : 0 <= Z.log2 n <= 23).
  { split; [apply Z.log2_nonneg|].
    assert (Z.log2 n < 24) by (apply Z.log2_lt_pow2; lia). lia. }
  pose proof (Z.log2_spec n ltac:(lia)) as Hs.
  replace (Z.succ (Z.log2 n)) with (Z.log2 n + 1) in Hs by lia.
  set (e := Z.log2 n) in *.
  exists e, (n * 2 ^ (23 - e) - 2 ^ 23).
  assert (Hp : 0 < 2 ^ (23 - e)) by (apply Z.pow_pos_nonneg; lia).
  assert (Hlo : 2 ^ 23 <= n * 2 ^ (23 - e)).
  { replace 23 with (e + (23 - e)) at 1 by lia. rewrite Z.pow_add_r by lia.
    apply Z.mul_le_mono_nonneg_r; lia. }
  assert (Hhi : n * 2 ^ (23 - e) < 2 ^ 24).
  { replace 24 with ((e + 1) + (23 - e)) by lia. rewrite Z.pow_add_r by lia.
    apply Z.mul_lt_mono_pos_r; lia. }
  change (2 ^ 24) with (2 * 2 ^ 23) in Hhi.
  split; [exact Hlog|]. split; [lia|]. split; [|lia].
  rewrite float32_bits_nonneg_eq by lia.
  rewrite (float32_bits_small n e) by lia. reflexivity.
Qed.

(** X1.  Each layout keeps a value exactly on its range and not beyond.
    Two values from 0 to 2^24 get the same Float32Array bytes only if they
    are equal, while 2^24 + 1 gets the bytes of 2^24; two values below 2^32
    get the same Uint32Array bytes only if they are equal, while 2^32 gets
    the bytes of 0. *)
Theorem layouts_exact_on_their_range :
  (forall a b, 0 <= a <= 2 ^ 24 -> 0 <= b <= 2 ^ 24 ->
               Float32Array [a] = Float32Array [b] -> a = b) /\
  Float32Array [2 ^ 24 + 1] = Float32Array [2 ^ 24] /\
  (forall a b, 0 <= a < 2 ^ 32 -> 0 <= b < 2 ^ 32 ->
               Uint32Array [a] = Uint32Array [b] -> a = b) /\
  Uint32Array [2 ^ 32] = Uint32Array [0].
Proof.
  split; [|split; [vm_compute; reflexivity|split; [|vm_compute; reflexivity]]].
  - assert (Hbits : forall a b, 0 <= a <= 2 ^ 24 -> 0 <= b <= 2 ^ 24 ->
                                float32_bits a = float32_bits b -> a = b).
    { assert (Htop : float32_bits (2 ^ 24) = 151 * 2 ^ 23) by (vm_compute; reflexivity).
      assert (Hzero : float32_bits 0 = 0) by reflexivity.
      assert (Hmid : forall n, 0 < n < 2 ^ 24 ->
                               127 * 2 ^ 23 <= float32_bits n < 151 * 2 ^ 23).
      { intros n Hn. destruct (float32_bits_exact n Hn) as (e & m & He & Hm & -> & _).
        change (2 ^ 23) with 8388608 in *. lia. }
      intros a b Ha Hb E.
      destruct (Z.eq_dec a 0) as [->|Ha0].
      { destruct (Z.eq_dec b 0) as [->|Hb0]; [reflexivity|]. exfalso.
        destruct (Z.eq_dec b (2 ^ 24)) as [->|Hbt].
        - rewrite Htop, Hzero in E. discriminate.
        - specialize (Hmid b ltac:(lia)). rewrite <- E, Hzero in Hmid.
          change (2 ^ 23) with 8388608 in Hmid. lia. }
      destruct (Z.eq_dec a (2 ^ 24)) as [->|Hat].
      { destruct (Z.eq_dec b (2 ^ 24)) as [->|Hbt]; [reflexivity|]. exfalso.
        destruct (Z.eq_dec b 0) as [->|Hb0].
        - rewrite Htop, Hzero in E. discriminate.
        - specialize (Hmid b ltac:(lia)). rewrite <- E, Htop in Hmid. lia. }
      destruct (Z.eq_dec b 0) as [->|Hb0].
      { exfalso. specialize (Hmid a ltac:(lia)). rewrite E, Hzero in Hmid.
        change (2 ^ 23) with 8388608 in Hmid. lia. }
      destruct (Z.eq_dec b (2 ^ 24)) as [->|Hbt].
      { exfalso. specialize (Hmid a ltac:(lia)). rewrite E, Htop in Hmid. lia. }
      destruct (float32_bits_exact a ltac:(lia)) as (e & m & He & Hm & Ea & Hma).
      destruct (float32_bits_exact b ltac:(lia)) as (e' & m' & He' & Hm' & Eb & Hmb).
      rewrite Ea, Eb in E.
      assert (e = e' /\ m = m') as [<- <-].
      { change (2 ^ 23) with 8388608 in *. lia. }
      assert (Hp : 2 ^ (23 - e) <> 0)
        by (apply Z.pow_nonzero; lia).
      apply (Z.mul_cancel_r a b (2 ^ (23 - e)) Hp). lia. }
    intros a b Ha Hb E. apply Hbits; try assumption.
    unfold Float32Array in E. cbn [flat_map] in E. rewrite !app_nil_r in E.
    pose proof (float32_bits_lt a ltac:(lia)).
    pose proof (float32_bits_lt b ltac:(lia)).
    apply le_bytes_inj in E; assumption.
  - intros a b Ha Hb E.
    unfold Uint32Array in E. cbn [flat_map] in E. rewrite !app_nil_r in E.
    rewrite !ToUint32_small in E by assumption.
    apply le_bytes_inj in E; assumption.
Qed.

Lemma layouts_exact_on_their_range_witness :
  Float32Array [1920] <> Float32Array [1080] /\
  Uint32Array [1920] <> Uint32Array [1080].
Proof.
  destruct layouts_exact_on_their_range as (Hf & _ & Hu & _).
  split; intros E.
  - assert (H : 1920 = 1080); [|discriminate H].
    apply Hf; [vm_compute; split; discriminate .. | exact E].
  - assert (H : 1920 = 1080); [|discriminate H].
    apply Hu; [vm_compute; split; [discriminate | reflexivity] .. | exact E].
Defined.

End TypedArraysFacts.

(* --------------------------------------------------------------------- *)
(** ** Ordering of tree construction, bind groups and render passes       *)
(* --------------------------------------------------------------------- *)

Module ScriptFacts.
Import TypedArrays Demo Script.
Open Scope Z_scope.

(** part_002 at load: the tree, the bind group, one pass. *)
Example trace_part_002 :
  map (fun c => match c with
                | BuildBspTree _ => 1 | CreateBindGroup _ => 2
                | WriteUniformsUI _ => 3 | RenderPass _ _ => 4
                | RequestAnimationFrame => 5
                end)
      (trace (builds_tree part_002) {| width := 512; height := 512 |} [])
  = [1; 2; 4].
Proof. reflexivity. Qed.

(** part_007 at load and after one animation frame. *)
Example trace_part_007 :
  map (fun c => match c with
                | BuildBspTree _ => 1 | CreateBindGroup _ => 2
                | WriteUniformsUI _ => 3 | RenderPass _ _ => 4
                | RequestAnimationFrame => 5
                end)
      (trace (builds_tree part_007) {| width := 512; height := 512 |}
             [animation_frame])
  = [3; 1; 2; 4; 3; 5; 4; 3; 5].
Proof. vm_compute. reflexivity. Qed.

Lemma ready_weaken (c : call) (older : list call) (bg : option GPUBindGroup) :
  ready older bg -> ready (c :: older) bg.
Proof.
  intros (Hb & Hf & g & -> & Hin). split; [|split].
  - cbn [existsb]. rewrite Hb. apply orb_true_r.
  - exact Hf.
  - exists g. split; [reflexivity | now right].
Qed.

Lemma createBindGroup_bound (v : variant) (n : nat) :
  flattened_buffers_bound
    (Some (createBindGroup v
             (fst (build_bsp_tree v
                     (fold_left (fun acc f => createBuffer_into f acc)
                                (own_fields v) (null_buffers, n)))))) = true.
Proof. destruct v; reflexivity. Qed.

Lemma onReadComplete_log (v : variant) (s : state) :
  log (snd (onReadComplete v s))
  = CreateBindGroup (fst (onReadComplete v s)) :: BuildBspTree (tree_fields v) :: log s.
Proof. reflexivity. Qed.

Lemma onReadComplete_ready (v : variant) (s : state) :
  ready (log (snd (onReadComplete v s))) (Some (fst (onReadComplete v s))).
Proof.
  rewrite onReadComplete_log. split; [|split].
  - reflexivity.
  - apply createBindGroup_bound.
  - eexists. split; [reflexivity | now left].
Qed.

Lemma animate_inv (v : variant) (cv : canvas) (s : state) :
  inv v s -> inv v (animate v cv s).
Proof.
  intros [Hd Hb]. unfold animate.
  destruct (animate_rebuilds v) eqn:Hr.
  - assert (Hrd := onReadComplete_ready v s).
    set (r := onReadComplete v s) in *.
    assert (Hd' : draws_ready (log (snd r))).
    { unfold r. rewrite onReadComplete_log. cbn. auto. }
    assert (Hs2 : inv v (render v (assign_bindGroup r))).
    { split; [|intros; congruence]. cbn. split; [exact Hrd | exact Hd']. }
    destruct (progressive v && progressing (render v (assign_bindGroup r))).
    + destruct Hs2 as [Hs2 _]. split; [|intros; congruence]. cbn. cbn in Hs2. tauto.
    + exact Hs2.
  - specialize (Hb eq_refl).
    assert (Hs2 : inv v (render v s)).
    { split; [cbn; auto|]. intros _. cbn. apply ready_weaken. exact Hb. }
    destruct (progressive v && progressing (render v s)).
    + destruct Hs2 as [Hs2 Hb2]. split.
      * cbn. cbn in Hs2. tauto.
      * intros _. cbn. do 3 apply ready_weaken. exact Hb.
    + exact Hs2.
Qed.

Lemma main_inv (v : variant) (cv : canvas) : inv v (main v cv).
Proof.
  unfold main. apply animate_inv.
  destruct (animate_rebuilds v) eqn:Hr.
  - split; [|intros; congruence]. destruct (progressive v); cbn; auto.
  - set (s1 := if progressive v then _ else _).
    assert (Hd : draws_ready (log s1)) by (unfold s1; destruct (progressive v); cbn; auto).
    split.
    + cbn. auto.
    + intros _. apply (onReadComplete_ready v s1).
Qed.

Lemma handle_inv (v : variant) (cv : canvas) (s : state) (e : event) :
  inv v s -> inv v (handle v cv s e).
Proof.
  intros H. destruct e; cbn [handle].
  - destruct (progressive v); [|exact H].
    destruct (negb (progressing s)); [apply animate_inv|]; exact H.
  - destruct (scheduled s); [exact H|]. apply animate_inv. exact H.
  - destruct v; try exact H. apply animate_inv. exact H.
Qed.

Lemma run_inv (v : variant) (cv : canvas) (es : list event) : inv v (run v cv es).
Proof.
  unfold run. generalize (main_inv v cv). generalize (main v cv).
  induction es as [|e es IH]; intros s Hs; cbn [fold_left]; [exact Hs|].
  apply IH, handle_inv, Hs.
Qed.

Lemma draws_ready_split (newer older : list call) (acc : option loadOp)
      (bg : option GPUBindGroup) :
  draws_ready (newer ++ RenderPass acc bg :: older) -> ready older bg.
Proof.
  induction newer as [|c newer IH]; cbn; intros [H1 H2]; [exact H1 | auto].
Qed.

Lemma omap_rev {A B : Type} (f : A -> option B) (l : list A) :
  omap f (rev l) = rev (omap f l).
Proof.
  induction l as [|a l IH]; [reflexivity|].
  cbn [rev]. rewrite omap_app, IH. cbn.
  destruct (f a); [reflexivity | now rewrite app_nil_r].
Qed.

Lemma rev_repeat {A : Type} (x : A) (k : nat) : rev (repeat x k) = repeat x k.
Proof.
  induction k as [|k IH]; [reflexivity|].
  cbn [repeat rev]. rewrite IH. symmetry. apply repeat_cons.
Qed.

Lemma increment_ge (f : Z) : f <= increment f.
Proof. unfold increment. destruct (f <? 2 ^ 53); lia. Qed.

Lemma increment_pos (f : Z) : 0 <= f -> 1 <= increment f.
Proof.
  unfold increment. destruct (f <? 2 ^ 53) eqn:E; [lia|].
  apply Z.ltb_ge in E. change (2 ^ 53) with 9007199254740992 in E. lia.
Qed.

Lemma onReadComplete_frame (v : variant) (s : state) :
  frame (snd (onReadComplete v s)) = frame s.
Proof. reflexivity. Qed.

Lemma animate_frame_ge (v : variant) (cv : canvas) (s : state) :
  frame s <= frame (animate v cv s).
Proof.
  unfold animate.
  destruct (animate_rebuilds v);
    match goal with |- context [if ?b then _ else _] => destruct b end;
    cbn; try apply increment_ge; lia.
Qed.

Lemma handle_frame_ge (v : variant) (cv : canvas) (s : state) (e : event) :
  frame s <= frame (handle v cv s e).
Proof.
  destruct e; cbn [handle].
  - destruct (progressive v); [|lia].
    destruct (negb (progressing s)); [|cbn; lia].
    etransitivity; [|apply animate_frame_ge]. cbn. lia.
  - destruct (scheduled s); [lia|].
    etransitivity; [|apply animate_frame_ge]. cbn. lia.
  - destruct v; try lia. apply animate_frame_ge.
Qed.

Lemma animate_progressing_inv (v : variant) (cv : canvas) (s : state) :
  progressive v = true ->
  (frame s = 0 /\ progressing s = true /\ accumulation_loadOps (log s) = [] /\
   uniformsUI_writes (log s) = [Float32Array [width cv; height cv; 0]])
  \/ progressing_inv cv s ->
  progressing_inv cv (animate v cv s).
Proof.
  intros Hp H. unfold animate.
  set (s1 := if animate_rebuilds v then _ else _).
  assert (H1 : frame s1 = frame s /\ progressing s1 = progressing s /\
               accumulation_loadOps (log s1) = accumulation_loadOps (log s) /\
               uniformsUI_writes (log s1) = uniformsUI_writes (log s)).
  { unfold s1. destruct (animate_rebuilds v); cbn; auto. }
  destruct H1 as (Hf & Hpr & Ha & Hu). clearbody s1.
  unfold render. rewrite Hp. cbn [emit progressing andb frame log].
  unfold progressing_inv.
  assert (Hacc_cons : forall op bg l,
             accumulation_loadOps (RenderPass (Some op) bg :: l)
             = op :: accumulation_loadOps l) by reflexivity.
  assert (Hacc_skip1 : forall l, accumulation_loadOps (RequestAnimationFrame :: l)
                                 = accumulation_loadOps l) by reflexivity.
  assert (Hacc_skip2 : forall b l, accumulation_loadOps (WriteUniformsUI b :: l)
                                   = accumulation_loadOps l) by reflexivity.
  assert (Hui_cons : forall b l, uniformsUI_writes (WriteUniformsUI b :: l)
                                 = b :: uniformsUI_writes l) by reflexivity.
  assert (Hui_skip1 : forall l, uniformsUI_writes (RequestAnimationFrame :: l)
                                = uniformsUI_writes l) by reflexivity.
  assert (Hui_skip2 : forall a bg l, uniformsUI_writes (RenderPass a bg :: l)
                                     = uniformsUI_writes l) by reflexivity.
  destruct H as [(H0 & Hon & Hacc & Hui) | (Hge & (k & Hacc) & (fs & Hfs & Hui))].
  - rewrite Hpr, Hon, Hf, H0. cbn [Z.eqb frame log emit].
    rewrite Hacc_skip1, Hacc_skip2, Hacc_cons, Hui_skip1, Hui_cons, Hui_skip2.
    rewrite Ha, Hacc, Hu, Hui.
    split; [apply increment_pos; lia|]. split.
    + exists 0%nat. reflexivity.
    + exists [increment 0]. split; [|reflexivity].
      constructor; [apply increment_pos; lia | constructor].
  - assert ((frame s1 =? 0) = false) as -> by (apply Z.eqb_neq; lia).
    destruct (progressing s1); cbn [frame log emit].
    + rewrite Hacc_skip1, Hacc_skip2, Hacc_cons, Hui_skip1, Hui_cons, Hui_skip2.
      rewrite Ha, Hacc, Hu, Hui.
      split; [apply increment_pos; lia|]. split.
      * exists (S k). reflexivity.
      * exists (increment (frame s1) :: fs). split; [|reflexivity].
        constructor; [apply increment_pos; lia | exact Hfs].
    + rewrite Hacc_cons, Hui_skip2, Ha, Hacc, Hu, Hui.
      split; [lia|]. split.
      * exists (S k). reflexivity.
      * exists fs. split; [exact Hfs | reflexivity].
Qed.

Lemma main_progressing_inv (v : variant) (cv : canvas) :
  progressive v = true -> progressing_inv cv (main v cv).
Proof.
  intros Hp. unfold main. apply animate_progressing_inv; [exact Hp|]. left.
  rewrite Hp. destruct (animate_rebuilds v); cbn; auto.
Qed.

Lemma handle_progressing_inv (v : variant) (cv : canvas) (s : state) (e : event) :
  progressive v = true -> progressing_inv cv s -> progressing_inv cv (handle v cv s e).
Proof.
  intros Hp H. destruct e; cbn [handle].
  - rewrite Hp. destruct (negb (progressing s)); [|exact H].
    apply animate_progressing_inv; [exact Hp|]. right. exact H.
  - destruct (scheduled s); [exact H|].
    apply animate_progressing_inv; [exact Hp|]. right. exact H.
  - destruct v; try exact H; discriminate.
Qed.

Lemma run_progressing_inv (v : variant) (cv : canvas) (es : list event) :
  progressive v = true -> progressing_inv cv (run v cv es).
Proof.
  intros Hp. unfold run. generalize (main_progressing_inv v cv Hp).
  generalize (main v cv).
  induction es as [|e es IH]; intros s Hs; cbn [fold_left]; [exact Hs|].
  apply IH, handle_progressing_inv; assumption.
Qed.

(** w05p04.js constructs no tree: it draws its mesh on the first animation
    frame from a bind group of mesh buffers only.  The ordering theorem
    below is about the scripts that call [build_bsp_tree]. *)
Example w05p04_first_frame :
  trace w05p04 {| width := 512; height := 512 |} [animation_frame]
  = [ CreateBindGroup w05p04_bindGroup; RequestAnimationFrame;
      RenderPass None (Some w05p04_bindGroup); RequestAnimationFrame ] /\
  existsb is_build [CreateBindGroup w05p04_bindGroup; RequestAnimationFrame] = false /\
  flattened_buffers_bound (Some w05p04_bindGroup) = false.
Proof. repeat split. Qed.

(** C7.  In every demo that constructs a tree, whatever the user does, the
    [build_bsp_tree] call has run to completion before the first render
    pass, and before every later one: each pass (its [draw(4)] included)
    comes after a completed [build_bsp_tree] call and uses a bind group,
    created before the pass, in which the root AABB, the leaf-triangle-id
    array, the node array and the plane array are all bound to existing
    buffers.  No draw call is issued before the flattened buffers exist and
    are bound. *)
Theorem tree_built_before_every_draw
        (v : variant) (cv : canvas) (es : list event)
        (pre post : list call) (acc : option loadOp) (bg : option GPUBindGroup) :
  trace (builds_tree v) cv es = pre ++ RenderPass acc bg :: post ->
  existsb is_build pre = true /\
  flattened_buffers_bound bg = true /\
  exists g, bg = Some g /\ In (CreateBindGroup g) pre.
Proof.
  cbn [trace]. intros H. unfold history in H.
  apply (f_equal (@rev call)) in H.
  rewrite rev_involutive, rev_app_distr in H. cbn [rev] in H.
  rewrite <- app_assoc in H. cbn [app] in H.
  pose proof (run_inv v cv es) as [Hd _]. rewrite H in Hd.
  apply draws_ready_split in Hd. destruct Hd as (Hb & Hf & g & -> & Hin).
  split; [|split].
  - apply existsb_exists. apply existsb_exists in Hb. destruct Hb as (c & Hc & Hbc).
    exists c. split; [|exact Hbc]. apply in_rev. exact Hc.
  - exact Hf.
  - exists g. split; [reflexivity|]. apply in_rev. exact Hin.
Qed.

Lemma tree_built_before_every_draw_witness :
  exists pre acc bg post,
    trace (builds_tree w07p01) {| width := 512; height := 512 |} [animation_frame]
    = pre ++ RenderPass acc bg :: post /\
    length pre = 8%nat /\
    existsb is_build pre = true /\ flattened_buffers_bound bg = true.
Proof.
  set (h := trace (builds_tree w07p01) {| width := 512; height := 512 |}
                  [animation_frame]).
  assert (E : h = firstn 8 h
                  ++ RenderPass (Some load)
                       (bindGroup (run w07p01 {| width := 512; height := 512 |}
                                       [animation_frame]))
                  :: skipn 9 h) by (vm_compute; reflexivity).
  eexists _, _, _, _. split; [exact E|]. split; [reflexivity|].
  destruct (tree_built_before_every_draw _ _ _ _ _ _ _ E) as (H1 & H2 & _).
  split; assumption.
Defined.

(** C8. In the progressive scripts the accumulation attachment is cleared
    exactly when [frame] is 0; no event ever lowers [frame]; and in every
    run the passes on the accumulation texture are one clearing pass, the
    very first, followed by loading passes only. *)
Theorem accumulation_cleared_once (v : variant) (cv : canvas) :
  progressive v = true ->
  (forall s op bg,
      log (render v s) = RenderPass (Some op) bg :: log s ->
      (op = clear <-> frame s = 0)) /\
  (forall s e, frame s <= frame (handle v cv s e)) /\
  (forall es, exists k,
      accumulation_loadOps (history (run v cv es)) = clear :: repeat load k).
Proof.
  intros Hp. split; [|split].
  - intros s op bg H. unfold render in H. rewrite Hp in H. cbn in H.
    injection H as Hop _. subst op.
    destruct (frame s =? 0) eqn:E.
    + apply Z.eqb_eq in E. tauto.
    + apply Z.eqb_neq in E. split; [discriminate | tauto].
  - intros s e. apply handle_frame_ge.
  - intros es. destruct (run_progressing_inv v cv es Hp) as (_ & (k & Hk) & _).
    exists k. unfold history, accumulation_loadOps in *.
    rewrite omap_rev, Hk, rev_app_distr, rev_repeat. reflexivity.
Qed.

Lemma accumulation_cleared_once_witness :
  progressive part_007 = true /\
  exists k,
    accumulation_loadOps
      (history (run part_007 {| width := 512; height := 512 |}
                    [animation_frame; click_Progressive; animation_frame;
                     click_Progressive; animation_frame]))
    = clear :: repeat load k.
Proof.
  split; [reflexivity|].
  apply (accumulation_cleared_once part_007 {| width := 512; height := 512 |} eq_refl).
Defined.

(** C10 as stated fails: 1318926965 is positive and its Float32Array bytes
    are its Uint32Array bytes, so a canvas of that width and height gets the
    same eight bytes for its dimensions from the initial float write and
    from every later integer write. *)
Lemma uniformsUI_encodings_counterexample :
  0 < float32_fixed_point < 2 ^ 31 /\
  Float32Array [float32_fixed_point] = Uint32Array [float32_fixed_point] /\
  Float32Array [float32_fixed_point; float32_fixed_point]
  = Uint32Array [float32_fixed_point; float32_fixed_point] /\
  ~ (forall x, 0 <= x < 2 ^ 32 -> Float32Array [x] = Uint32Array [x] -> x = 0).
Proof.
  split; [vm_compute; split; reflexivity|].
  split; [vm_compute; reflexivity|].
  split; [vm_compute; reflexivity|].
  intros H. specialize (H float32_fixed_point).
  assert (float32_fixed_point = 0); [|discriminate].
  apply H; vm_compute; [split; [discriminate | reflexivity] | reflexivity].
Qed.

(** C10, amended.  In a progressive script the first write to the UI uniform
    buffer is the Float32Array of (width, height, 0) and every later one is
    the Uint32Array of (width, height, frame) with [frame >= 1].  For a
    field value below 2^32 the two layouts give the same bytes exactly when
    the value is 0 or 1318926965; so for canvas dimensions below 2^32, one of
    them positive and other than 1318926965, the initial bytes differ from
    every integer encoding of the same dimensions. *)
Theorem uniformsUI_encodings (v : variant) (cv : canvas) :
  progressive v = true ->
  (forall es, exists fs,
      Forall (fun f => 1 <= f) fs /\
      uniformsUI_writes (history (run v cv es))
      = Float32Array [width cv; height cv; 0]
        :: map (fun f => Uint32Array [width cv; height cv; f]) fs) /\
  (forall x, 0 <= x < 2 ^ 32 ->
      (Float32Array [x] = Uint32Array [x] <-> x = 0 \/ x = float32_fixed_point)) /\
  (0 <= width cv < 2 ^ 32 -> 0 <= height cv < 2 ^ 32 ->
   (0 < width cv /\ width cv <> float32_fixed_point) \/
   (0 < height cv /\ height cv <> float32_fixed_point) ->
   forall f, Float32Array [width cv; height cv; 0]
             <> Uint32Array [width cv; height cv; f]).
Proof.
  intros Hp. split; [|split].
  - intros es. destruct (run_progressing_inv v cv es Hp) as (_ & _ & fs & Hfs & Hui).
    exists (rev fs). split.
    + apply Forall_forall. intros x Hx. apply in_rev in Hx.
      rewrite Forall_forall in Hfs. apply Hfs. exact Hx.
    + unfold history, uniformsUI_writes in *.
      rewrite omap_rev, Hui, rev_app_distr, map_rev. reflexivity.
  - intros x Hx. rewrite TypedArraysFacts.field_bytes_eq by exact Hx.
    apply TypedArraysFacts.float32_fixed_points. exact Hx.
  - intros Hw Hh Hd f Heq.
    unfold Float32Array, Uint32Array in Heq. cbn [flat_map] in Heq.
    assert (Hlen : forall w, length (le_bytes w) = 4%nat) by reflexivity.
    apply app_inj_1 in Heq; [|rewrite !Hlen; reflexivity].
    destruct Heq as [Ew Heq].
    apply app_inj_1 in Heq; [|rewrite !Hlen; reflexivity].
    destruct Heq as [Eh _].
    assert (Fw : Float32Array [width cv] = Uint32Array [width cv]).
    { unfold Float32Array, Uint32Array. cbn [flat_map]. now rewrite Ew. }
    assert (Fh : Float32Array [height cv] = Uint32Array [height cv]).
    { unfold Float32Array, Uint32Array. cbn [flat_map]. now rewrite Eh. }
    rewrite TypedArraysFacts.field_bytes_eq in Fw, Fh by assumption.
    apply TypedArraysFacts.float32_fixed_points in Fw, Fh; try assumption.
    unfold float32_fixed_point in Hd. lia.
Qed.

Lemma uniformsUI_encodings_witness :
  uniformsUI_writes
    (history (run part_007 {| width := 512; height := 512 |} [animation_frame]))
  = [ Float32Array [512; 512; 0]; Uint32Array [512; 512; 1]; Uint32Array [512; 512; 2] ]
  /\ Float32Array [512; 512; 0] <> Uint32Array [512; 512; 1]
  /\ (Float32Array [512] = Uint32Array [512] <-> 512 = 0 \/ 512 = float32_fixed_point).
Proof.
  destruct (uniformsUI_encodings part_007 {| width := 512; height := 512 |} eq_refl)
    as (_ & Hfield & Hdiff).
  split; [vm_compute; reflexivity|]. split.
  - apply (Hdiff ltac:(cbn; lia) ltac:(cbn; lia)).
    left. cbn. unfold float32_fixed_point. lia.
  - apply Hfield. lia.
Defined.

(** *** What a run does besides ordering its calls *)

Lemma count_app (p : call -> bool) (l1 l2 : list call) :
  count p (l1 ++ l2) = (count p l1 + count p l2)%nat.
Proof. unfold count. now rewrite List.filter_app, length_app. Qed.

Lemma count_rev (p : call -> bool) (l : list call) : count p (rev l) = count p l.
Proof.
  induction l as [|c l IH]; [reflexivity|].
  cbn [rev]. rewrite count_app, IH. unfold count. cbn [List.filter].
  destruct (p c); cbn [length]; lia.
Qed.

Lemma count_cons (p : call -> bool) (c : call) (l : list call) :
  count p (c :: l) = ((if p c then 1 else 0) + count p l)%nat.
Proof. unfold count. cbn [List.filter]. destruct (p c); reflexivity. Qed.

(** An invariant of [main] that every handler keeps holds after any run. *)
Lemma run_invariant (P : state -> Prop) (v : variant) (cv : canvas) :
  P (main v cv) -> (forall s e, P s -> P (handle v cv s e)) ->
  forall es, P (run v cv es).
Proof.
  intros H0 Hstep es. unfold run. revert H0. generalize (main v cv).
  induction es as [|e es IH]; intros s Hs; cbn [fold_left]; [exact Hs|].
  apply IH, Hstep, Hs.
Qed.

(** The calls [animate] adds to the log, newest first. *)
Lemma animate_log (v : variant) (cv : canvas) (s : state) :
  log (animate v cv s)
  = (if progressive v && progressing s
     then [RequestAnimationFrame;
           WriteUniformsUI (Uint32Array [width cv; height cv; increment (frame s)])]
     else [])
    ++ RenderPass (if progressive v
                   then Some (if frame s =? 0 then clear else load) else None)
                  (if animate_rebuilds v
                   then Some (fst (onReadComplete v s)) else bindGroup s)
    :: (if animate_rebuilds v
        then [CreateBindGroup (fst (onReadComplete v s)); BuildBspTree (tree_fields v)]
        else [])
    ++ log s.
Proof.
  unfold animate, render.
  destruct (animate_rebuilds v), (progressive v); cbn;
    destruct (progressing s); reflexivity.
Qed.

Lemma animate_fields (v : variant) (cv : canvas) (s : state) :
  progressing (animate v cv s) = progressing s /\
  frame (animate v cv s)
  = (if progressive v && progressing s then increment (frame s) else frame s) /\
  scheduled (animate v cv s)
  = (if progressive v && progressing s then S (scheduled s) else scheduled s).
Proof.
  unfold animate.
  set (s1 := if animate_rebuilds v then _ else _).
  assert (H1 : progressing s1 = progressing s /\ frame s1 = frame s /\
               scheduled s1 = scheduled s).
  { unfold s1. destruct (animate_rebuilds v); (split; [|split]); reflexivity. }
  destruct H1 as (Hp & Hf & Hs). clearbody s1.
  unfold render. cbn [emit progressing frame scheduled].
  rewrite Hp. destruct (progressive v && progressing s);
    cbn [emit progressing frame scheduled]; rewrite ?Hp, ?Hf, ?Hs; auto.
Qed.

Ltac count_calls :=
  rewrite ?count_app, ?count_cons;
  cbn [count List.filter length is_build is_create is_pass is_request
       Nat.add app].

Lemma animate_counts (v : variant) (cv : canvas) (s : state) :
  count is_build (log (animate v cv s))
  = ((if animate_rebuilds v then 1 else 0) + count is_build (log s))%nat /\
  count is_create (log (animate v cv s))
  = ((if animate_rebuilds v then 1 else 0) + count is_create (log s))%nat /\
  count is_pass (log (animate v cv s)) = S (count is_pass (log s)) /\
  count is_request (log (animate v cv s))
  = ((if progressive v && progressing s then 1 else 0) + count is_request (log s))%nat.
Proof.
  rewrite animate_log.
  destruct (progressive v && progressing s), (animate_rebuilds v);
    count_calls; auto.
Qed.

Lemma main_counts (v : variant) (cv : canvas) :
  count is_build (log (main v cv)) = 1%nat /\
  count is_create (log (main v cv)) = 1%nat /\
  count is_pass (log (main v cv)) = 1%nat.
Proof.
  unfold main.
  match goal with |- context [animate v cv ?s2] => set (s := s2) end.
  destruct (animate_counts v cv s) as (Hb & Hc & Hp & _).
  rewrite Hb, Hc, Hp.
  assert (H : count is_build (log s) = (if animate_rebuilds v then 0 else 1)%nat /\
              count is_create (log s) = (if animate_rebuilds v then 0 else 1)%nat /\
              count is_pass (log s) = 0%nat).
  { unfold s. destruct (animate_rebuilds v), (progressive v); cbn; auto. }
  destruct H as (-> & -> & ->). destruct (animate_rebuilds v); auto.
Qed.

(** X2.  A script that calls [onReadComplete] from [main] (part_007, both
    scripts of Project/source.js, the last two of w06p03.js) builds the tree
    and creates its bind group exactly once, whatever events follow.  A
    script that calls it from [animate] (part_002, w06p01.js, w07p01.js, the
    first script of w06p03.js) builds the tree and creates a bind group once
    for every render pass: in each run the three counts are equal. *)
Theorem tree_built_once_or_per_pass (v : variant) (cv : canvas) (es : list event) :
  count is_create (trace (builds_tree v) cv es)
  = count is_build (trace (builds_tree v) cv es) /\
  count is_build (trace (builds_tree v) cv es)
  = if animate_rebuilds v
    then count is_pass (trace (builds_tree v) cv es) else 1%nat.
Proof.
  cbn [trace]. unfold history. rewrite !count_rev.
  apply (run_invariant
           (fun s => count is_create (log s) = count is_build (log s) /\
                     count is_build (log s)
                     = if animate_rebuilds v then count is_pass (log s) else 1%nat)).
  - destruct (main_counts v cv) as (-> & -> & ->).
    destruct (animate_rebuilds v); auto.
  - assert (Hanimate : forall s,
               count is_create (log s) = count is_build (log s) /\
               count is_build (log s)
               = (if animate_rebuilds v then count is_pass (log s) else 1%nat) ->
               count is_create (log (animate v cv s))
               = count is_build (log (animate v cv s)) /\
               count is_build (log (animate v cv s))
               = if animate_rebuilds v
                 then count is_pass (log (animate v cv s)) else 1%nat).
    { intros s [Hc Hb]. destruct (animate_counts v cv s) as (-> & -> & -> & _).
      destruct (animate_rebuilds v); lia. }
    intros s e H. destruct e; cbn [handle].
    + destruct (progressive v); [|exact H].
      destruct (negb (progressing s)); [|exact H]. apply Hanimate. exact H.
    + destruct (scheduled s); [exact H|]. apply Hanimate. exact H.
    + destruct v; try exact H. apply Hanimate. exact H.
Qed.

(** A script without an accumulation texture never requests a frame. *)
Lemma animation_callbacks_idle (v : variant) (cv : canvas) (es : list event) :
  progressive v = false ->
  scheduled (run v cv es) = 0%nat /\ count is_request (log (run v cv es)) = 0%nat.
Proof.
  intros Hp.
  assert (Hanimate : forall s,
             scheduled s = 0%nat /\ count is_request (log s) = 0%nat ->
             scheduled (animate v cv s) = 0%nat /\
             count is_request (log (animate v cv s)) = 0%nat).
  { intros s [Hs Hc].
    destruct (animate_fields v cv s) as (_ & _ & ->).
    destruct (animate_counts v cv s) as (_ & _ & _ & ->).
    rewrite Hp. cbn [andb]. auto. }
  apply (run_invariant
           (fun s => scheduled s = 0%nat /\ count is_request (log s) = 0%nat)).
  - unfold main. apply Hanimate. rewrite Hp.
    destruct (animate_rebuilds v); cbn; auto.
  - intros s e H. destruct e; cbn [handle].
    + rewrite Hp. exact H.
    + destruct H as [Hs Hc]. rewrite Hs. auto.
    + destruct v; exact H.
Qed.

(** X3.  The scripts without an accumulation texture (part_002, w06p01.js,
    the first script of w06p03.js) never call [requestAnimationFrame]: they
    draw on load and on a menu change only.  In a progressive script a
    callback is pending whenever [progressing] is on, so the accumulation
    never stalls; and as long as the Progressive button is not clicked,
    exactly one callback is pending after every event. *)
Theorem animation_callbacks_pending (v : variant) (cv : canvas) (es : list event) :
  (progressive v = false ->
   scheduled (run v cv es) = 0%nat /\
   count is_request (trace (builds_tree v) cv es) = 0%nat) /\
  (progressive v = true -> progressing (run v cv es) = true ->
   (1 <= scheduled (run v cv es))%nat) /\
  (progressive v = true -> existsb is_click es = false ->
   progressing (run v cv es) = true /\ scheduled (run v cv es) = 1%nat).
Proof.
  split; [|split].
  - intros Hp. cbn [trace]. unfold history. rewrite count_rev.
    apply animation_callbacks_idle. exact Hp.
  - intros Hp.
    assert (Hanimate : forall s,
               progressing (animate v cv s) = true ->
               (1 <= scheduled (animate v cv s))%nat).
    { intros s. destruct (animate_fields v cv s) as (-> & _ & ->).
      rewrite Hp. intros ->. cbn [andb]. lia. }
    apply (run_invariant
             (fun s => progressing s = true -> (1 <= scheduled s)%nat)).
    + unfold main. apply Hanimate.
    + intros s e H. cbv beta in *. destruct e; cbn [handle].
      * rewrite Hp. destruct (progressing s); cbn [negb progressing].
        -- discriminate.
        -- apply Hanimate.
      * destruct (scheduled s); [intros Hpr; specialize (H Hpr); lia|].
        apply Hanimate.
      * destruct v; try exact H; discriminate.
  - intros Hp. unfold run.
    assert (H0 : progressing (main v cv) = true /\ scheduled (main v cv) = 1%nat).
    { unfold main.
      match goal with |- context [animate v cv ?s2] => set (s := s2) end.
      destruct (animate_fields v cv s) as (-> & _ & ->).
      assert (H : progressing s = true /\ scheduled s = 0%nat).
      { unfold s. rewrite Hp. destruct (animate_rebuilds v); cbn; auto. }
      destruct H as [-> ->]. rewrite Hp. auto. }
    revert H0. generalize (main v cv).
    induction es as [|e es IH]; intros s Hs Hes; cbn [fold_left]; [exact Hs|].
    cbn [existsb] in Hes. apply orb_false_iff in Hes. destruct Hes as [He Hes].
    apply IH; [|exact Hes].
    destruct Hs as [Hon Hs]. destruct e; cbn [handle]; try discriminate.
    + rewrite Hs.
      match goal with |- context [animate v cv ?s2] => set (s' := s2) end.
      destruct (animate_fields v cv s') as (-> & _ & ->).
      unfold s'. cbn [progressing scheduled]. rewrite Hp, Hon. auto.
    + destruct v; auto; discriminate.
Qed.

Lemma animation_callbacks_pending_witness :
  (1 <= scheduled (run w07p01 {| width := 512; height := 512 |}
                       [animation_frame; click_Progressive; click_Progressive]))%nat /\
  scheduled (run w06p03_1 {| width := 512; height := 512 |}
                 [change_subdivsMenu; animation_frame]) = 0%nat /\
  scheduled (run part_007 {| width := 512; height := 512 |}
                 [animation_frame; animation_frame]) = 1%nat.
Proof.
  split; [|split].
  - apply (animation_callbacks_pending w07p01); reflexivity.
  - apply (animation_callbacks_pending w06p03_1). reflexivity.
  - apply (animation_callbacks_pending part_007); reflexivity.
Defined.

Lemma increment_min (n : nat) :
  increment (Z.min frame_limit (Z.of_nat n)) = Z.min frame_limit (Z.of_nat (S n)).
Proof.
  unfold increment, frame_limit. change (2 ^ 53) with 9007199254740992.
  destruct (Z.min 9007199254740992 (Z.of_nat n) <? 9007199254740992) eqn:E; lia.
Qed.

(** The state of a progressive script in terms of the number [n] of
    callbacks it has requested. *)
Lemma frames_numbered_inv (v : variant) (cv : canvas) (es : list event) :
  progressive v = true ->
  frame (run v cv es)
  = Z.min frame_limit (Z.of_nat (count is_request (log (run v cv es)))) /\
  uniformsUI_writes (log (run v cv es))
  = map (fun k => Uint32Array [width cv; height cv;
                               Z.min frame_limit (Z.of_nat k)])
        (rev (seq 1 (count is_request (log (run v cv es)))))
    ++ [Float32Array [width cv; height cv; 0]].
Proof.
  intros Hp.
  set (P := fun s =>
              frame s = Z.min frame_limit (Z.of_nat (count is_request (log s))) /\
              uniformsUI_writes (log s)
              = map (fun k => Uint32Array [width cv; height cv;
                                           Z.min frame_limit (Z.of_nat k)])
                    (rev (seq 1 (count is_request (log s))))
                ++ [Float32Array [width cv; height cv; 0]]).
  assert (Hanimate : forall s, P s -> P (animate v cv s)).
  { intros s [Hf Hu]. unfold P.
    destruct (animate_fields v cv s) as (_ & -> & _).
    destruct (animate_counts v cv s) as (_ & _ & _ & ->).
    rewrite animate_log, Hp. cbn [andb].
    assert (Hskip : forall l1 a bg l2,
               uniformsUI_writes
                 (RenderPass a bg
                  :: (if animate_rebuilds v
                      then [CreateBindGroup l1; BuildBspTree l2] else [])
                  ++ log s)
               = uniformsUI_writes (log s)).
    { intros. destruct (animate_rebuilds v); reflexivity. }
    destruct (progressing s).
    - cbn [app Nat.add].
      change (uniformsUI_writes (RequestAnimationFrame :: WriteUniformsUI ?b :: ?l))
        with (b :: uniformsUI_writes l).
      rewrite Hskip, Hu, Hf, increment_min. split; [reflexivity|].
      rewrite seq_S, rev_app_distr. reflexivity.
    - cbn [app Nat.add]. rewrite Hskip. split; assumption. }
  apply (run_invariant P).
  - unfold main. apply Hanimate. unfold P. rewrite Hp.
    destruct (animate_rebuilds v); split; reflexivity.
  - intros s e H. destruct e; cbn [handle].
    + rewrite Hp. destruct (negb (progressing s)); [apply Hanimate|]; exact H.
    + destruct (scheduled s); [exact H|]. apply Hanimate. exact H.
    + destruct v; try exact H; discriminate.
Qed.

(** X4.  In a progressive script the frame counter equals the number of
    animation callbacks requested so far (it stops at 2^53, where adding one
    rounds back), and the writes to the UI uniform buffer number the frames
    consecutively: after the initial float write of frame 0, the k-th
    integer write carries frame number k; no number is skipped or repeated. *)
Theorem frames_numbered (v : variant) (cv : canvas) (es : list event) :
  progressive v = true ->
  frame (run v cv es)
  = Z.min frame_limit
          (Z.of_nat (count is_request (trace (builds_tree v) cv es))) /\
  uniformsUI_writes (trace (builds_tree v) cv es)
  = Float32Array [width cv; height cv; 0]
    :: map (fun k => Uint32Array [width cv; height cv;
                                  Z.min frame_limit (Z.of_nat k)])
           (seq 1 (count is_request (trace (builds_tree v) cv es))).
Proof.
  intros Hp. destruct (frames_numbered_inv v cv es Hp) as [Hf Hu].
  cbn [trace]. unfold history. rewrite count_rev. split; [exact Hf|].
  unfold uniformsUI_writes in *. rewrite omap_rev, Hu.
  rewrite rev_app_distr, <- map_rev, rev_involutive. reflexivity.
Qed.

Lemma frames_numbered_witness :
  frame (run part_007 {| width := 640; height := 480 |}
             [animation_frame; click_Progressive; animation_frame;
              click_Progressive]) = 3 /\
  uniformsUI_writes
    (trace (builds_tree part_007) {| width := 640; height := 480 |}
           [animation_frame; click_Progressive; animation_frame;
            click_Progressive])
  = [ Float32Array [640; 480; 0]; Uint32Array [640; 480; 1];
      Uint32Array [640; 480; 2]; Uint32Array [640; 480; 3] ].
Proof.
  destruct (frames_numbered part_007 {| width := 640; height := 480 |}
              [animation_frame; click_Progressive; animation_frame;
               click_Progressive] eq_refl) as [Hf Hu].
  split.
  - rewrite Hf. vm_compute. reflexivity.
  - rewrite Hu. vm_compute. reflexivity.
Defined.

Lemma le_bytes_are_bytes (w : Z) : Forall (fun b => 0 <= b < 256) (le_bytes w).
Proof.
  unfold le_bytes. repeat constructor; apply Z.mod_pos_bound; lia.
Qed.

Lemma typed_array_bytes (f : Z -> Z) (vs : list Z) :
  length (flat_map (fun v => le_bytes (f v)) vs) = (4 * length vs)%nat /\
  Forall (fun b => 0 <= b < 256) (flat_map (fun v => le_bytes (f v)) vs).
Proof.
  induction vs as [|x vs [IHl IHb]]; [split; [reflexivity | constructor]|].
  cbn [flat_map]. split.
  - rewrite length_app, IHl. cbn [le_bytes length]. lia.
  - apply Forall_app. split; [apply le_bytes_are_bytes | exact IHb].
Qed.

(** X5.  Every write to the UI uniform buffer, the initial float one and
    each per-frame integer one, in every demo and after any events, carries
    exactly 12 bytes: the size [uniformUIBuffer] was created with. *)
Theorem uniformsUI_writes_fill_the_buffer (d : demo) (cv : canvas) (es : list event) :
  Forall (fun bytes => length bytes = uniformUIBuffer_size /\
                       Forall (fun b => 0 <= b < 256) bytes)
         (uniformsUI_writes (trace d cv es)).
Proof.
  set (ok := fun bytes : list Z =>
               length bytes = uniformUIBuffer_size /\
               Forall (fun b => 0 <= b < 256) bytes).
  assert (Hrev : forall l, Forall ok (uniformsUI_writes l) ->
                           Forall ok (uniformsUI_writes (rev l))).
  { intros l H. unfold uniformsUI_writes. rewrite omap_rev.
    apply Forall_rev. exact H. }
  assert (Hu : forall a b c, ok (Uint32Array [a; b; c])).
  { intros. apply (typed_array_bytes ToUint32 [a; b; c]). }
  assert (Hf : forall a b c, ok (Float32Array [a; b; c])).
  { intros. apply (typed_array_bytes float32_bits [a; b; c]). }
  destruct d as [v|]; cbn [trace]; unfold history; apply Hrev.
  - assert (Hanimate : forall s, Forall ok (uniformsUI_writes (log s)) ->
                                 Forall ok (uniformsUI_writes (log (animate v cv s)))).
    { intros s H. rewrite animate_log.
      assert (Hskip : forall l1 a bg l2,
                 uniformsUI_writes
                   (RenderPass a bg
                    :: (if animate_rebuilds v
                        then [CreateBindGroup l1; BuildBspTree l2] else [])
                    ++ log s)
                 = uniformsUI_writes (log s)).
      { intros. destruct (animate_rebuilds v); reflexivity. }
      destruct (progressive v && progressing s); cbn [app].
      - change (uniformsUI_writes (RequestAnimationFrame :: WriteUniformsUI ?b :: ?l))
          with (b :: uniformsUI_writes l).
        rewrite Hskip. constructor; [apply Hu | exact H].
      - rewrite Hskip. exact H. }
    apply (run_invariant (fun s => Forall ok (uniformsUI_writes (log s)))).
    + unfold main. apply Hanimate.
      destruct (progressive v), (animate_rebuilds v); cbn [log emit initial
        assign_bindGroup onReadComplete snd];
        change (uniformsUI_writes []) with (@nil (list Z));
        repeat first [ apply Forall_nil | apply Forall_cons; [apply Hf|] ].
    + intros s e H. destruct e; cbn [handle].
      * destruct (progressive v); [|exact H].
        destruct (negb (progressing s)); [apply Hanimate|]; exact H.
      * destruct (scheduled s); [exact H|]. apply Hanimate. exact H.
      * destruct v; try exact H; apply Hanimate; exact H.
  - generalize w05p04_main (Forall_nil ok : Forall ok (uniformsUI_writes (log w05p04_main))).
    induction es as [|e es IH]; intros s Hs; cbn [fold_left]; [exact Hs|].
    apply IH. destruct e; cbn [w05p04_handle]; try exact Hs.
    destruct (scheduled s); exact Hs.
Qed.

(** X6.  The Progressive button does not cancel a pending callback.  In a
    progressive script that is accumulating, clicking the button twice
    (pause, resume) draws one more pass at once, advances the frame counter
    and leaves one more callback pending than before: from then on one more
    animation loop runs. *)
Theorem pause_resume_adds_a_loop (v : variant) (cv : canvas) (s : state) :
  progressive v = true -> progressing s = true ->
  progressing (handle v cv (handle v cv s click_Progressive) click_Progressive)
  = true /\
  scheduled (handle v cv (handle v cv s click_Progressive) click_Progressive)
  = S (scheduled s) /\
  frame (handle v cv (handle v cv s click_Progressive) click_Progressive)
  = increment (frame s) /\
  count is_pass
    (log (handle v cv (handle v cv s click_Progressive) click_Progressive))
  = S (count is_pass (log s)).
Proof.
  intros Hp Hon. cbn [handle]. rewrite Hp, Hon. cbn [negb progressing].
  match goal with |- context [animate v cv ?s2] => set (s' := s2) end.
  destruct (animate_fields v cv s') as (-> & -> & ->).
  destruct (animate_counts v cv s') as (_ & _ & -> & _).
  unfold s'. cbn [progressing scheduled frame log negb]. rewrite Hp.
  cbn [andb]. auto.
Qed.

Lemma pause_resume_adds_a_loop_witness :
  scheduled
    (handle part_007 {| width := 512; height := 512 |}
       (handle part_007 {| width := 512; height := 512 |}
          (main part_007 {| width := 512; height := 512 |}) click_Progressive)
       click_Progressive) = 2%nat.
Proof.
  apply (pause_resume_adds_a_loop part_007 {| width := 512; height := 512 |}
           (main part_007 {| width := 512; height := 512 |}) eq_refl eq_refl).
Defined.

(** X7.  w05p04.js runs one animation loop for ever: after any events
    exactly one callback is pending, each animation frame has drawn exactly
    one pass, and every pass uses the bind group that [main] created, the
    only one the script ever creates. *)
Theorem w05p04_one_loop (cv : canvas) (es : list event) :
  scheduled (fold_left w05p04_handle es w05p04_main) = 1%nat /\
  count is_pass (trace w05p04 cv es) = length (List.filter is_animation_frame es) /\
  count is_create (trace w05p04 cv es) = 1%nat /\
  (forall acc bg, In (RenderPass acc bg) (trace w05p04 cv es) ->
                  acc = None /\ bg = Some w05p04_bindGroup).
Proof.
  cbn [trace]. unfold history. rewrite !count_rev.
  set (P := fun (n : nat) (s : state) =>
              scheduled s = 1%nat /\ bindGroup s = Some w05p04_bindGroup /\
              count is_pass (log s) = n /\ count is_create (log s) = 1%nat /\
              forall acc bg, In (RenderPass acc bg) (log s) ->
                             acc = None /\ bg = Some w05p04_bindGroup).
  assert (H : P (length (List.filter is_animation_frame es))
                (fold_left w05p04_handle es w05p04_main)).
  { assert (H0 : P 0%nat w05p04_main).
    { unfold P. cbn. repeat split; try reflexivity;
        destruct H as [H|[H|[]]]; discriminate. }
    replace (length (List.filter is_animation_frame es))
      with (0 + length (List.filter is_animation_frame es))%nat by reflexivity.
    revert H0. generalize 0%nat, w05p04_main.
    induction es as [|e es IH]; intros n s Hs; cbn [fold_left List.filter].
    - cbn [length]. rewrite Nat.add_0_r. exact Hs.
    - destruct e; cbn [is_animation_frame w05p04_handle]; try (apply IH; exact Hs).
      cbn [length]. rewrite <- Nat.add_succ_comm. apply IH.
      destruct Hs as (Hs & Hb & Hn & Hc & Hall). rewrite Hs.
      unfold P, w05p04_animate. cbn [emit scheduled bindGroup log].
      rewrite Hb. count_calls. rewrite Hn, Hc.
      split; [reflexivity|]. split; [reflexivity|]. split; [reflexivity|].
      split; [reflexivity|].
      intros acc bg [H|[H|H]]; [discriminate | injection H as <- <-; auto | auto]. }
  destruct H as (Hs & _ & Hn & Hc & Hall).
  split; [exact Hs|]. split; [exact Hn|]. split; [exact Hc|].
  intros acc bg Hin. apply Hall. apply in_rev. exact Hin.
Qed.

Lemma w05p04_one_loop_witness :
  count is_pass (trace w05p04 {| width := 512; height := 512 |}
                       [animation_frame; click_Progressive; animation_frame])
  = 2%nat /\
  forall acc bg,
    In (RenderPass acc bg)
       (trace w05p04 {| width := 512; height := 512 |}
              [animation_frame; click_Progressive; animation_frame]) ->
    bg = Some w05p04_bindGroup.
Proof.
  destruct (w05p04_one_loop {| width := 512; height := 512 |}
              [animation_frame; click_Progressive; animation_frame])
    as (_ & Hn & _ & Hall).
  split; [exact Hn|]. intros acc bg Hin. apply (Hall acc bg Hin).
Defined.

(** X8.  part_002 and w06p01.js draw exactly one pass, at load, whatever
    happens afterwards; the first script of w06p03.js draws one pass at load
    and one for every change of its subdivisions menu, at once, without
    waiting for an animation frame. *)
Theorem passes_without_accumulation (v : variant) (cv : canvas) (es : list event) :
  progressive v = false ->
  count is_pass (trace (builds_tree v) cv es)
  = match v with
    | w06p03_1 =>
        S (length (List.filter
                     (fun e => match e with change_subdivsMenu => true | _ => false end)
                     es))
    | _ => 1%nat
    end.
Proof.
  intros Hp. cbn [trace]. unfold history. rewrite count_rev. unfold run.
  destruct (main_counts v cv) as (_ & _ & H0).
  assert (Hs0 : scheduled (main v cv) = 0%nat).
  { change (main v cv) with (run v cv []).
    apply (animation_callbacks_idle v cv [] Hp). }
  revert H0 Hs0. generalize (main v cv).
  assert (Hgen : forall (es : list event) (s : state) (n : nat),
             count is_pass (log s) = n -> scheduled s = 0%nat ->
             count is_pass (log (fold_left (handle v cv) es s))
             = match v with
               | w06p03_1 =>
                   (n + length (List.filter
                                  (fun e => match e with
                                            | change_subdivsMenu => true
                                            | _ => false
                                            end) es))%nat
               | _ => n
               end).
  { clear es. induction es as [|e es IH]; intros s n Hn Hs; cbn [fold_left List.filter].
    - destruct v; cbn [length]; lia.
    - destruct e; cbn [handle].
      + rewrite Hp. apply IH; assumption.
      + rewrite Hs. apply IH; assumption.
      + destruct v; try discriminate Hp; try (apply IH; assumption).
        cbn [length]. rewrite <- Nat.add_succ_comm. apply IH.
        * destruct (animate_counts w06p03_1 cv s) as (_ & _ & -> & _). now rewrite Hn.
        * destruct (animate_fields w06p03_1 cv s) as (_ & _ & ->). exact Hs. }
  intros s H0 Hs0. rewrite (Hgen es s 1%nat H0 Hs0).
  destruct v; reflexivity.
Qed.

Lemma passes_without_accumulation_witness :
  count is_pass
    (trace (builds_tree w06p03_1) {| width := 512; height := 512 |}
           [change_subdivsMenu; animation_frame; click_Progressive;
            change_subdivsMenu]) = 3%nat.
Proof.
  apply (passes_without_accumulation w06p03_1 {| width := 512; height := 512 |}
           [change_subdivsMenu; animation_frame; click_Progressive;
            change_subdivsMenu] eq_refl).
Defined.

Lemma Uint32Array_frame_inj (w h f f' : Z) :
  0 <= f < 2 ^ 32 -> 0 <= f' < 2 ^ 32 ->
  Uint32Array [w; h; f] = Uint32Array [w; h; f'] -> f = f'.
Proof.
  intros Hf Hf' E. unfold Uint32Array in E. cbn [flat_map] in E.
  rewrite !app_nil_r in E.
  do 2 (apply app_inv_head in E).
  rewrite !TypedArraysFacts.ToUint32_small in E by assumption.
  apply TypedArraysFacts.le_bytes_inj in E; assumption.
Qed.

(** X9.  In a progressive script that has requested fewer than 2^32
    frames, the per-frame writes to the UI uniform buffer are pairwise
    distinct byte strings: every such write replaces the frame number in
    the buffer by one that no earlier per-frame write put there.  (Passes
    are another matter: a pass drawn while the rendering is paused is
    followed by no write, so the next pass reads the same number.) *)
Theorem frame_writes_distinct (v : variant) (cv : canvas) (es : list event) :
  progressive v = true ->
  Z.of_nat (count is_request (trace (builds_tree v) cv es)) < 2 ^ 32 ->
  List.NoDup (tail (uniformsUI_writes (trace (builds_tree v) cv es))).
Proof.
  intros Hp Hn. destruct (frames_numbered_inv v cv es Hp) as [_ Hu].
  cbn [trace] in *. unfold history in *. rewrite count_rev in Hn.
  unfold uniformsUI_writes in *. rewrite omap_rev, Hu.
  rewrite rev_app_distr, <- map_rev, rev_involutive. cbn [rev app tail].
  set (n := count is_request (log (run v cv es))) in *.
  apply NoDup_map_NoDup_ForallPairs; [|apply seq_NoDup].
  intros j k Hj Hk E. apply in_seq in Hj, Hk.
  assert (Hmin : forall i, (i < 1 + n)%nat ->
                           Z.min frame_limit (Z.of_nat i) = Z.of_nat i).
  { intros i Hi. unfold frame_limit. change (2 ^ 53) with 9007199254740992.
    change (2 ^ 32) with 4294967296 in Hn. lia. }
  rewrite !Hmin in E by lia.
  apply Uint32Array_frame_inj in E; lia.
Qed.

Lemma frame_writes_distinct_witness :
  List.NoDup (tail (uniformsUI_writes
                 (trace (builds_tree w07p01) {| width := 640; height := 480 |}
                        [animation_frame; animation_frame; click_Progressive]))).
Proof.
  apply (frame_writes_distinct w07p01 {| width := 640; height := 480 |}
           [animation_frame; animation_frame; click_Progressive] eq_refl).
  vm_compute. reflexivity.
Defined.

Lemma animate_bindGroup (v : variant) (cv : canvas) (s : state) :
  animate_rebuilds v = false -> bindGroup (animate v cv s) = bindGroup s.
Proof.
  intros Hr. unfold animate. rewrite Hr. unfold render.
  match goal with |- context [if ?b then _ else _] => destruct b end; reflexivity.
Qed.

(** X10.  The steady state of a progressive script that builds its tree
    once (part_007, both scripts of Project/source.js, the last two of
    w06p03.js): left alone for [n] animation frames, it adds to the calls of
    [main], for each frame, one pass that loads the accumulation texture and
    uses the bind group of [main], the integer write of the next frame
    number, and the request of the next frame; nothing else. *)
Theorem steady_state_trace (v : variant) (cv : canvas) (n : nat) :
  progressive v = true -> animate_rebuilds v = false ->
  trace (builds_tree v) cv (repeat animation_frame n)
  = trace (builds_tree v) cv []
    ++ flat_map
         (fun k => [ RenderPass (Some load) (bindGroup (main v cv));
                     WriteUniformsUI
                       (Uint32Array [width cv; height cv;
                                     Z.min frame_limit (Z.of_nat k)]);
                     RequestAnimationFrame ])
         (seq 2 n).
Proof.
  intros Hp Hr. cbn [trace]. unfold history.
  set (per_frame := fun k =>
         [ RenderPass (Some load) (bindGroup (main v cv));
           WriteUniformsUI
             (Uint32Array [width cv; height cv; Z.min frame_limit (Z.of_nat k)]);
           RequestAnimationFrame ]).
  assert (Hmain : progressing (main v cv) = true /\ scheduled (main v cv) = 1%nat /\
                  frame (main v cv) = Z.min frame_limit (Z.of_nat 1)).
  { unfold main. rewrite Hp, Hr.
    match goal with |- context [animate v cv ?s2] => set (s := s2) end.
    destruct (animate_fields v cv s) as (E1 & E2 & E3).
    rewrite E1, E2, E3, Hp. unfold s.
    split; [reflexivity|]. split; reflexivity. }
  assert (H : progressing (run v cv (repeat animation_frame n)) = true /\
              scheduled (run v cv (repeat animation_frame n)) = 1%nat /\
              frame (run v cv (repeat animation_frame n))
              = Z.min frame_limit (Z.of_nat (S n)) /\
              bindGroup (run v cv (repeat animation_frame n)) = bindGroup (main v cv) /\
              rev (log (run v cv (repeat animation_frame n)))
              = rev (log (run v cv [])) ++ flat_map per_frame (seq 2 n)).
  { induction n as [|n IH].
    - destruct Hmain as (H1 & H2 & H3). cbn [repeat seq flat_map].
      rewrite app_nil_r. auto.
    - destruct IH as (Hon & Hs & Hf & Hb & Hl).
      replace (repeat animation_frame (S n))
        with (repeat animation_frame n ++ [animation_frame])
        by (symmetry; apply repeat_cons).
      unfold run in *. rewrite fold_left_app. cbn [fold_left handle].
      set (s := fold_left (handle v cv) (repeat animation_frame n) (main v cv)) in *.
      rewrite Hs.
      match goal with |- context [animate v cv ?s2] => set (s' := s2) end.
      destruct (animate_fields v cv s') as (E1 & E2 & E3).
      rewrite E1, E2, E3, animate_log, Hp, Hr.
      unfold s'. cbn [progressing scheduled frame bindGroup log andb app].
      rewrite Hon, Hf, increment_min.
      split; [reflexivity|]. split; [reflexivity|]. split; [reflexivity|].
      split.
      + rewrite animate_bindGroup by exact Hr. exact Hb.
      + assert ((Z.min frame_limit (Z.of_nat (S n)) =? 0) = false) as ->.
        { apply Z.eqb_neq. unfold frame_limit.
          change (2 ^ 53) with 9007199254740992. lia. }
        cbn [rev app]. rewrite Hl, Hb, seq_S, flat_map_app.
        cbn [flat_map fold_left Nat.add]. unfold per_frame.
        rewrite app_nil_r, <- !app_assoc. reflexivity. }
  destruct H as (_ & _ & _ & _ & H). exact H.
Qed.

Lemma steady_state_trace_witness :
  trace (builds_tree part_007) {| width := 640; height := 480 |}
        (repeat animation_frame 2)
  = trace (builds_tree part_007) {| width := 640; height := 480 |} []
    ++ [ RenderPass (Some load)
           (bindGroup (main part_007 {| width := 640; height := 480 |}));
         WriteUniformsUI (Uint32Array [640; 480; 2]);
         RequestAnimationFrame;
         RenderPass (Some load)
           (bindGroup (main part_007 {| width := 640; height := 480 |}));
         WriteUniformsUI (Uint32Array [640; 480; 3]);
         RequestAnimationFrame ].
Proof.
  apply (steady_state_trace part_007 {| width := 640; height := 480 |} 2
           eq_refl eq_refl).
Defined.

End ScriptFacts.

(* --------------------------------------------------------------------- *)
(** ** The binding convention                                              *)
(* --------------------------------------------------------------------- *)

Module DemoFacts.
Import Demo.

Example by_slot_sorts :
  by_slot [(7, buffers_ bspTree); (0, uniformBuffer); (3, buffers_ indices)]%nat
  = [(0, uniformBuffer); (3, buffers_ indices); (7, buffers_ bspTree)]%nat.
Proof. reflexivity. Qed.

Example roles_part_002 :
  roles_by_slot all_resources part_002
  = [camera_view_parameters; root_AABB; vertex_attributes; triangle_indices;
     material_color_table; light_triangle_index_list; leaf_triangle_id_array;
     node_array; plane_array].
Proof. reflexivity. Qed.

Lemma entries_sorted (v : variant) : by_slot (entries v) = entries v.
Proof. destruct v; reflexivity. Qed.

Lemma variants_complete (v : variant) : In v variants.
Proof. destruct v; cbn; tauto. Qed.

Lemma convention_rank (r : role) : convention !! rank r = Some r.
Proof. destruct r; reflexivity. Qed.

Lemma follows_convention_cons (r : role) (l : list role) :
  follows_convention (r :: l) = true ->
  follows_convention l = true /\ forall r', In r' l -> (rank r <= rank r')%nat.
Proof.
  revert r. induction l as [|r1 l IH]; intros r H.
  - split; [reflexivity | intros r' []].
  - cbn [follows_convention] in H. apply andb_true_iff in H. destruct H as [Hle Hl].
    apply Nat.leb_le in Hle. split; [exact Hl|].
    destruct (IH r1 Hl) as [_ Hall].
    intros r' [<- | Hin]; [exact Hle|]. specialize (Hall r' Hin). lia.
Qed.

(** The check of neighbours decides the order. *)
Lemma follows_convention_spec (l : list role) :
  follows_convention l = true <-> in_convention_order l.
Proof.
  split.
  - induction l as [|r l IH]; intros H i j a b Hij Hi Hj; [discriminate|].
    destruct (follows_convention_cons r l H) as [Hl Hall].
    destruct j as [|j]; [lia|]. cbn in Hj.
    destruct i as [|i].
    + injection Hi as <-. apply Hall. apply list_elem_of_In.
      eapply list_elem_of_lookup_2. exact Hj.
    + cbn in Hi. apply (IH Hl i j a b); [lia | exact Hi | exact Hj].
  - induction l as [|r l IH]; intros H; [reflexivity|].
    destruct l as [|r1 l]; [reflexivity|].
    cbn [follows_convention]. apply andb_true_iff. split.
    + apply Nat.leb_le. apply (H 0%nat 1%nat r r1); [lia | reflexivity | reflexivity].
    + apply IH. intros i j a b Hij Hi Hj.
      apply (H (S i) (S j) a b); [lia | exact Hi | exact Hj].
Qed.

(** C5 as stated fails for w06p01.js: by ascending slot it binds positions
    (2), triangle indices (3), normals (4), so a vertex attribute array comes
    after the triangle indices. *)
Lemma binding_order_counterexample :
  roles_by_slot all_resources w06p01
  = [camera_view_parameters; root_AABB; vertex_attributes; triangle_indices;
     vertex_attributes; material_color_table; material_index_per_triangle;
     leaf_triangle_id_array; node_array; plane_array] /\
  ~ in_convention_order (roles_by_slot all_resources w06p01).
Proof.
  split; [reflexivity|]. intros H.
  specialize (H 3%nat 4%nat triangle_indices vertex_attributes
                ltac:(lia) eq_refl eq_refl).
  cbn in H. lia.
Qed.

(** C5, amended.  In every script that consumes the flattened tree the
    resources of the convention that the script binds are met in the
    convention's order when the bind group is walked by ascending slot, the
    normals buffer of w06p01.js set aside; with normals counted the order
    holds in every script but w06p01.js.  Every script binds the camera
    uniforms, the root AABB, vertex attributes, triangle indices, the
    material color table, the leaf-triangle-id array, the node array and the
    plane array. *)
Theorem binding_order_by_slot (v : variant) :
  in_convention_order (roles_by_slot not_normals v) /\
  (v <> w06p01 -> in_convention_order (roles_by_slot all_resources v)) /\
  (forall r, In r core_roles -> In r (roles_by_slot not_normals v)).
Proof.
  split; [|split].
  - apply follows_convention_spec. destruct v; reflexivity.
  - intros Hv. apply follows_convention_spec.
    destruct v; try reflexivity. contradiction.
  - intros r Hr.
    assert (H : forallb (fun r => existsb (fun r' => bool_decide (r' = r))
                                          (roles_by_slot not_normals v))
                        core_roles = true) by (destruct v; reflexivity).
    rewrite forallb_forall in H. specialize (H r Hr).
    apply existsb_exists in H. destruct H as (r' & Hin & Heq).
    apply bool_decide_eq_true in Heq. subst r'. exact Hin.
Qed.

Lemma binding_order_by_slot_witness :
  in_convention_order (roles_by_slot all_resources w06p03_2) /\
  In material_color_table (roles_by_slot not_normals w06p01).
Proof.
  destruct (binding_order_by_slot w06p03_2) as (_ & Hall & _).
  destruct (binding_order_by_slot w06p01) as (_ & _ & Hcore).
  split.
  - apply Hall. discriminate.
  - apply Hcore. cbn. tauto.
Defined.

End DemoFacts.

(* --------------------------------------------------------------------- *)
(** ** The spatial partition builder                                      *)
(* --------------------------------------------------------------------- *)

Module BspTreeFacts.
Import BspTree.
Open Scope Q_scope.

(** *** Boxes *)

Lemma coord_vmin (a : axis) (p q : vec3) :
  coord a (vmin p q) = Qmin (coord a p) (coord a q).
Proof. destruct a; reflexivity. Qed.

Lemma coord_vmax (a : axis) (p q : vec3) :
  coord a (vmax p q) = Qmax (coord a p) (coord a q).
Proof. destruct a; reflexivity. Qed.

Lemma bound_points_empty (ps : list vec3) :
  bound_points ps = empty_AABB -> ps = [].
Proof.
  destruct ps as [|p ps]; [reflexivity|]. cbn.
  destruct (bound_points ps); discriminate.
Qed.

Lemma bound_points_encloses (ps : list vec3) (lo hi : vec3) (a : axis) :
  bound_points ps = box lo hi ->
  forall p, In p ps -> coord a lo <= coord a p /\ coord a p <= coord a hi.
Proof.
  revert lo hi. induction ps as [|q ps IH]; intros lo hi H p Hin; [destruct Hin|].
  cbn in H. destruct (bound_points ps) as [|lo' hi'] eqn:E.
  - injection H as <- <-. apply bound_points_empty in E. subst ps.
    destruct Hin as [<- | []]. split; apply Qle_refl.
  - injection H as <- <-. rewrite coord_vmin, coord_vmax.
    destruct Hin as [<- | Hin].
    + split; [apply Q.le_min_l | apply Q.le_max_l].
    + destruct (IH lo' hi' eq_refl p Hin) as [H1 H2]. split.
      * eapply Qle_trans; [apply Q.le_min_r | exact H1].
      * eapply Qle_trans; [exact H2 | apply Q.le_max_r].
Qed.

Lemma bound_points_lo_attained (ps : list vec3) (lo hi : vec3) (a : axis) :
  bound_points ps = box lo hi -> exists p, In p ps /\ coord a p == coord a lo.
Proof.
  revert lo hi. induction ps as [|q ps IH]; intros lo hi H; [discriminate|].
  cbn in H. destruct (bound_points ps) as [|lo' hi'] eqn:E.
  - injection H as <- <-. exists q. split; [now left | reflexivity].
  - injection H as <- <-. rewrite coord_vmin.
    destruct (Q.min_dec (coord a q) (coord a lo')) as [Hm | Hm].
    + exists q. split; [now left | now rewrite Hm].
    + destruct (IH lo' hi' eq_refl) as (p & Hp & Hpe).
      exists p. split; [now right | now rewrite Hm].
Qed.

Lemma bound_points_hi_attained (ps : list vec3) (lo hi : vec3) (a : axis) :
  bound_points ps = box lo hi -> exists p, In p ps /\ coord a p == coord a hi.
Proof.
  revert lo hi. induction ps as [|q ps IH]; intros lo hi H; [discriminate|].
  cbn in H. destruct (bound_points ps) as [|lo' hi'] eqn:E.
  - injection H as <- <-. exists q. split; [now left | reflexivity].
  - injection H as <- <-. rewrite coord_vmax.
    destruct (Q.max_dec (coord a q) (coord a hi')) as [Hm | Hm].
    + exists q. split; [now left | now rewrite Hm].
    + destruct (IH lo' hi' eq_refl) as (p & Hp & Hpe).
      exists p. split; [now right | now rewrite Hm].
Qed.

Lemma box_lo_le_hi (ps : list vec3) (lo hi : vec3) (a : axis) :
  bound_points ps = box lo hi -> coord a lo <= coord a hi.
Proof.
  intros H. destruct (bound_points_lo_attained ps lo hi a H) as (p & Hp & He).
  rewrite <- He. apply (bound_points_encloses ps lo hi a H p Hp).
Qed.

Lemma bound_points_nonempty (ps : list vec3) :
  ps <> [] -> exists lo hi, bound_points ps = box lo hi.
Proof.
  intros H. destruct (bound_points ps) as [|lo hi] eqn:E.
  - apply bound_points_empty in E. contradiction.
  - eauto.
Qed.

(** *** Triangles *)

Lemma computeAABB_single (m : mesh) (t : nat) :
  computeAABB m [t] = bound_points (vertices m t).
Proof. unfold computeAABB. cbn. now rewrite app_nil_r. Qed.

Lemma vertices_length (m : mesh) (t : nat) :
  well_formed m = true -> (t < triangle_count m)%nat -> length (vertices m t) = 3%nat.
Proof.
  intros Hwf Ht. unfold vertices, triangle_count in *.
  destruct (indices m !! t) as [[[a b] c]|] eqn:E.
  - unfold well_formed in Hwf. rewrite forallb_forall in Hwf.
    assert (Hin : In (a, b, c) (indices m)).
    { apply list_elem_of_In. eapply list_elem_of_lookup_2. exact E. }
    specialize (Hwf _ Hin). cbn in Hwf.
    apply andb_true_iff in Hwf. destruct Hwf as [Hab Hc].
    apply andb_true_iff in Hab. destruct Hab as [Ha Hb].
    apply Nat.ltb_lt in Ha, Hb, Hc.
    destruct (lookup_lt_is_Some_2 (positions m) a Ha) as [pa Hpa].
    destruct (lookup_lt_is_Some_2 (positions m) b Hb) as [pb Hpb].
    destruct (lookup_lt_is_Some_2 (positions m) c Hc) as [pc Hpc].
    cbn. rewrite Hpa, Hpb, Hpc. reflexivity.
  - apply lookup_ge_None in E. lia.
Qed.

Lemma triangle_box (m : mesh) (t : nat) :
  vertices m t <> [] ->
  exists lo hi v, computeAABB m [t] = box lo hi /\ In v (vertices m t) /\
    forall a, coord a lo <= coord a v /\ coord a v <= coord a hi.
Proof.
  intros Hne. rewrite computeAABB_single.
  destruct (bound_points_nonempty _ Hne) as (lo & hi & E).
  destruct (vertices m t) as [|v vs] eqn:Ev; [contradiction|].
  exists lo, hi, v. split; [exact E|]. split; [now left|].
  intros a. apply (bound_points_encloses _ lo hi a E). now left.
Qed.

(** A triangle that has a box goes to at least one side of any plane. *)
Lemma classified (m : mesh) (a : axis) (position : Q) (t : nat) :
  vertices m t <> [] ->
  at_or_below m a position t = true \/ at_or_above m a position t = true.
Proof.
  intros Hne. destruct (triangle_box m t Hne) as (lo & hi & v & E & _ & Hv).
  unfold at_or_below, at_or_above. rewrite E.
  destruct (Qlt_le_dec position (coord a lo)) as [Hlt | Hle].
  - right. apply Qle_bool_iff. destruct (Hv a) as [H1 H2].
    apply Qlt_le_weak. eapply Qlt_le_trans; [exact Hlt|].
    eapply Qle_trans; eassumption.
  - left. apply Qle_bool_iff. exact Hle.
Qed.

(** *** One node *)

Lemma split_Some (p : policy) (m : mesh) (tris : list nat) (bb : AABB) (depth : nat)
      (a : axis) (position : Q) (l r : list nat) :
  split p m tris bb depth = Some (a, position, l, r) ->
  exists lo hi,
    bb = box lo hi /\
    a = longest_axis lo hi /\
    position = midpoint (coord a lo) (coord a hi) /\
    l = List.filter (at_or_below m a position) tris /\
    r = List.filter (at_or_above m a position) tris /\
    (length l < length tris)%nat /\ (length r < length tris)%nat /\
    (threshold p <= length tris)%nat /\ (depth < max_depth p)%nat.
Proof.
  unfold split. intros H.
  destruct ((length tris <? threshold p)%nat || (max_depth p <=? depth)%nat) eqn:E1;
    [discriminate|].
  destruct bb as [|lo hi]; [discriminate|].
  match type of H with (if ?c then _ else _) = _ => destruct c eqn:E2 end;
    [discriminate|].
  injection H as <- <- <- <-.
  apply orb_false_iff in E1. destruct E1 as [E1a E1b].
  apply orb_false_iff in E2. destruct E2 as [E2a E2b].
  apply Nat.ltb_ge in E1a. apply Nat.leb_gt in E1b.
  apply Nat.eqb_neq in E2a, E2b.
  exists lo, hi. repeat (split; [reflexivity|]).
  pose proof (filter_length_le (at_or_below m (longest_axis lo hi)
    (midpoint (coord (longest_axis lo hi) lo) (coord (longest_axis lo hi) hi))) tris).
  pose proof (filter_length_le (at_or_above m (longest_axis lo hi)
    (midpoint (coord (longest_axis lo hi) lo) (coord (longest_axis lo hi) hi))) tris).
  lia.
Qed.

(** *** The recursion *)

Lemma build_S (p : policy) (fuel : nat) (m : mesh) (tris : list nat) (bb : AABB)
      (depth : nat) :
  build p (S fuel) m tris bb depth =
  match split p m tris bb depth with
  | None => Some (leaf tris)
  | Some (a, position, l, r) =>
      match build p fuel m l (computeAABB m l) (S depth),
            build p fuel m r (computeAABB m r) (S depth) with
      | Some tl, Some tr => Some (internal a position tl tr)
      | _, _ => None
      end
  end.
Proof. reflexivity. Qed.

Lemma build_internal (p : policy) (fuel : nat) (m : mesh) (tris : list nat)
      (bb : AABB) (depth : nat) (a : axis) (position : Q) (tl tr : node) :
  build p fuel m tris bb depth = Some (internal a position tl tr) ->
  exists fuel' l r,
    fuel = S fuel' /\
    split p m tris bb depth = Some (a, position, l, r) /\
    build p fuel' m l (computeAABB m l) (S depth) = Some tl /\
    build p fuel' m r (computeAABB m r) (S depth) = Some tr.
Proof.
  destruct fuel as [|fuel']; [discriminate|]. rewrite build_S.
  destruct (split p m tris bb depth) as [[[[a' pos'] l] r]|]; [|discriminate].
  destruct (build p fuel' m l _ _) as [tl'|] eqn:El; [|discriminate].
  destruct (build p fuel' m r _ _) as [tr'|] eqn:Er; [|discriminate].
  intros H. injection H as -> -> -> ->. exists fuel', l, r. auto.
Qed.

(** Enough fuel: one unit per level that can still be opened, plus one. *)
Lemma build_enough_fuel (p : policy) (m : mesh) (fuel : nat) :
  forall (tris : list nat) (bb : AABB) (depth : nat),
    (max_depth p - depth < fuel)%nat ->
    exists t, build p fuel m tris bb depth = Some t.
Proof.
  induction fuel as [|fuel IH]; intros tris bb depth Hf; [lia|].
  rewrite build_S.
  destruct (split p m tris bb depth) as [[[[a pos] l] r]|] eqn:E; [|eauto].
  apply split_Some in E. destruct E as (lo & hi & _ & _ & _ & _ & _ & _ & _ & _ & Hd).
  destruct (IH l (computeAABB m l) (S depth) ltac:(lia)) as [tl ->].
  destruct (IH r (computeAABB m r) (S depth) ltac:(lia)) as [tr ->].
  eauto.
Qed.

(** More fuel does not change a result. *)
Lemma build_fuel_mono (p : policy) (m : mesh) (fuel : nat) :
  forall (fuel' : nat) (tris : list nat) (bb : AABB) (depth : nat) (t : node),
    build p fuel m tris bb depth = Some t -> (fuel <= fuel')%nat ->
    build p fuel' m tris bb depth = Some t.
Proof.
  induction fuel as [|fuel IH]; intros fuel' tris bb depth t H Hle; [discriminate|].
  destruct fuel' as [|fuel']; [lia|].
  rewrite build_S in *.
  destruct (split p m tris bb depth) as [[[[a pos] l] r]|]; [|exact H].
  destruct (build p fuel m l _ _) as [tl|] eqn:El; [|discriminate].
  destruct (build p fuel m r _ _) as [tr|] eqn:Er; [|discriminate].
  rewrite (IH fuel' _ _ _ _ El ltac:(lia)), (IH fuel' _ _ _ _ Er ltac:(lia)).
  exact H.
Qed.

Lemma build_fuel_irrelevant (p : policy) (m : mesh) (f1 f2 : nat) (tris : list nat)
      (bb : AABB) (depth : nat) (t1 t2 : node) :
  build p f1 m tris bb depth = Some t1 ->
  build p f2 m tris bb depth = Some t2 -> t1 = t2.
Proof.
  intros H1 H2.
  apply (build_fuel_mono p m f1 (Nat.max f1 f2)) in H1; [|lia].
  apply (build_fuel_mono p m f2 (Nat.max f1 f2)) in H2; [|lia].
  congruence.
Qed.

(** Every triangle of the set that has a box is in some leaf. *)
Lemma build_complete (p : policy) (m : mesh) (fuel : nat) :
  forall (tris : list nat) (bb : AABB) (depth : nat) (t : node) (i : nat),
    build p fuel m tris bb depth = Some t ->
    In i tris -> vertices m i <> [] ->
    exists ids, In ids (leaves t) /\ In i ids.
Proof.
  induction fuel as [|fuel IH]; intros tris bb depth t i H Hi Hv; [discriminate|].
  rewrite build_S in H.
  destruct (split p m tris bb depth) as [[[[a pos] l] r]|] eqn:E.
  - destruct (build p fuel m l _ _) as [tl|] eqn:El; [|discriminate].
    destruct (build p fuel m r _ _) as [tr|] eqn:Er; [|discriminate].
    injection H as <-.
    apply split_Some in E. destruct E as (lo & hi & _ & _ & _ & -> & -> & _).
    cbn [leaves].
    destruct (classified m a pos i Hv) as [Hc | Hc].
    + destruct (IH _ _ _ _ i El) as (ids & H1 & H2); trivial.
      { apply filter_In. auto. }
      exists ids. split; [apply in_or_app; now left | exact H2].
    + destruct (IH _ _ _ _ i Er) as (ids & H1 & H2); trivial.
      { apply filter_In. auto. }
      exists ids. split; [apply in_or_app; now right | exact H2].
  - injection H as <-. exists tris. split; [now left | exact Hi].
Qed.

(** The sets and boxes of the invocations. *)
Lemma invoked_spec (p : policy) (m : mesh) (tris : list nat) (bb : AABB) (depth : nat) :
  invoked p m tris bb depth ->
  bb = computeAABB m tris /\ forall i, In i tris -> (i < triangle_count m)%nat.
Proof.
  induction 1 as [| tris bb depth a pos l r Hinv [IHb IHt] Hs
                  | tris bb depth a pos l r Hinv [IHb IHt] Hs].
  - split; [reflexivity|]. intros i Hi. unfold all_triangles in Hi.
    apply in_seq in Hi. lia.
  - split; [reflexivity|]. intros i Hi.
    apply split_Some in Hs. destruct Hs as (lo & hi & _ & _ & _ & -> & _).
    apply filter_In in Hi. apply IHt, Hi.
  - split; [reflexivity|]. intros i Hi.
    apply split_Some in Hs. destruct Hs as (lo & hi & _ & _ & _ & _ & -> & _).
    apply filter_In in Hi. apply IHt, Hi.
Qed.

(** Every node of a tree returned by an invocation was itself returned by an
    invocation. *)
Lemma subtree_invoked (p : policy) (m : mesh) (n t : node) :
  subtree n t ->
  forall (fuel : nat) (tris : list nat) (bb : AABB) (depth : nat),
    invoked p m tris bb depth ->
    build p fuel m tris bb depth = Some t ->
    exists tris' bb' depth' fuel',
      invoked p m tris' bb' depth' /\ build p fuel' m tris' bb' depth' = Some n.
Proof.
  induction 1 as [| a pos l r Hsub IH | a pos l r Hsub IH];
    intros fuel tris bb depth Hinv Hb.
  - exists tris, bb, depth, fuel. split; assumption.
  - apply build_internal in Hb. destruct Hb as (f & sl & sr & _ & Hs & Hl & Hr).
    apply (IH f sl (computeAABB m sl) (S depth)); [|exact Hl].
    eapply invoked_left; eassumption.
  - apply build_internal in Hb. destruct Hb as (f & sl & sr & _ & Hs & Hl & Hr).
    apply (IH f sr (computeAABB m sr) (S depth)); [|exact Hr].
    eapply invoked_right; eassumption.
Qed.

Lemma vertices_nonempty (m : mesh) (t : nat) :
  well_formed m = true -> (t < triangle_count m)%nat -> vertices m t <> [].
Proof.
  intros Hwf Ht E. pose proof (vertices_length m t Hwf Ht) as Hl.
  rewrite E in Hl. discriminate.
Qed.

(** *** The plane of a node *)

Lemma Qle_bool_false (a b : Q) : Qle_bool a b = false -> b < a.
Proof.
  intros H. destruct (Qlt_le_dec b a) as [Hlt | Hle]; [exact Hlt|].
  apply Qle_bool_iff in Hle. congruence.
Qed.

Lemma longest_axis_spec (lo hi : vec3) :
  (forall a', extent a' lo hi <= extent (longest_axis lo hi) lo hi) /\
  (forall a', extent a' lo hi == extent (longest_axis lo hi) lo hi ->
              (axis_rank (longest_axis lo hi) <= axis_rank a')%nat).
Proof.
  unfold longest_axis.
  destruct (Qle_bool (extent axis_y lo hi) (extent axis_x lo hi)) eqn:Eyx;
    destruct (Qle_bool (extent axis_z lo hi) (extent axis_x lo hi)) eqn:Ezx;
    destruct (Qle_bool (extent axis_z lo hi) (extent axis_y lo hi)) eqn:Ezy;
    cbn [andb];
    repeat match goal with
           | H : Qle_bool _ _ = true |- _ => apply Qle_bool_iff in H
           | H : Qle_bool _ _ = false |- _ => apply Qle_bool_false in H
           end;
    (split; intros a'; destruct a'; cbn [axis_rank]; intros; try lia; lra).
Qed.

Lemma midpoint_half (lo hi : Q) : midpoint lo hi == (lo + hi) * (1 # 2).
Proof. unfold midpoint, Qdiv. reflexivity. Qed.

Lemma filter_drops {A : Type} (f : A -> bool) (l : list A) :
  (length (List.filter f l) < length l)%nat -> exists x, In x l /\ f x = false.
Proof.
  induction l as [|x l IH]; cbn; [lia|].
  destruct (f x) eqn:E; cbn; intros H.
  - destruct IH as (y & Hy & Hf); [lia|]. exists y. auto.
  - exists x. auto.
Qed.

Lemma filter_keeps_all {A : Type} (f : A -> bool) (l : list A) :
  (forall x, In x l -> f x = true) -> List.filter f l = l.
Proof.
  induction l as [|x l IH]; cbn; intros H; [reflexivity|].
  rewrite (H x) by now left. f_equal. apply IH. intros y Hy. apply H. now right.
Qed.

Lemma in_computeAABB (m : mesh) (tris : list nat) (i : nat) (v : vec3) :
  In i tris -> In v (vertices m i) -> In v (flat_map (vertices m) tris).
Proof. intros Hi Hv. apply in_flat_map. eauto. Qed.

(** The plane of an invocation that splits lies strictly inside the box. *)
Lemma split_strictly_inside (p : policy) (m : mesh) (tris : list nat) (lo hi : vec3)
      (depth : nat) (a : axis) (position : Q) (l r : list nat) :
  well_formed m = true ->
  (forall i, In i tris -> (i < triangle_count m)%nat) ->
  box lo hi = computeAABB m tris ->
  split p m tris (box lo hi) depth = Some (a, position, l, r) ->
  coord a lo < position /\ position < coord a hi.
Proof.
  intros Hwf Hvalid Hbb Hs. apply split_Some in Hs.
  destruct Hs as (lo' & hi' & Hb & _ & _ & -> & -> & Hl & Hr & _).
  injection Hb as <- <-. symmetry in Hbb. unfold computeAABB in Hbb.
  apply filter_drops in Hl. destruct Hl as (t1 & Ht1 & Hf1).
  apply filter_drops in Hr. destruct Hr as (t2 & Ht2 & Hf2).
  destruct (triangle_box m t1 (vertices_nonempty m t1 Hwf (Hvalid _ Ht1)))
    as (lo1 & hi1 & v1 & E1 & Hv1 & Hb1).
  destruct (triangle_box m t2 (vertices_nonempty m t2 Hwf (Hvalid _ Ht2)))
    as (lo2 & hi2 & v2 & E2 & Hv2 & Hb2).
  unfold at_or_below in Hf1. rewrite E1 in Hf1. apply Qle_bool_false in Hf1.
  unfold at_or_above in Hf2. rewrite E2 in Hf2. apply Qle_bool_false in Hf2.
  pose proof (bound_points_encloses _ lo hi a Hbb v1 (in_computeAABB m tris t1 v1 Ht1 Hv1))
    as [_ Hhi].
  pose proof (bound_points_encloses _ lo hi a Hbb v2 (in_computeAABB m tris t2 v2 Ht2 Hv2))
    as [Hlo _].
  destruct (Hb1 a) as [H1 _]. destruct (Hb2 a) as [_ H2].
  split; lra.
Qed.

(** *** The stated properties *)

(** C1. When [build_bsp_tree] returns a tree, every triangle index of the
    mesh is in the id list of at least one leaf; and at every invocation
    that produced an internal node, a triangle of the invocation's set whose
    own box straddles the node's plane is in a leaf under the left child and
    in a leaf under the right child. *)
Theorem every_triangle_in_a_leaf (p : policy) (fuel : nat) (m : mesh)
        (root : AABB) (t : node) :
  build_bsp_tree p fuel m = built root t ->
  (forall i, (i < triangle_count m)%nat -> exists ids, In ids (leaves t) /\ In i ids) /\
  (forall tris bb depth fuel' a position tl tr i,
      invoked p m tris bb depth ->
      build p fuel' m tris bb depth = Some (internal a position tl tr) ->
      In i tris -> straddles m a position i ->
      (exists ids, In ids (leaves tl) /\ In i ids) /\
      (exists ids, In ids (leaves tr) /\ In i ids)).
Proof.
  unfold build_bsp_tree. intros H.
  destruct (well_formed m) eqn:Hwf; [|discriminate].
  destruct (build p fuel m (all_triangles m) _ 0) as [t'|] eqn:Hb; [|discriminate].
  injection H as <- <-. split.
  - intros i Hi. apply (build_complete p m fuel _ _ _ _ i Hb).
    + unfold all_triangles. apply in_seq. lia.
    + apply vertices_nonempty; assumption.
  - intros tris bb depth fuel' a pos tl tr i Hinv Hbuild Hi (lo & hi & Hbox & Hlo & Hhi).
    apply build_internal in Hbuild.
    destruct Hbuild as (f & l & r & -> & Hs & Hl & Hr).
    apply split_Some in Hs. destruct Hs as (lo' & hi' & _ & _ & _ & -> & -> & _).
    assert (Hv : vertices m i <> []).
    { rewrite computeAABB_single in Hbox. intros E. rewrite E in Hbox. discriminate. }
    split.
    + apply (build_complete p m f _ _ _ _ i Hl); [|exact Hv].
      apply filter_In. split; [exact Hi|].
      unfold at_or_below. rewrite Hbox. apply Qle_bool_iff. exact Hlo.
    + apply (build_complete p m f _ _ _ _ i Hr); [|exact Hv].
      apply filter_In. split; [exact Hi|].
      unfold at_or_above. rewrite Hbox. apply Qle_bool_iff. exact Hhi.
Qed.

Lemma every_triangle_in_a_leaf_witness :
  build_bsp_tree sample_policy 21 three_triangles
  = built (box {| x := 0; y := 0; z := 0 |} {| x := 4; y := 1; z := 0 |})
          (internal axis_x (4 # 2)
             (internal axis_x (5 # 4) (leaf [0%nat]) (leaf [2%nat]))
             (internal axis_x (11 # 4) (leaf [2%nat]) (leaf [1%nat]))) /\
  (exists ids, In ids [[0%nat]; [2%nat]; [2%nat]; [1%nat]] /\ In 2%nat ids) /\
  (exists ids, In ids [[0%nat]; [2%nat]] /\ In 2%nat ids) /\
  (exists ids, In ids [[2%nat]; [1%nat]] /\ In 2%nat ids).
Proof.
  assert (E : build_bsp_tree sample_policy 21 three_triangles
              = built (box {| x := 0; y := 0; z := 0 |} {| x := 4; y := 1; z := 0 |})
                  (internal axis_x (4 # 2)
                     (internal axis_x (5 # 4) (leaf [0%nat]) (leaf [2%nat]))
                     (internal axis_x (11 # 4) (leaf [2%nat]) (leaf [1%nat]))))
    by (vm_compute; reflexivity).
  destruct (every_triangle_in_a_leaf _ _ _ _ _ E) as [Hall Hboth].
  split; [exact E|]. split; [exact (Hall 2%nat ltac:(cbn; lia))|].
  apply (Hboth (all_triangles three_triangles) _ 0%nat 21%nat axis_x (4 # 2)
               (internal axis_x (5 # 4) (leaf [0%nat]) (leaf [2%nat]))
               (internal axis_x (11 # 4) (leaf [2%nat]) (leaf [1%nat])) 2%nat
               (invoked_root sample_policy three_triangles)).
  - vm_compute. reflexivity.
  - cbn. auto.
  - exists {| x := 3 # 2; y := 0; z := 0 |}, {| x := 5 # 2; y := 1; z := 0 |}.
    split; [vm_compute; reflexivity|]. cbn. split; discriminate.
Defined.

Lemma coincident_all_left (p : policy) (m : mesh) (lo hi : vec3) (a : axis) :
  well_formed m = true -> coincident m ->
  computeAABB m (all_triangles m) = box lo hi ->
  forall i, In i (all_triangles m) ->
    at_or_below m a (midpoint (coord a lo) (coord a hi)) i = true.
Proof.
  intros Hwf Hco Hbb i Hi.
  assert (Hlt : (i < triangle_count m)%nat).
  { unfold all_triangles in Hi. apply in_seq in Hi. lia. }
  destruct (triangle_box m i (vertices_nonempty m i Hwf Hlt))
    as (lo_i & hi_i & v & Ei & _ & _).
  unfold at_or_below. rewrite Ei. apply Qle_bool_iff.
  unfold computeAABB in Hbb.
  destruct (bound_points_lo_attained _ lo hi a Hbb) as (q & Hq & Hqe).
  apply in_flat_map in Hq. destruct Hq as (j & Hj & Hqj).
  assert (Hjt : (j < triangle_count m)%nat).
  { unfold all_triangles in Hj. apply in_seq in Hj. lia. }
  rewrite (Hco j Hjt), <- (Hco i Hlt) in Hqj.
  rewrite computeAABB_single in Ei.
  destruct (bound_points_encloses _ lo_i hi_i a Ei q Hqj) as [Hlow _].
  pose proof (box_lo_le_hi _ lo hi a Hbb) as Hle.
  rewrite midpoint_half. lra.
Qed.

(** C2. [build] returns for every input once the fuel exceeds the number of
    levels that may still be opened; it returns the leaf holding the whole
    set when the set is smaller than the threshold or the depth has reached
    the maximum, and when the classification sends the whole set to one
    child; and a well-formed mesh of coincident triangles is built into the
    single leaf holding all of them. *)
Theorem build_terminates (p : policy) (m : mesh) :
  (forall tris bb depth fuel,
      (max_depth p - depth < fuel)%nat ->
      exists t, build p fuel m tris bb depth = Some t) /\
  (forall tris bb depth fuel,
      (length tris < threshold p)%nat \/ (max_depth p <= depth)%nat ->
      build p (S fuel) m tris bb depth = Some (leaf tris)) /\
  (forall tris lo hi depth fuel,
      (forall i, In i tris ->
         at_or_below m (longest_axis lo hi)
           (midpoint (coord (longest_axis lo hi) lo) (coord (longest_axis lo hi) hi)) i
         = true) \/
      (forall i, In i tris ->
         at_or_above m (longest_axis lo hi)
           (midpoint (coord (longest_axis lo hi) lo) (coord (longest_axis lo hi) hi)) i
         = true) ->
      build p (S fuel) m tris (box lo hi) depth = Some (leaf tris)) /\
  (well_formed m = true -> coincident m ->
   forall fuel,
     build_bsp_tree p (S fuel) m
     = built (computeAABB m (all_triangles m)) (leaf (all_triangles m))).
Proof.
  split; [|split; [|split]].
  - intros tris bb depth fuel Hf. apply build_enough_fuel. exact Hf.
  - intros tris bb depth fuel H. rewrite build_S. unfold split.
    assert ((length tris <? threshold p)%nat || (max_depth p <=? depth)%nat = true) as ->.
    { apply orb_true_iff. destruct H; [left; apply Nat.ltb_lt | right; apply Nat.leb_le]; lia. }
    reflexivity.
  - intros tris lo hi depth fuel H. rewrite build_S. unfold split.
    destruct ((length tris <? threshold p)%nat || (max_depth p <=? depth)%nat);
      [reflexivity|].
    destruct H as [H | H]; rewrite (filter_keeps_all _ _ H), Nat.eqb_refl;
      [|rewrite orb_true_r]; reflexivity.
  - intros Hwf Hco fuel. unfold build_bsp_tree. rewrite Hwf, build_S. unfold split.
    destruct ((length (all_triangles m) <? threshold p)%nat || (max_depth p <=? 0)%nat);
      [reflexivity|].
    destruct (computeAABB m (all_triangles m)) as [|lo hi] eqn:Hbb; [reflexivity|].
    rewrite (filter_keeps_all _ _ (coincident_all_left p m lo hi _ Hwf Hco Hbb)).
    rewrite Nat.eqb_refl. reflexivity.
Qed.

Lemma build_terminates_witness :
  (exists t, build sample_policy 21 three_triangles (all_triangles three_triangles)
                   (computeAABB three_triangles (all_triangles three_triangles)) 0
             = Some t) /\
  build_bsp_tree sample_policy 1 coincident_triangles
  = built (box {| x := 0; y := 0; z := 0 |} {| x := 1; y := 1; z := 0 |})
          (leaf [0; 1; 2]%nat).
Proof.
  destruct (build_terminates sample_policy three_triangles) as (Hfuel & _).
  destruct (build_terminates sample_policy coincident_triangles) as (_ & _ & _ & Hco).
  split.
  - apply Hfuel. cbn. lia.
  - apply (Hco eq_refl).
    intros t Ht. cbn in Ht.
    destruct t as [|[|[|t]]]; [reflexivity | reflexivity | reflexivity | lia].
Defined.

(** C3. At every invocation of a run on a well-formed mesh that produced an
    internal node, the node's axis is one of greatest extent of the
    invocation's box, no axis earlier in the order x, y, z has the same
    extent, and the node's position is the midpoint of the box along that
    axis and lies strictly between the box's two faces. *)
Theorem split_plane (p : policy) (m : mesh) (tris : list nat) (lo hi : vec3)
        (depth fuel : nat) (a : axis) (position : Q) (tl tr : node) :
  well_formed m = true ->
  invoked p m tris (box lo hi) depth ->
  build p fuel m tris (box lo hi) depth = Some (internal a position tl tr) ->
  (forall a', extent a' lo hi <= extent a lo hi) /\
  (forall a', extent a' lo hi == extent a lo hi -> (axis_rank a <= axis_rank a')%nat) /\
  position == (coord a lo + coord a hi) / 2 /\
  coord a lo < position /\ position < coord a hi.
Proof.
  intros Hwf Hinv Hb.
  apply build_internal in Hb. destruct Hb as (f & l & r & _ & Hs & _ & _).
  destruct (invoked_spec p m tris _ depth Hinv) as [Hbb Hvalid].
  pose proof (split_strictly_inside p m tris lo hi depth a position l r
                Hwf Hvalid Hbb Hs) as [Hlo Hhi].
  apply split_Some in Hs.
  destruct Hs as (lo' & hi' & Hbox & Ha & Hpos & _).
  injection Hbox as <- <-.
  destruct (longest_axis_spec lo hi) as [Hmax Htie]. rewrite <- Ha in Hmax, Htie.
  split; [exact Hmax|]. split; [exact Htie|].
  split; [rewrite Hpos; reflexivity|]. split; assumption.
Qed.

Lemma split_plane_witness :
  (4 # 2) == (0 + 4) / 2 /\ 0 < (4 # 2) /\ (4 # 2) < 4.
Proof.
  destruct (split_plane sample_policy three_triangles (all_triangles three_triangles)
              {| x := 0; y := 0; z := 0 |} {| x := 4; y := 1; z := 0 |}
              0 21 axis_x (4 # 2)
              (internal axis_x (5 # 4) (leaf [0%nat]) (leaf [2%nat]))
              (internal axis_x (11 # 4) (leaf [2%nat]) (leaf [1%nat]))
              eq_refl (invoked_root sample_policy three_triangles) eq_refl)
    as (_ & _ & H).
  exact H.
Defined.

(** *** Runs of the construction *)

Lemma axes_complete (a : axis) : In a axes.
Proof. destruct a; cbn; auto. Qed.

Lemma decisive_spec (tb : tie_break) (a a' : axis) :
  decisive tb = true -> tb a a' = true -> tb a' a = true -> a = a'.
Proof.
  unfold decisive. rewrite forallb_forall. intros H H1 H2.
  specialize (H a (axes_complete a)). rewrite forallb_forall in H.
  specialize (H a' (axes_complete a')). rewrite H1, H2 in H.
  destruct a, a'; first [reflexivity | discriminate H].
Qed.

Lemma admissible_spec (tb : tie_break) (lo hi : vec3) (a : axis) :
  admissible tb lo hi a = true <->
  forall a', extent a' lo hi <= extent a lo hi /\
             (extent a' lo hi == extent a lo hi -> tb a a' = true).
Proof.
  unfold admissible. rewrite forallb_forall. split.
  - intros H a'. specialize (H a' (axes_complete a')).
    apply andb_true_iff in H. destruct H as [H1 H2]. split.
    + apply Qle_bool_iff. exact H1.
    + intros E. apply orb_true_iff in H2. destruct H2 as [H2|H2]; [|exact H2].
      apply negb_true_iff in H2. apply Qeq_bool_iff in E. congruence.
  - intros H a' _. destruct (H a') as [H1 H2]. apply andb_true_iff. split.
    + apply Qle_bool_iff. exact H1.
    + destruct (Qeq_bool (extent a' lo hi) (extent a lo hi)) eqn:E; cbn; [|reflexivity].
      apply H2, Qeq_bool_iff, E.
Qed.

(** A decisive tie-break leaves one axis to take. *)
Lemma admissible_unique (tb : tie_break) (lo hi : vec3) (a1 a2 : axis) :
  decisive tb = true ->
  admissible tb lo hi a1 = true -> admissible tb lo hi a2 = true -> a1 = a2.
Proof.
  intros Hd H1 H2. rewrite admissible_spec in H1, H2.
  destruct (H1 a2) as [L1 T1]. destruct (H2 a1) as [L2 T2].
  apply (decisive_spec tb); [exact Hd| |].
  - apply T1. apply Qle_antisym; assumption.
  - apply T2. apply Qle_antisym; assumption.
Qed.

(** The axis of the sequential builder is the one the rule admits under
    the specification's tie-break. *)
Lemma admissible_longest_axis (lo hi : vec3) :
  admissible x_then_y_then_z lo hi (longest_axis lo hi) = true.
Proof.
  apply admissible_spec. intros a'.
  destruct (longest_axis_spec lo hi) as [Hmax Hfirst]. split; [apply Hmax|].
  intros E. apply Nat.leb_le, Hfirst, E.
Qed.

Lemma invoke_unique (p : policy) (tb : tie_break) (m : mesh) (tris : list nat)
      (bb : AABB) (depth : nat) (a1 a2 : axis) (c1 c2 : construction) :
  decisive tb = true ->
  invoke p tb m tris bb depth a1 = Some c1 ->
  invoke p tb m tris bb depth a2 = Some c2 -> c1 = c2.
Proof.
  intros Hd. unfold invoke.
  destruct ((length tris <? threshold p)%nat || (max_depth p <=? depth)%nat);
    [congruence|].
  destruct bb as [|lo hi]; [congruence|].
  destruct (admissible tb lo hi a1) eqn:A1; [|discriminate].
  destruct (admissible tb lo hi a2) eqn:A2; [|discriminate].
  rewrite (admissible_unique tb lo hi a1 a2 Hd A1 A2). congruence.
Qed.

Lemma yields_deterministic (p : policy) (tb : tie_break) (m : mesh)
      (c : construction) (t1 : node) :
  decisive tb = true ->
  yields p tb m c t1 -> forall t2, yields p tb m c t2 -> t1 = t2.
Proof.
  intros Hd H. induction H as [ids|tris bb depth a c t Hi Hy IH|a pos l r tl tr Hl IHl Hr IHr];
    intros t2 H2; inversion H2; subst.
  - reflexivity.
  - apply IH. rewrite (invoke_unique p tb m tris bb depth a a0 c c0 Hd Hi); assumption.
  - f_equal; [apply IHl | apply IHr]; assumption.
Qed.

(** A move does not change the tree the construction ends in. *)
Lemma advance_yields (p : policy) (tb : tie_break) (m : mesh) (a : axis) :
  forall (c : construction) (path : list side) (c' : construction) (t : node),
    advance p tb m path a c = Some c' -> yields p tb m c' t -> yields p tb m c t.
Proof.
  induction c as [tris bb depth|ids|a' pos l IHl r IHr]; intros path c' t H Hy.
  - destruct path; [|discriminate]. cbn [advance] in H.
    eapply yields_pending; eassumption.
  - destruct path; discriminate.
  - destruct path as [|[|] path]; [discriminate| |]; cbn [advance] in H.
    + destruct (advance p tb m path a l) as [l'|] eqn:E; [|discriminate].
      cbn in H. injection H as <-. inversion Hy; subst.
      apply yields_branch; [|assumption]. eapply IHl; eassumption.
    + destruct (advance p tb m path a r) as [r'|] eqn:E; [|discriminate].
      cbn in H. injection H as <-. inversion Hy; subst.
      apply yields_branch; [assumption|]. eapply IHr; eassumption.
Qed.

Lemma result_yields (p : policy) (tb : tie_break) (m : mesh) :
  forall (c : construction) (t : node), result c = Some t -> yields p tb m c t.
Proof.
  induction c as [tris bb depth|ids|a pos l IHl r IHr]; intros t H; cbn [result] in H.
  - discriminate.
  - injection H as <-. constructor.
  - destruct (result l) as [tl|]; [|discriminate].
    destruct (result r) as [tr|]; [|discriminate].
    injection H as <-. constructor; auto.
Qed.

Lemma advance_all_yields (p : policy) (tb : tie_break) (m : mesh) :
  forall (run : schedule) (c c' : construction) (t : node),
    advance_all p tb m run c = Some c' -> result c' = Some t -> yields p tb m c t.
Proof.
  induction run as [|[path a] run IH]; intros c c' t H Hr; cbn [advance_all] in H.
  - injection H as <-. apply result_yields, Hr.
  - destruct (advance p tb m path a c) as [c1|] eqn:E; [|discriminate].
    eapply advance_yields; [exact E|]. eapply IH; eassumption.
Qed.

Lemma construct_yields (p : policy) (tb : tie_break) (m : mesh) (run : schedule)
      (t : node) :
  construct p tb m run = Some t ->
  yields p tb m (pending (all_triangles m) (computeAABB m (all_triangles m)) 0) t.
Proof.
  unfold construct. destruct (well_formed m); [|discriminate].
  destruct (advance_all p tb m run _) as [c|] eqn:E; [|discriminate].
  intros Hr. eapply advance_all_yields; eassumption.
Qed.

(** The sequential builder makes the move the rule admits. *)
Lemma invoke_split (p : policy) (m : mesh) (tris : list nat) (bb : AABB) (depth : nat) :
  invoke p x_then_y_then_z m tris bb depth (axis_of bb) =
  Some match split p m tris bb depth with
       | None => emitted tris
       | Some (a, position, l, r) =>
           branch a position (pending l (computeAABB m l) (S depth))
                  (pending r (computeAABB m r) (S depth))
       end.
Proof.
  unfold invoke, split.
  destruct ((length tris <? threshold p)%nat || (max_depth p <=? depth)%nat);
    [reflexivity|].
  destruct bb as [|lo hi]; [reflexivity|]. cbn [axis_of].
  rewrite admissible_longest_axis. cbv zeta.
  match goal with |- context [if ?b then _ else _] => destruct b end; reflexivity.
Qed.

Lemma advance_all_app (p : policy) (tb : tie_break) (m : mesh) (run1 run2 : schedule) :
  forall c : construction,
    advance_all p tb m (run1 ++ run2) c =
    match advance_all p tb m run1 c with
    | Some c' => advance_all p tb m run2 c'
    | None => None
    end.
Proof.
  induction run1 as [|[path a] run1 IH]; intros c; cbn [app advance_all]; [reflexivity|].
  destruct (advance p tb m path a c); [apply IH | reflexivity].
Qed.

Lemma advance_all_left (p : policy) (tb : tie_break) (m : mesh) (a : axis)
      (position : Q) (r : construction) (run : schedule) :
  forall l l' : construction,
    advance_all p tb m run l = Some l' ->
    advance_all p tb m (under go_left run) (branch a position l r)
    = Some (branch a position l' r).
Proof.
  induction run as [|[path a0] run IH]; intros l l' H; cbn [advance_all] in H.
  - injection H as <-. reflexivity.
  - destruct (advance p tb m path a0 l) as [l1|] eqn:E; [|discriminate].
    cbn [under map fst snd advance_all advance]. rewrite E. cbn [option_map].
    apply IH, H.
Qed.

Lemma advance_all_right (p : policy) (tb : tie_break) (m : mesh) (a : axis)
      (position : Q) (l : construction) (run : schedule) :
  forall r r' : construction,
    advance_all p tb m run r = Some r' ->
    advance_all p tb m (under go_right run) (branch a position l r)
    = Some (branch a position l r').
Proof.
  induction run as [|[path a0] run IH]; intros r r' H; cbn [advance_all] in H.
  - injection H as <-. reflexivity.
  - destruct (advance p tb m path a0 r) as [r1|] eqn:E; [|discriminate].
    cbn [under map fst snd advance_all advance]. rewrite E. cbn [option_map].
    apply IH, H.
Qed.

(** What the sequential builder returns is the outcome of a run: the one
    that finishes the left subtree before it starts the right one. *)
Lemma build_is_a_run (p : policy) (m : mesh) (fuel : nat) :
  forall (tris : list nat) (bb : AABB) (depth : nat) (t : node),
    build p fuel m tris bb depth = Some t ->
    exists run c,
      advance_all p x_then_y_then_z m run (pending tris bb depth) = Some c /\
      result c = Some t.
Proof.
  induction fuel as [|fuel IH]; intros tris bb depth t H; [discriminate|].
  rewrite build_S in H. pose proof (invoke_split p m tris bb depth) as Hi.
  destruct (split p m tris bb depth) as [[[[a position] l] r]|].
  - destruct (build p fuel m l _ _) as [tl|] eqn:El; [|discriminate].
    destruct (build p fuel m r _ _) as [tr|] eqn:Er; [|discriminate].
    injection H as <-.
    destruct (IH _ _ _ _ El) as (runl & cl & Hl & Rl).
    destruct (IH _ _ _ _ Er) as (runr & cr & Hr & Rr).
    exists (([], axis_of bb) :: under go_left runl ++ under go_right runr),
           (branch a position cl cr).
    split.
    + cbn [advance_all advance]. rewrite Hi, advance_all_app.
      rewrite (advance_all_left _ _ _ _ _ _ _ _ _ Hl).
      apply advance_all_right, Hr.
    + cbn [result]. rewrite Rl, Rr. reflexivity.
  - injection H as <-. exists [([], axis_of bb)], (emitted tris). split.
    + cbn [advance_all advance]. rewrite Hi. reflexivity.
    + reflexivity.
Qed.

Lemma build_bsp_tree_is_a_run (p : policy) (m : mesh) (fuel : nat) (root : AABB)
      (t : node) :
  build_bsp_tree p fuel m = built root t ->
  exists run, construct p x_then_y_then_z m run = Some t.
Proof.
  unfold build_bsp_tree, construct. destruct (well_formed m); [|discriminate].
  destruct (build p fuel m _ _ 0) as [t'|] eqn:E; [|discriminate].
  intros H. injection H as _ <-.
  destruct (build_is_a_run _ _ _ _ _ _ _ E) as (run & c & Hrun & Hres).
  exists run. rewrite Hrun. exact Hres.
Qed.

(** Every well-formed mesh has a run that ends in a tree. *)
Lemma construct_total (p : policy) (m : mesh) :
  well_formed m = true -> exists run t, construct p x_then_y_then_z m run = Some t.
Proof.
  intros Hw.
  destruct (build_enough_fuel p m (S (max_depth p)) (all_triangles m)
              (computeAABB m (all_triangles m)) 0) as [t Ht]; [lia|].
  destruct (build_bsp_tree_is_a_run p m (S (max_depth p))
              (computeAABB m (all_triangles m)) t) as [run Hrun].
  - unfold build_bsp_tree. rewrite Hw, Ht. reflexivity.
  - exists run, t. exact Hrun.
Qed.

(** With the ties left open the outcome depends on the run: on
    [tied_triangles] one run splits along x into two leaves, another takes
    y, finds the split degenerate and ends in a single leaf. *)
Lemma open_ties_two_trees :
  decisive open_ties = false /\
  construct sample_policy open_ties tied_triangles
            [([], axis_x); ([go_left], axis_x); ([go_right], axis_x)]
  = Some (internal axis_x (4 # 2) (leaf [0%nat]) (leaf [1%nat])) /\
  construct sample_policy open_ties tied_triangles [([], axis_y)]
  = Some (leaf [0%nat; 1%nat]).
Proof. split; [|split]; vm_compute; reflexivity. Qed.

(** C4. The builder is deterministic.  Take a mesh and policy constants:
    threshold, maximum depth, and a tie-break that decides every tie.  Two
    runs of tree construction, which may make the invocations of [build] in
    different orders, that both end in a tree end in the same tree: same
    node count, same triangle ids at every leaf.  Under the specification's
    tie-break (x, then y, then z) that tree is the one [build_bsp_tree]
    returns. *)
Theorem build_deterministic (p : policy) (tb : tie_break) (m : mesh)
        (run1 run2 : schedule) (t1 t2 : node) :
  decisive tb = true ->
  construct p tb m run1 = Some t1 ->
  construct p tb m run2 = Some t2 ->
  t1 = t2 /\ node_count t1 = node_count t2 /\ leaves t1 = leaves t2 /\
  (tb = x_then_y_then_z ->
   forall (fuel : nat) (root : AABB) (t : node),
     build_bsp_tree p fuel m = built root t -> t = t1).
Proof.
  intros Hd H1 H2.
  pose proof (construct_yields _ _ _ _ _ H1) as Y1.
  pose proof (construct_yields _ _ _ _ _ H2) as Y2.
  pose proof (yields_deterministic _ _ _ _ _ Hd Y1 _ Y2) as E.
  split; [exact E|]. rewrite E. split; [reflexivity|]. split; [reflexivity|].
  intros -> fuel root t Hb.
  destruct (build_bsp_tree_is_a_run _ _ _ _ _ Hb) as [run Hrun].
  pose proof (construct_yields _ _ _ _ _ Hrun) as Y.
  exact (yields_deterministic _ _ _ _ _ Hd Y _ Y2).
Qed.

Lemma build_deterministic_witness :
  decisive x_then_y_then_z = true /\
  construct sample_policy x_then_y_then_z three_triangles left_first
  = Some three_triangles_tree /\
  construct sample_policy x_then_y_then_z three_triangles alternating
  = Some three_triangles_tree /\
  node_count three_triangles_tree = 7%nat /\
  (three_triangles_tree = three_triangles_tree /\
   node_count three_triangles_tree = node_count three_triangles_tree /\
   leaves three_triangles_tree = leaves three_triangles_tree /\
   (x_then_y_then_z = x_then_y_then_z ->
    forall (fuel : nat) (root : AABB) (t : node),
      build_bsp_tree sample_policy fuel three_triangles = built root t ->
      t = three_triangles_tree)).
Proof.
  split; [reflexivity|]. split; [vm_compute; reflexivity|].
  split; [vm_compute; reflexivity|]. split; [reflexivity|].
  apply (build_deterministic sample_policy x_then_y_then_z three_triangles
           left_first alternating); vm_compute; reflexivity.
Defined.

End BspTreeFacts.

(* --------------------------------------------------------------------- *)
(** ** Loops                                                              *)
(* --------------------------------------------------------------------- *)

Module JSFacts.
Import JS.

Lemma for_loop_invariant {St : Type} (P : nat -> St -> Prop) (body : nat -> St -> St)
      (n : nat) :
  forall (i : nat) (st : St),
    P i st ->
    (forall k s, (i <= k < i + n)%nat -> P k s -> P (S k) (body k s)) ->
    P (i + n)%nat (for_loop n i body st).
Proof.
  induction n as [|n IH]; intros i st H0 Hstep; cbn [for_loop].
  - now rewrite Nat.add_0_r.
  - replace (i + S n)%nat with (S i + n)%nat by lia. apply IH.
    + apply Hstep; [lia | exact H0].
    + intros k s Hk. apply Hstep. lia.
Qed.

Lemma for_loop_from_zero {St : Type} (P : nat -> St -> Prop) (body : nat -> St -> St)
      (n : nat) (st : St) :
  P 0%nat st ->
  (forall k s, (k < n)%nat -> P k s -> P (S k) (body k s)) ->
  P n (for_loop n 0 body st).
Proof.
  intros H0 Hstep. apply (for_loop_invariant P body n 0 st H0).
  intros k s Hk. apply Hstep. lia.
Qed.

End JSFacts.

(* --------------------------------------------------------------------- *)
(** ** The material color table                                           *)
(* --------------------------------------------------------------------- *)

Module MaterialsFacts.
Import JS Demo Materials.

Lemma record_flat_map {A B : Type} (f : A -> list B) (n : nat) (l : list A) :
  (forall y, length (f y) = n) ->
  forall i x, l !! i = Some x -> take n (drop (i * n) (flat_map f l)) = f x.
Proof.
  intros Hlen. induction l as [|y l IH]; intros i x Hi; [discriminate|].
  cbn [flat_map]. destruct i as [|i].
  - injection Hi as ->. cbn [Nat.mul drop].
    rewrite <- (Hlen x) at 1. apply take_app_length.
  - cbn in Hi. replace (S i * n)%nat with (length (f y) + i * n)%nat by (rewrite Hlen; lia).
    rewrite drop_app_add. apply IH. exact Hi.
Qed.

Lemma record_beyond {A B : Type} (f : A -> list B) (n : nat) (l : list A) (i : nat) :
  (forall y, length (f y) = n) ->
  (length l <= i)%nat -> take n (drop (i * n) (flat_map f l)) = [].
Proof.
  intros Hlen Hi.
  assert (Hl : length (flat_map f l) = (length l * n)%nat).
  { induction l as [|y l IH]; [reflexivity|]. cbn [flat_map].
    rewrite length_app, Hlen. cbn [length]. rewrite IH by (cbn in Hi; lia). lia. }
  rewrite drop_ge; [apply take_nil|]. rewrite Hl. nia.
Qed.

Section Table.
Context {N : Type} `{Number N}.

Lemma length_pushed (v : variant) (mat : Material N) : length (pushed v mat) = stride v.
Proof. unfold pushed, stride. destruct (combines v); reflexivity. Qed.

Lemma matColors_flat_map (v : variant) (materials : list (Material N)) :
  matColors v materials = flat_map (pushed v) materials.
Proof.
  unfold matColors.
  rewrite (JSFacts.for_loop_from_zero
             (fun k acc => acc = flat_map (pushed v) (take k materials))).
  - now rewrite firstn_all.
  - reflexivity.
  - intros k acc Hk ->.
    destruct (lookup_lt_is_Some_2 materials k ltac:(lia)) as [mat Hmat].
    rewrite Hmat, (take_S_r _ _ _ Hmat), flat_map_app. cbn. now rewrite app_nil_r.
Qed.

Lemma color_table_flat_map (v : variant) (materials : list (Material N)) :
  color_table v materials = flat_map (fun mat => map fround (pushed v mat)) materials.
Proof.
  unfold color_table. rewrite matColors_flat_map.
  induction materials as [|mat l IH]; [reflexivity|].
  cbn [flat_map]. now rewrite map_app, IH.
Qed.

Lemma length_color_table (v : variant) (materials : list (Material N)) :
  length (color_table v materials) = (length materials * stride v)%nat.
Proof.
  rewrite color_table_flat_map.
  induction materials as [|mat l IH]; [reflexivity|].
  cbn [flat_map length]. rewrite length_app, length_map, length_pushed, IH. lia.
Qed.

End Table.

(** C6 as stated fails in the scripts that add emission to color
    (part_002, w06p01.js, w07p01.js, the first script of w06p03.js): the
    record is the component-wise sum, so a red surface that emits nothing
    and a black surface that emits red get the same record, and the table
    conveys neither the base color nor the emission color. *)
Lemma material_color_table_counterexample :
  color_table part_002 [red_surface] = color_table part_002 [red_light] /\
  color_table part_002 [red_surface] = [1; 0; 0; 1]%float /\
  color red_surface <> color red_light /\
  emission red_surface <> emission red_light.
Proof.
  split; [vm_compute; reflexivity|]. split; [vm_compute; reflexivity|].
  split; intros E; apply (f_equal (fun c => PrimFloat.eqb (r c) 1)) in E;
    vm_compute in E; discriminate.
Qed.

(** C6, amended.  The table holds exactly one record per material, in the
    order of the materials list, and the buffer is sized for exactly these
    records.  In part_007, both scripts of Project/source.js and the last
    two of w06p03.js a record is eight floats: the base color (r, g, b, a)
    followed by the emission color (r, g, b, a).  In part_002, w06p01.js,
    w07p01.js and the first script of w06p03.js a record is four floats:
    the sum of base and emission color, component by component. *)
Theorem material_color_table {N : Type} `{Number N}
        (v : variant) (materials : list (Material N)) :
  matColors v materials = flat_map (pushed v) materials /\
  length (color_table v materials) = (length materials * stride v)%nat /\
  color_buffer_size v materials = (4 * length (color_table v materials))%nat /\
  (forall i, (length materials <= i)%nat -> record v (color_table v materials) i = []) /\
  (forall i mat, materials !! i = Some mat ->
     record v (color_table v materials) i
     = if combines v then
         [ fround (plus (r (color mat)) (r (emission mat)));
           fround (plus (g (color mat)) (g (emission mat)));
           fround (plus (b (color mat)) (b (emission mat)));
           fround (plus (a (color mat)) (a (emission mat))) ]
       else
         [ fround (r (color mat)); fround (g (color mat));
           fround (b (color mat)); fround (a (color mat));
           fround (r (emission mat)); fround (g (emission mat));
           fround (b (emission mat)); fround (a (emission mat)) ]).
Proof.
  split; [apply matColors_flat_map|].
  split; [apply length_color_table|].
  split.
  { pose proof (length_color_table v materials) as Hl.
    rewrite Hl. unfold color_table in Hl. rewrite length_map in Hl.
    unfold color_buffer_size.
    destruct v; rewrite ?Hl; unfold stride; cbn [combines]; lia. }
  split.
  - intros i Hi. unfold record. rewrite color_table_flat_map.
    apply record_beyond; [|exact Hi].
    intros y. rewrite length_map. apply length_pushed.
  - intros i mat Hi. unfold record. rewrite color_table_flat_map.
    rewrite (record_flat_map _ (stride v) materials) with (x := mat); [| |exact Hi].
    + unfold pushed. destruct (combines v); reflexivity.
    + intros y. rewrite length_map. apply length_pushed.
Qed.

Lemma material_color_table_witness :
  record part_007 (color_table part_007 [red_surface; red_light]) 1
  = [0; 0; 0; 1; 1; 0; 0; 0]%float /\
  record w07p01 (color_table w07p01 [red_surface; red_light]) 1
  = [1; 0; 0; 1]%float.
Proof.
  destruct (material_color_table part_007 [red_surface; red_light])
    as (_ & _ & _ & _ & Hsep).
  destruct (material_color_table w07p01 [red_surface; red_light])
    as (_ & _ & _ & _ & Hsum).
  split.
  - rewrite (Hsep 1%nat red_light eq_refl). vm_compute. reflexivity.
  - rewrite (Hsum 1%nat red_light eq_refl). vm_compute. reflexivity.
Defined.

(** *** The two buffers of w05p04.js *)

Section Separate.
Context {N : Type} `{Number N}.

Lemma forEach_flat_map (materials : list (Material N)) (acc : list N * list N) :
  fold_left
    (fun (acc : list N * list N) material =>
       (fst acc ++ [r (color material); g (color material);
                    b (color material); a (color material)],
        snd acc ++ [r (emission material); g (emission material);
                    b (emission material); a (emission material)]))
    materials acc
  = (fst acc ++ flat_map (fun m => rgba (color m)) materials,
     snd acc ++ flat_map (fun m => rgba (emission m)) materials).
Proof.
  revert acc. induction materials as [|m l IH]; intros acc; cbn [fold_left flat_map].
  - rewrite !app_nil_r. now destruct acc.
  - rewrite IH. cbn [fst snd]. rewrite <- !app_assoc. reflexivity.
Qed.

Lemma map_flat_map {A : Type} (f : A -> list N) (h : N -> N) (l : list A) :
  map h (flat_map f l) = flat_map (fun x => map h (f x)) l.
Proof.
  induction l as [|x l IH]; [reflexivity|].
  cbn [flat_map]. now rewrite map_app, IH.
Qed.

Lemma length_flat_map_4 {A : Type} (f : A -> list N) (l : list A) :
  (forall x, length (f x) = 4%nat) -> length (flat_map f l) = (length l * 4)%nat.
Proof.
  intros Hf. induction l as [|x l IH]; [reflexivity|].
  cbn [flat_map length]. rewrite length_app, Hf, IH. lia.
Qed.

End Separate.

(** X11.  w05p04.js keeps the material colors and the emissions in two
    buffers of 16 bytes per material, each exactly as large as the array
    written to it, like the buffer of the material indices.  Material by
    material, the four floats of the first and the four floats of the second
    are the two halves of the eight-float record that part_007 and
    Project/source.js put in their single table. *)
Theorem createMaterialBuffers_halves {N : Type} `{Number N}
        (materials : list (Material N)) (mat_indices : list Z) :
  let buffers := createMaterialBuffers materials mat_indices in
  size (materialColorBuffer buffers) = (length materials * 16)%nat /\
  size (materialEmissionBuffer buffers) = (length materials * 16)%nat /\
  length (contents (materialColorBuffer buffers)) = (length materials * 4)%nat /\
  length (contents (materialEmissionBuffer buffers)) = (length materials * 4)%nat /\
  size (matIndicesBuffer buffers) = (length mat_indices * 4)%nat /\
  contents (matIndicesBuffer buffers) = mat_indices /\
  (forall i mat, materials !! i = Some mat ->
     take 4 (drop (i * 4) (contents (materialColorBuffer buffers)))
     = map fround (rgba (color mat)) /\
     take 4 (drop (i * 4) (contents (materialEmissionBuffer buffers)))
     = map fround (rgba (emission mat)) /\
     record part_007 (color_table part_007 materials) i
     = take 4 (drop (i * 4) (contents (materialColorBuffer buffers)))
       ++ take 4 (drop (i * 4) (contents (materialEmissionBuffer buffers)))).
Proof.
  cbv zeta. unfold createMaterialBuffers. rewrite forEach_flat_map. cbn [fst snd app].
  unfold createBuffer.
  cbn [size contents materialColorBuffer materialEmissionBuffer matIndicesBuffer].
  rewrite !map_flat_map, !length_flat_map_4 by reflexivity.
  split; [lia|]. split; [lia|]. split; [reflexivity|]. split; [reflexivity|].
  split; [reflexivity|]. split; [reflexivity|].
  intros i mat Hi.
  rewrite (record_flat_map _ 4 materials) with (x := mat);
    [|reflexivity|exact Hi].
  rewrite (record_flat_map _ 4 materials) with (x := mat);
    [|reflexivity|exact Hi].
  split; [reflexivity|]. split; [reflexivity|].
  unfold record. rewrite color_table_flat_map.
  rewrite (record_flat_map _ (stride part_007) materials) with (x := mat);
    [reflexivity|reflexivity|exact Hi].
Qed.

Lemma createMaterialBuffers_halves_witness :
  take 4 (drop 4 (contents (materialEmissionBuffer
                              (createMaterialBuffers [red_surface; red_light] [0; 1]%Z))))
  = [1; 0; 0; 0]%float /\
  size (materialColorBuffer (createMaterialBuffers [red_surface; red_light] [0; 1]%Z))
  = 32%nat.
Proof.
  destruct (createMaterialBuffers_halves [red_surface; red_light] [0; 1]%Z)
    as (Hsize & _ & _ & _ & _ & _ & Hrec).
  destruct (Hrec 1%nat red_light eq_refl) as (_ & He & _).
  split.
  - change (drop 4) with (drop (A := float) (1 * 4)). rewrite He.
    vm_compute. reflexivity.
  - exact Hsize.
Defined.

End MaterialsFacts.

(* --------------------------------------------------------------------- *)
(** ** Jitter offsets                                                     *)
(* --------------------------------------------------------------------- *)

Module JitterFacts.
Import JS Jitter.

Section AnyArithmetic.
Context {N : Type} `{Number N}.
Variable random : nat -> N.
Variables (jitterArray : list N) (pixelSize : N) (subdivs : Z).

Let s : nat := Z.to_nat subdivs.

Local Abbreviation after := (Jitter.after random jitterArray pixelSize subdivs).

Lemma store_lookup (idx : nat) (value : N -> N) (st : list N * nat) (k : nat) :
  fst (store random idx value st) !! k =
  if (k =? idx)%nat then
    if (k <? length (fst st))%nat then Some (fround (value (random (snd st)))) else None
  else fst st !! k.
Proof.
  unfold store. cbn [fst snd].
  destruct (k =? idx)%nat eqn:E.
  - apply Nat.eqb_eq in E. subst k.
    destruct (idx <? length (fst st))%nat eqn:El.
    + apply Nat.ltb_lt in El. now apply list_lookup_insert_eq.
    + apply Nat.ltb_ge in El. apply lookup_ge_None. now rewrite length_insert.
  - apply Nat.eqb_neq in E. apply list_lookup_insert_ne. congruence.
Qed.

Lemma jitter_value_even (c : nat) :
  jitter_value random pixelSize subdivs (2 * c)
  = fround (minus (times (plus (random (2 * c)) (of_nat (c mod s)))
                         (divide pixelSize (of_nat s)))
                  (times pixelSize half)).
Proof.
  unfold jitter_value. fold s.
  rewrite Nat.even_mul. cbn [Nat.even orb].
  rewrite (Nat.mul_comm 2 c), Nat.div_mul by lia. reflexivity.
Qed.

Lemma jitter_value_odd (c : nat) :
  jitter_value random pixelSize subdivs (S (2 * c))
  = fround (minus (times (plus (random (S (2 * c))) (of_nat (c / s)))
                         (divide pixelSize (of_nat s)))
                  (times pixelSize half)).
Proof.
  unfold jitter_value. fold s.
  rewrite Nat.even_succ, Nat.odd_mul. cbn [Nat.odd Nat.even negb andb].
  replace (S (2 * c) / 2)%nat with c; [reflexivity|].
  replace (S (2 * c)) with (1 + c * 2)%nat by lia.
  rewrite Nat.div_add by lia. reflexivity.
Qed.

Lemma cell_coordinates (i j : nat) :
  (j < s)%nat -> ((i * s + j) mod s = j /\ (i * s + j) / s = i)%nat.
Proof.
  intros Hj. split.
  - rewrite Nat.add_comm, Nat.Div0.mod_add. apply Nat.mod_small. exact Hj.
  - rewrite Nat.div_add_l by lia. rewrite Nat.div_small by exact Hj. lia.
Qed.

Lemma cell_step (i j : nat) (st : list N * nat) :
  (j < s)%nat ->
  after (i * s + j) st ->
  after (S (i * s + j))
    (store random ((i * s + j) * 2 + 1)
       (fun rnd => minus (times (plus rnd (of_nat i))
                                (divide pixelSize (of_nat (Z.to_nat subdivs))))
                         (times pixelSize half))
       (store random ((i * s + j) * 2)
          (fun rnd => minus (times (plus rnd (of_nat j))
                                   (divide pixelSize (of_nat (Z.to_nat subdivs))))
                            (times pixelSize half)) st)).
Proof.
  intros Hj (Hcalls & Hlen & Hlook).
  set (c := (i * s + j)%nat) in *.
  split; [|split].
  - cbn [store snd]. lia.
  - cbn [store fst]. now rewrite !length_insert.
  - intros k.
    set (fj := fun rnd => minus (times (plus rnd (of_nat j))
                                       (divide pixelSize (of_nat (Z.to_nat subdivs))))
                                (times pixelSize half)).
    set (fi := fun rnd => minus (times (plus rnd (of_nat i))
                                       (divide pixelSize (of_nat (Z.to_nat subdivs))))
                                (times pixelSize half)).
    set (st1 := store random (c * 2) fj st).
    assert (Hlen1 : length (fst st1) = length jitterArray).
    { unfold st1. cbn [store fst]. now rewrite length_insert. }
    assert (Hcalls1 : snd st1 = S (2 * c)) by (unfold st1; cbn [store snd]; lia).
    rewrite store_lookup, Hlen1, Hcalls1. unfold st1.
    rewrite store_lookup, Hlen, Hcalls, Hlook.
    destruct (cell_coordinates i j Hj) as [Hmod Hdiv]. fold c in Hmod, Hdiv.
    destruct (k =? c * 2 + 1)%nat eqn:E1; [|destruct (k =? c * 2)%nat eqn:E0].
    + apply Nat.eqb_eq in E1.
      assert (k = S (2 * c)) as -> by lia.
      assert ((S (2 * c) <? 2 * S c)%nat = true) as -> by (apply Nat.ltb_lt; lia).
      rewrite jitter_value_odd, Hdiv. reflexivity.
    + apply Nat.eqb_eq in E0.
      assert (k = (2 * c)%nat) as -> by lia.
      assert ((2 * c <? 2 * S c)%nat = true) as -> by (apply Nat.ltb_lt; lia).
      rewrite jitter_value_even, Hmod. reflexivity.
    + apply Nat.eqb_neq in E1, E0.
      destruct (k <? 2 * c)%nat eqn:Ek.
      * apply Nat.ltb_lt in Ek.
        assert ((k <? 2 * S c)%nat = true) as -> by (apply Nat.ltb_lt; lia).
        reflexivity.
      * apply Nat.ltb_ge in Ek.
        assert ((k <? 2 * S c)%nat = false) as -> by (apply Nat.ltb_ge; lia).
        reflexivity.
Qed.

(** The array after the loops. *)
Lemma loops_after :
  after (s * s)
    (for_loop s 0
       (fun i =>
          for_loop s 0
            (fun j st =>
               let idx := ((i * s + j) * 2)%nat in
               let st1 :=
                 store random idx
                   (fun rnd => minus (times (plus rnd (of_nat j))
                                            (divide pixelSize (of_nat (Z.to_nat subdivs))))
                                     (times pixelSize half)) st in
               store random (idx + 1)
                 (fun rnd => minus (times (plus rnd (of_nat i))
                                          (divide pixelSize (of_nat (Z.to_nat subdivs))))
                                   (times pixelSize half)) st1))
       (jitterArray, 0%nat)).
Proof.
  apply (JSFacts.for_loop_from_zero (fun i st => after (i * s) st)).
  - split; [reflexivity|]. split; [reflexivity|]. intros k. reflexivity.
  - intros i st Hi Hst.
    replace (S i * s)%nat with (i * s + s)%nat by lia.
    apply (JSFacts.for_loop_from_zero (fun j st => after (i * s + j) st)).
    + now rewrite Nat.add_0_r.
    + intros j st' Hj Hst'. replace (i * s + S j)%nat with (S (i * s + j)) by lia.
      apply cell_step; [lia | exact Hst'].
Qed.

(** What [computeJitters] leaves in the array. *)
Lemma computeJitters_lookup :
  (2 <= subdivs)%Z ->
  length (computeJitters random jitterArray pixelSize subdivs) = length jitterArray /\
  forall k,
    computeJitters random jitterArray pixelSize subdivs !! k =
    if (k <? 2 * (s * s))%nat then
      if (k <? length jitterArray)%nat
      then Some (jitter_value random pixelSize subdivs k) else None
    else jitterArray !! k.
Proof.
  intros Hs. unfold computeJitters.
  assert ((subdivs <? 2)%Z = false) as -> by (apply Z.ltb_ge; exact Hs).
  destruct loops_after as (_ & Hlen & Hlook). fold s. split; assumption.
Qed.

Lemma computeJitters_below_two :
  (subdivs < 2)%Z ->
  computeJitters random jitterArray pixelSize subdivs
  = <[1%nat := fround (of_nat 0)]> (<[0%nat := fround (of_nat 0)]> jitterArray).
Proof.
  intros Hs. unfold computeJitters.
  assert ((subdivs <? 2)%Z = true) as -> by (apply Z.ltb_lt; exact Hs).
  reflexivity.
Qed.

End AnyArithmetic.

Open Scope Q_scope.

(** In exact arithmetic a value lies in the half-open interval. *)
Lemma jitter_value_exact_bounds (random : nat -> Q) (pixelSize : Q) (subdivs : Z)
      (k : nat) :
  (forall i, 0 <= random i /\ random i < 1)%Q ->
  (0 < pixelSize)%Q -> (2 <= subdivs)%Z ->
  (k < 2 * (Z.to_nat subdivs * Z.to_nat subdivs))%nat ->
  (- (pixelSize / 2) <= jitter_value random pixelSize subdivs k /\
   jitter_value random pixelSize subdivs k < pixelSize / 2)%Q.
Proof.
  intros Hr Hp Hs Hk. unfold jitter_value.
  set (s := Z.to_nat subdivs) in *.
  set (n := if Nat.even k then ((k / 2) mod s)%nat else ((k / 2) / s)%nat).
  assert (Hs2 : (2 <= s)%nat) by (unfold s; lia).
  assert (Hn : (n < s)%nat).
  { unfold n. destruct (Nat.even k).
    - apply Nat.mod_upper_bound. lia.
    - apply Nat.Div0.div_lt_upper_bound.
      apply Nat.Div0.div_lt_upper_bound. lia. }
  cbn [fround exact of_nat plus minus times divide].
  change (@half Q exact) with (1 # 2).
  set (S' := inject_Z (Z.of_nat s)).
  set (n' := inject_Z (Z.of_nat n)).
  assert (HS : 2 <= S').
  { unfold S'. change 2 with (inject_Z 2). rewrite <- Zle_Qle. lia. }
  assert (Hn0 : 0 <= n').
  { unfold n'. change 0 with (inject_Z 0). rewrite <- Zle_Qle. lia. }
  assert (Hn1 : n' + 1 <= S').
  { unfold n', S'. change 1 with (inject_Z 1). rewrite <- inject_Z_plus, <- Zle_Qle. lia. }
  destruct (Hr k) as [Hr0 Hr1].
  set (step := pixelSize / S').
  assert (Hstep : S' * step == pixelSize).
  { unfold step. field. lra. }
  assert (Hstep0 : 0 < step).
  { unfold step. apply Qlt_shift_div_l; lra. }
  assert (Hlow : 0 <= (random k + n') * step).
  { apply Qmult_le_0_compat; lra. }
  assert (Hup : (random k + n') * step < S' * step).
  { apply Qmult_lt_compat_r; lra. }
  unfold Qdiv. change (/ 2) with (1 # 2).
  split; lra.
Qed.

Close Scope Q_scope.

(** C9 as stated fails twice in the arithmetic that runs.  With
    [subdivs = 15] the 400-element array has no index 449, so fewer than
    2 * 15^2 entries are written.  With [subdivs = 4], a 512-pixel-high
    canvas and [Math.random()] returning 1 - 2^-52, the sum with [j = 3]
    rounds to 4 and the entry at index 6 is [pixelSize / 2] itself, outside
    the half-open interval. *)
Lemma computeJitters_counterexample :
  length (computeJitters (fun _ => 0.5%float) jitter_400
            (divide (of_nat 1) (of_nat 512)) 15) = 400%nat /\
  computeJitters (fun _ => 0.5%float) jitter_400
    (divide (of_nat 1) (of_nat 512)) 15 !! 449%nat = None /\
  PrimFloat.ltb 0x1.ffffffffffffep-1%float 1%float = true /\
  computeJitters (fun _ => 0x1.ffffffffffffep-1%float) jitter_400
    (divide (of_nat 1) (of_nat 512)) 4 !! 6%nat
  = Some (divide (divide (of_nat 1) (of_nat 512)) (of_nat 2)) /\
  PrimFloat.ltb (divide (divide (of_nat 1) (of_nat 512)) (of_nat 2))
                (divide (divide (of_nat 1) (of_nat 512)) (of_nat 2)) = false.
Proof. repeat split; vm_compute; reflexivity. Qed.

(** C9, amended.  For [subdivs < 2], [computeJitters] stores 0 at indices 0
    and 1 and nothing else.  For [subdivs >= 2] with [2 * subdivs^2] within
    the length of the jitter array, it leaves the length unchanged, each
    index below [2 * subdivs^2] holds the value computed from its own call of
    [Math.random()], and every other entry is unchanged.  Computed exactly,
    for [pixelSize > 0] and random numbers in [0, 1), each such value lies in
    [-pixelSize / 2, pixelSize / 2). *)
Theorem computeJitters_writes :
  (forall (N : Type) (HN : Number N) (random : nat -> N) (jitterArray : list N)
          (pixelSize : N) (subdivs : Z),
      ((subdivs < 2)%Z ->
       computeJitters random jitterArray pixelSize subdivs
       = <[1%nat := fround (of_nat 0)]> (<[0%nat := fround (of_nat 0)]> jitterArray)) /\
      ((2 <= subdivs)%Z ->
       (2 * (Z.to_nat subdivs * Z.to_nat subdivs) <= length jitterArray)%nat ->
       length (computeJitters random jitterArray pixelSize subdivs)
       = length jitterArray /\
       (forall k, (k < 2 * (Z.to_nat subdivs * Z.to_nat subdivs))%nat ->
          computeJitters random jitterArray pixelSize subdivs !! k
          = Some (jitter_value random pixelSize subdivs k)) /\
       (forall k, (2 * (Z.to_nat subdivs * Z.to_nat subdivs) <= k)%nat ->
          computeJitters random jitterArray pixelSize subdivs !! k
          = jitterArray !! k))) /\
  (forall (random : nat -> Q) (pixelSize : Q) (subdivs : Z) (k : nat),
      (forall i, 0 <= random i /\ random i < 1)%Q ->
      (0 < pixelSize)%Q -> (2 <= subdivs)%Z ->
      (k < 2 * (Z.to_nat subdivs * Z.to_nat subdivs))%nat ->
      (- (pixelSize / 2) <= jitter_value random pixelSize subdivs k /\
       jitter_value random pixelSize subdivs k < pixelSize / 2)%Q).
Proof.
  split.
  - intros N HN random jitterArray pixelSize subdivs. split.
    + apply computeJitters_below_two.
    + intros Hs Hfit.
      destruct (computeJitters_lookup random jitterArray pixelSize subdivs Hs)
        as [Hlen Hlook].
      split; [exact Hlen|]. split.
      * intros k Hk. rewrite Hlook.
        assert ((k <? 2 * (Z.to_nat subdivs * Z.to_nat subdivs))%nat = true) as ->
            by (apply Nat.ltb_lt; exact Hk).
        assert ((k <? length jitterArray)%nat = true) as ->
            by (apply Nat.ltb_lt; lia).
        reflexivity.
      * intros k Hk. rewrite Hlook.
        assert ((k <? 2 * (Z.to_nat subdivs * Z.to_nat subdivs))%nat = false) as ->
            by (apply Nat.ltb_ge; exact Hk).
        reflexivity.
  - apply jitter_value_exact_bounds.
Qed.

Lemma computeJitters_writes_witness :
  computeJitters (fun _ => 1 # 2)%Q jitter_400 (1 # 512)%Q 3 !! 17%nat
  = Some (jitter_value (fun _ => 1 # 2)%Q (1 # 512)%Q 3 17) /\
  computeJitters (fun _ => 1 # 2)%Q jitter_400 (1 # 512)%Q 3 !! 18%nat = Some 0%Q /\
  (- ((1 # 512) / 2) <= jitter_value (fun _ => 1 # 2) (1 # 512) 3 17 /\
   jitter_value (fun _ => 1 # 2) (1 # 512) 3 17 < (1 # 512) / 2)%Q.
Proof.
  destruct computeJitters_writes as [Hany Hexact].
  destruct (Hany Q exact (fun _ => 1 # 2)%Q jitter_400 (1 # 512)%Q 3%Z) as [_ Hloops].
  destruct (Hloops ltac:(lia) ltac:(cbn; lia)) as (_ & Hin & Hout).
  split; [apply Hin; cbn; lia|].
  split; [rewrite Hout by (cbn; lia); reflexivity|].
  apply Hexact; [intros i; split; [discriminate | reflexivity] | reflexivity | lia | cbn; lia].
Defined.

(** *** Strata, and the callers of [computeJitters] *)

Lemma computeJitters_length {N : Type} `{Number N} (random : nat -> N)
      (jitterArray : list N) (pixelSize : N) (subdivs : Z) :
  length (computeJitters random jitterArray pixelSize subdivs) = length jitterArray.
Proof.
  destruct (Z_lt_ge_dec subdivs 2) as [Hs|Hs].
  - rewrite computeJitters_below_two by exact Hs. now rewrite !length_insert.
  - apply computeJitters_lookup. lia.
Qed.

Open Scope Q_scope.

Lemma stratum_bounds (rnd n step pixelSize : Q) :
  0 <= rnd -> rnd < 1 -> 0 < step ->
  n * step - pixelSize / 2 <= (rnd + n) * step - pixelSize * (1 # 2) /\
  (rnd + n) * step - pixelSize * (1 # 2) < (n + 1) * step - pixelSize / 2.
Proof.
  intros H0 H1 Hstep.
  assert (Hlow : 0 <= rnd * step) by (apply Qmult_le_0_compat; lra).
  assert (Hup : rnd * step < 1 * step) by (apply Qmult_lt_compat_r; lra).
  unfold Qdiv. change (/ 2) with (1 # 2). split; lra.
Qed.

(** X12.  Computed exactly, [computeJitters] samples each cell of the
    [subdivs] by [subdivs] grid of the pixel: for [pixelSize > 0], random
    numbers in [0, 1) and a jitter array that holds [2 * subdivs^2] entries,
    the pair written for the cell in row [i] and column [j] has its first
    offset in the [j]-th and its second in the [i]-th of the [subdivs]
    equal parts of [-pixelSize/2, pixelSize/2). *)
Theorem computeJitters_stratified (random : nat -> Q) (jitterArray : list Q)
        (pixelSize : Q) (subdivs : Z) (i j : nat) :
  (forall k, 0 <= random k /\ random k < 1) ->
  0 < pixelSize -> (2 <= subdivs)%Z ->
  (2 * (Z.to_nat subdivs * Z.to_nat subdivs) <= length jitterArray)%nat ->
  (i < Z.to_nat subdivs)%nat -> (j < Z.to_nat subdivs)%nat ->
  exists dx dy,
    computeJitters random jitterArray pixelSize subdivs
      !! ((i * Z.to_nat subdivs + j) * 2)%nat = Some dx /\
    computeJitters random jitterArray pixelSize subdivs
      !! ((i * Z.to_nat subdivs + j) * 2 + 1)%nat = Some dy /\
    inject_Z (Z.of_nat j) * (pixelSize / inject_Z subdivs) - pixelSize / 2 <= dx /\
    dx < (inject_Z (Z.of_nat j) + 1) * (pixelSize / inject_Z subdivs) - pixelSize / 2 /\
    inject_Z (Z.of_nat i) * (pixelSize / inject_Z subdivs) - pixelSize / 2 <= dy /\
    dy < (inject_Z (Z.of_nat i) + 1) * (pixelSize / inject_Z subdivs) - pixelSize / 2.
Proof.
  intros Hr Hp Hs Hfit Hi Hj.
  set (s := Z.to_nat subdivs) in *.
  destruct (computeJitters_lookup random jitterArray pixelSize subdivs Hs)
    as [_ Hlook]. fold s in Hlook.
  set (c := (i * s + j)%nat).
  assert (Hc : (c < s * s)%nat) by (unfold c; nia).
  exists (jitter_value random pixelSize subdivs (2 * c)),
         (jitter_value random pixelSize subdivs (S (2 * c))).
  assert (Hstep : 0 < pixelSize / inject_Z subdivs).
  { apply Qlt_shift_div_l; [|lra].
    change 0 with (inject_Z 0). rewrite <- Zlt_Qlt. lia. }
  destruct (cell_coordinates subdivs i j Hj) as [Hmod Hdiv].
  fold s c in Hmod, Hdiv.
  assert (Es : inject_Z (Z.of_nat s) = inject_Z subdivs)
    by (unfold s; rewrite Z2Nat.id by lia; reflexivity).
  split; [|split].
  - rewrite Hlook. replace (c * 2)%nat with (2 * c)%nat by lia.
    assert ((2 * c <? 2 * (s * s))%nat = true) as -> by (apply Nat.ltb_lt; lia).
    assert ((2 * c <? length jitterArray)%nat = true) as -> by (apply Nat.ltb_lt; lia).
    reflexivity.
  - rewrite Hlook. replace (c * 2 + 1)%nat with (S (2 * c)) by lia.
    assert ((S (2 * c) <? 2 * (s * s))%nat = true) as -> by (apply Nat.ltb_lt; lia).
    assert ((S (2 * c) <? length jitterArray)%nat = true) as ->
        by (apply Nat.ltb_lt; lia).
    reflexivity.
  - rewrite jitter_value_even, jitter_value_odd. fold s. rewrite Hmod, Hdiv.
    cbn [fround exact of_nat plus minus times divide].
    change (@half Q exact) with (1 # 2). rewrite Es.
    destruct (Hr (2 * c)%nat) as [Ha Hb]. destruct (Hr (S (2 * c))) as [Ha' Hb'].
    destruct (stratum_bounds (random (2 * c)%nat) (inject_Z (Z.of_nat j))
                (pixelSize / inject_Z subdivs) pixelSize Ha Hb Hstep).
    destruct (stratum_bounds (random (S (2 * c))) (inject_Z (Z.of_nat i))
                (pixelSize / inject_Z subdivs) pixelSize Ha' Hb' Hstep).
    auto.
Qed.

Lemma computeJitters_stratified_witness :
  exists dx dy,
    computeJitters (fun _ => 1 # 2) jitter_400 (1 # 512) 2 !! 2%nat = Some dx /\
    computeJitters (fun _ => 1 # 2) jitter_400 (1 # 512) 2 !! 3%nat = Some dy /\
    1 * ((1 # 512) / 2) - (1 # 512) / 2 <= dx /\
    dx < (1 + 1) * ((1 # 512) / 2) - (1 # 512) / 2 /\
    0 * ((1 # 512) / 2) - (1 # 512) / 2 <= dy /\
    dy < (0 + 1) * ((1 # 512) / 2) - (1 # 512) / 2.
Proof.
  apply (computeJitters_stratified (fun _ => 1 # 2) jitter_400 (1 # 512) 2 0 1).
  - intros k. split; [discriminate | reflexivity].
  - reflexivity.
  - lia.
  - vm_compute. lia.
  - vm_compute. lia.
  - vm_compute. lia.
Defined.

Close Scope Q_scope.

(** X13.  The change handler of src/unnamed/part_005 fills a new array: for
    [subdivisions >= 2] every one of its [2 * subdivisions^2] entries is a
    freshly computed offset, none is left from the allocation or from the
    previous selection.  The GPU buffer it writes the array to is the one
    [main] sized for the selection at load: the write stays within that
    buffer exactly when the new selection is not larger than the first. *)
Theorem part_005_change_refills {N : Type} `{Number N} (random : nat -> N)
        (pixelSize : N) (initial subdivisions : Z) :
  (1 <= initial)%Z -> (2 <= subdivisions)%Z ->
  part_005_change random pixelSize subdivisions
  = map (jitter_value random pixelSize subdivisions)
        (seq 0 (2 * (Z.to_nat subdivisions * Z.to_nat subdivisions))) /\
  (write_fits (snd (createJitterBuffer (N := N) (Z.to_nat (initial * initial))))
              (part_005_change random pixelSize subdivisions)
   <-> (subdivisions <= initial)%Z).
Proof.
  intros H0 Hs. unfold part_005_change.
  set (s := Z.to_nat subdivisions).
  assert (Es : Z.to_nat (subdivisions * subdivisions * 2) = (2 * (s * s))%nat)
    by (unfold s; nia).
  rewrite Es.
  set (jitter := repeat (of_nat 0) (2 * (s * s))).
  destruct (computeJitters_lookup random jitter pixelSize subdivisions Hs)
    as [Hlen Hlook]. fold s in Hlook.
  assert (Hj : length jitter = (2 * (s * s))%nat) by apply repeat_length.
  split.
  - apply list_eq. intros k. rewrite Hlook, Hj.
    change (map ?f ?l) with (f <$> l). rewrite list_lookup_fmap.
    destruct (k <? 2 * (s * s))%nat eqn:E.
    + apply Nat.ltb_lt in E. rewrite lookup_seq_lt by exact E. reflexivity.
    + apply Nat.ltb_ge in E. rewrite lookup_seq_ge by exact E.
      apply lookup_ge_None. lia.
  - unfold write_fits, createJitterBuffer. cbn [snd].
    rewrite Hlen, Hj, repeat_length. split; intros Hle; nia.
Qed.

Lemma part_005_change_refills_witness :
  part_005_change (fun _ => 1 # 2)%Q (1 # 512)%Q 2
  = map (jitter_value (fun _ => 1 # 2)%Q (1 # 512)%Q 2) (seq 0 8) /\
  ~ write_fits (snd (createJitterBuffer (N := Q) 1))
               (part_005_change (fun _ => 1 # 2)%Q (1 # 512)%Q 2).
Proof.
  destruct (part_005_change_refills (fun _ => 1 # 2)%Q (1 # 512)%Q 1 2
              ltac:(lia) ltac:(lia)) as [Hall Hfit].
  split; [exact Hall|]. intros Hw. apply Hfit in Hw. lia.
Defined.

(** X14.  In the first script of w06p03.js the store [uniforms[3] = subdivs]
    of the menu's change handler falls outside the three-element array and
    is dropped: after any sequence of menu changes [uniforms], which the
    handler writes to the uniform buffer again, is still the array [main]
    built, and the jitter array still has its 400 entries. *)
Theorem w06p03_change_keeps_uniforms {N : Type} `{Number N}
        (aspect pixelSize : N) (subdivs : nat) (es : list (nat * (nat -> N))) :
  fst (fold_left (w06p03_change pixelSize) es
                 (w06p03_uniforms aspect subdivs, jitter_400))
  = w06p03_uniforms aspect subdivs /\
  length (snd (fold_left (w06p03_change pixelSize) es
                         (w06p03_uniforms aspect subdivs, jitter_400)))
  = 400%nat.
Proof.
  assert (H0 : length (jitter_400 (N := N)) = 400%nat) by apply repeat_length.
  revert H0. generalize (jitter_400 (N := N)).
  induction es as [|e es IH]; intros jitter Hj; cbn [fold_left]; [auto|].
  unfold w06p03_change at 2 4. cbn [fst snd].
  assert (E : <[3%nat := fround (of_nat (fst e))]> (w06p03_uniforms aspect subdivs)
              = w06p03_uniforms aspect subdivs) by reflexivity.
  rewrite E. apply IH. now rewrite computeJitters_length.
Qed.

End JitterFacts.

(* --------------------------------------------------------------------- *)
(** ** Texture upload                                                     *)
(* --------------------------------------------------------------------- *)

Module TextureFacts.
Import JS Texture.

Lemma insert_next {A : Type} (f : nat -> A) (d : A) (k n : nat) :
  (k < n)%nat ->
  <[k := f k]> (map f (seq 0 k) ++ repeat d (n - k))
  = map f (seq 0 (S k)) ++ repeat d (n - S k).
Proof.
  intros Hk. rewrite insert_app_r_alt by (rewrite length_map, length_seq; lia).
  rewrite length_map, length_seq, Nat.sub_diag.
  replace (n - k)%nat with (S (n - S k)) by lia. cbn [repeat].
  rewrite seq_S, map_app, <- app_assoc. reflexivity.
Qed.

Lemma pixel_coordinates (width x y c : nat) :
  (x < width)%nat -> (c < 4)%nat ->
  (((y * width + x) * 4 + c) / 4 = y * width + x /\
   ((y * width + x) * 4 + c) mod 4 = c /\
   (y * width + x) / width = y /\ (y * width + x) mod width = x)%nat.
Proof.
  intros Hx Hc. split; [|split; [|split]].
  - rewrite Nat.div_add_l by lia. rewrite (Nat.div_small c) by lia. lia.
  - rewrite Nat.add_comm, Nat.Div0.mod_add. apply Nat.mod_small. exact Hc.
  - rewrite Nat.div_add_l by lia. rewrite (Nat.div_small x) by lia. lia.
  - rewrite Nat.add_comm, Nat.Div0.mod_add. apply Nat.mod_small. exact Hx.
Qed.

(** The array the loops leave: every byte comes from its source index. *)
Lemma flip_map (width height : nat) (data : list Byte.byte) :
  flip width height data
  = map (fun idx => read data (source_index width height idx))
        (seq 0 (width * height * 4)).
Proof.
  set (value := fun idx => read data (source_index width height idx)).
  set (total := (width * height * 4)%nat).
  set (Q := fun (k : nat) (st : list Byte.byte) =>
              st = map value (seq 0 k) ++ repeat Byte.x00 (total - k)).
  assert (H : Q total (flip width height data)).
  { unfold flip. fold total.
    replace total with (height * (width * 4))%nat at 1 by (unfold total; lia).
    apply (JSFacts.for_loop_from_zero (fun y st => Q (y * (width * 4))%nat st)).
    - unfold Q. cbn [Nat.mul seq map app]. now rewrite Nat.sub_0_r.
    - intros y st Hy Hst.
      replace (S y * (width * 4))%nat with (y * (width * 4) + width * 4)%nat by lia.
      apply (JSFacts.for_loop_from_zero
               (fun x st => Q (y * (width * 4) + x * 4)%nat st)).
      + now rewrite Nat.add_0_r.
      + intros x st' Hx Hst'.
        replace (y * (width * 4) + S x * 4)%nat
          with (y * (width * 4) + x * 4 + 4)%nat by lia.
        apply (JSFacts.for_loop_from_zero
                 (fun c st => Q (y * (width * 4) + x * 4 + c)%nat st)).
        * now rewrite Nat.add_0_r.
        * intros c st'' Hc Hst''. unfold Q in *. subst st''.
          replace ((y * width + x) * 4 + c)%nat
            with (y * (width * 4) + x * 4 + c)%nat by lia.
          replace (read data (((height - y - 1) * width + x) * 4 + c))
            with (value (y * (width * 4) + x * 4 + c)%nat).
          -- rewrite insert_next by (unfold total; nia).
             replace (y * (width * 4) + x * 4 + S c)%nat
               with (S (y * (width * 4) + x * 4 + c)) by lia.
             reflexivity.
          -- unfold value, source_index.
             replace (y * (width * 4) + x * 4 + c)%nat
               with ((y * width + x) * 4 + c)%nat by lia.
             destruct (pixel_coordinates width x y c Hx Hc) as (-> & -> & -> & ->).
             reflexivity. }
  unfold Q in H. rewrite H, Nat.sub_diag. cbn [repeat]. apply app_nil_r.
Qed.

Lemma map_seq_ext {A : Type} (f g : nat -> A) (m : nat) :
  forall a b, (forall i, (i < m)%nat -> f (a + i)%nat = g (b + i)%nat) ->
              map f (seq a m) = map g (seq b m).
Proof.
  induction m as [|m IH]; intros a b H; [reflexivity|].
  cbn [seq map]. f_equal.
  - specialize (H 0%nat ltac:(lia)). now rewrite !Nat.add_0_r in H.
  - apply IH. intros i Hi. specialize (H (S i) ltac:(lia)).
    now rewrite !Nat.add_succ_r in H.
Qed.

(** A stretch of an image, byte by byte. *)
Lemma read_stretch (image : list Byte.byte) (m : nat) :
  forall a, (a + m <= length image)%nat ->
            take m (drop a image) = map (read image) (seq a m).
Proof.
  induction m as [|m IH]; intros a Ha; [reflexivity|].
  destruct (lookup_lt_is_Some_2 image a ltac:(lia)) as [x Hx].
  rewrite (drop_S _ _ _ Hx). cbn [take seq map]. f_equal.
  - unfold read. now rewrite Hx.
  - apply IH. lia.
Qed.

Lemma read_map (f : nat -> Byte.byte) (n j : nat) :
  (j < n)%nat -> read (map f (seq 0 n)) j = f j.
Proof.
  intros Hj. unfold read. change (map f (seq 0 n)) with (f <$> seq 0 n).
  rewrite list_lookup_fmap, lookup_seq_lt by exact Hj. reflexivity.
Qed.

Lemma source_index_pixel (width height x y c : nat) :
  (x < width)%nat -> (c < 4)%nat ->
  source_index width height ((y * width + x) * 4 + c)
  = ((height - y - 1) * width + x) * 4 + c.
Proof.
  intros Hx Hc. unfold source_index.
  destruct (pixel_coordinates width x y c Hx Hc) as (-> & -> & -> & ->).
  reflexivity.
Qed.

(** Every index below [width * height * 4] is that of a channel of a pixel. *)
Lemma index_pixel (width height idx : nat) :
  (idx < width * height * 4)%nat ->
  exists x y c, (x < width /\ y < height /\ c < 4)%nat /\
                idx = ((y * width + x) * 4 + c)%nat.
Proof.
  intros H.
  assert (Hw : (0 < width)%nat) by nia.
  exists ((idx / 4) mod width)%nat, ((idx / 4) / width)%nat, (idx mod 4)%nat.
  pose proof (Nat.div_mod_eq idx 4) as E4.
  pose proof (Nat.div_mod_eq (idx / 4) width) as Ew.
  pose proof (Nat.mod_upper_bound idx 4 ltac:(lia)).
  pose proof (Nat.mod_upper_bound (idx / 4) width ltac:(lia)).
  split; [|nia]. split; [lia|]. split; [|lia].
  apply Nat.Div0.div_lt_upper_bound. apply Nat.Div0.div_lt_upper_bound. lia.
Qed.

(** X15.  The array [loadTexture] uploads has the size of the image data and
    holds its rows in the opposite order: row [y] of the upload is row
    [height - y - 1] of the image, byte for byte. *)
Theorem flip_reverses_rows (width height : nat) (data : list Byte.byte) (y : nat) :
  length data = (width * height * 4)%nat -> (y < height)%nat ->
  length (flip width height data) = length data /\
  row width (flip width height data) y = row width data (height - y - 1).
Proof.
  intros Hlen Hy. rewrite flip_map. split.
  - now rewrite length_map, length_seq.
  - unfold row. rewrite skipn_map, firstn_map, skipn_seq, take_seq.
    rewrite read_stretch by nia.
    replace (Init.Nat.min (width * 4) (width * height * 4 - y * (width * 4)))
      with (width * 4)%nat by nia.
    apply map_seq_ext. intros i Hi. cbn [Nat.add].
    pose proof (Nat.div_mod_eq i 4) as E4.
    pose proof (Nat.mod_upper_bound i 4 ltac:(lia)) as Hc.
    assert (Hx : (i / 4 < width)%nat) by (apply Nat.Div0.div_lt_upper_bound; lia).
    replace (y * (width * 4) + i)%nat
      with ((y * width + i / 4) * 4 + i mod 4)%nat by lia.
    rewrite source_index_pixel by assumption. f_equal. lia.
Qed.

Lemma flip_reverses_rows_witness :
  row 1 (flip 1 2 [Byte.x01; Byte.x02; Byte.x03; Byte.x04;
                   Byte.x05; Byte.x06; Byte.x07; Byte.x08]) 0
  = [Byte.x05; Byte.x06; Byte.x07; Byte.x08].
Proof.
  destruct (flip_reverses_rows 1 2
              [Byte.x01; Byte.x02; Byte.x03; Byte.x04;
               Byte.x05; Byte.x06; Byte.x07; Byte.x08] 0 eq_refl ltac:(lia))
    as [_ H].
  rewrite H. reflexivity.
Defined.

(** X16.  Flipping is its own inverse: running the loops of [loadTexture] on
    their own output gives back the image data. *)
Theorem flip_involutive (width height : nat) (data : list Byte.byte) :
  length data = (width * height * 4)%nat ->
  flip width height (flip width height data) = data.
Proof.
  intros Hlen. rewrite (flip_map width height (flip width height data)).
  assert (E : data = map (read data) (seq 0 (width * height * 4))).
  { rewrite <- read_stretch by lia. cbn [drop]. rewrite <- Hlen.
    symmetry. apply firstn_all. }
  etransitivity; [|symmetry; exact E].
  apply map_seq_ext. intros idx Hidx. cbn [Nat.add].
  destruct (index_pixel width height idx Hidx) as (x & y & c & (Hx & Hy & Hc) & ->).
  rewrite source_index_pixel by assumption.
  rewrite flip_map, read_map by nia.
  rewrite source_index_pixel by assumption.
  f_equal. replace (height - (height - y - 1) - 1)%nat with y by lia. reflexivity.
Qed.

Lemma flip_involutive_witness :
  flip 1 2 (flip 1 2 [Byte.x01; Byte.x02; Byte.x03; Byte.x04;
                      Byte.x05; Byte.x06; Byte.x07; Byte.x08])
  = [Byte.x01; Byte.x02; Byte.x03; Byte.x04;
     Byte.x05; Byte.x06; Byte.x07; Byte.x08].
Proof. apply (flip_involutive 1 2). reflexivity. Defined.

End TextureFacts.

(* --------------------------------------------------------------------- *)
(** ** The page with controls                                             *)
(* --------------------------------------------------------------------- *)

Module W05p01Facts.
Import JS Jitter W05p01.

Section Page.
Context {N : Type} `{Number N}.
Variable p : page N.

Lemma run_snoc (es : list (event N)) (e : event N) :
  run p (es ++ [e]) = handle p (run p es) e.
Proof. unfold run. now rewrite fold_left_app. Qed.

Lemma latest_snoc {A : Type} (pick : event N -> option A) (initial : A)
      (es : list (event N)) (e : event N) :
  latest pick initial (es ++ [e])
  = match pick e with Some v => v | None => latest pick initial es end.
Proof. unfold latest. now rewrite fold_left_app. Qed.

(** Induction over the events of a run, latest event last. *)
Lemma run_ind (P : list (event N) -> state N -> Prop) :
  P [] (main p) ->
  (forall es e, P es (run p es) -> P (es ++ [e]) (handle p (run p es) e)) ->
  forall es, P es (run p es).
Proof.
  intros H0 Hstep es. induction es as [|e es IH] using rev_ind; [exact H0|].
  rewrite run_snoc. apply Hstep, IH.
Qed.

End Page.

(** X17.  After any events the array [uniforms] holds, as floats, the
    aspect ratio and the latest zoom, shader and subdivisions values (1, 1
    and the menu's value at load where there was no event), and the two
    buffers hold what the arrays hold: every listener that changes
    [uniforms] or [jitter] writes the array to its buffer. *)
Theorem buffers_in_sync {N : Type} `{Number N}
        (p : page N) (es : list (event N)) :
  uniforms (run p es)
  = [ fround (aspect p);
      fround (latest zoom_of (of_nat 1) es);
      fround (latest shader_of (of_nat 1) es);
      fround (of_nat (latest subdivs_of (subdivs0 p) es)) ] /\
  uniformBuffer_contents (log (run p es)) = Some (uniforms (run p es)) /\
  jitterBuffer_contents (log (run p es)) = Some (jitter (run p es)).
Proof.
  apply (run_ind p (fun es s =>
    uniforms s
    = [ fround (aspect p);
        fround (latest zoom_of (of_nat 1) es);
        fround (latest shader_of (of_nat 1) es);
        fround (of_nat (latest subdivs_of (subdivs0 p) es)) ] /\
    uniformBuffer_contents (log s) = Some (uniforms s) /\
    jitterBuffer_contents (log s) = Some (jitter s))).
  - split; [|split]; reflexivity.
  - clear es. intros es e (Hu & Hc & Hj). rewrite !latest_snoc.
    destruct e; cbn [handle zoom_of shader_of subdivs_of].
    + cbn. rewrite Hu. split; [|split]; [reflexivity | reflexivity | exact Hj].
    + cbn. rewrite Hu. split; [|split]; [reflexivity | reflexivity | exact Hj].
    + cbn. rewrite Hu. split; [|split]; reflexivity.
    + cbn. split; [|split]; assumption.
    + cbn. split; [|split]; assumption.
    + destruct (pending (run p es)); [split; [|split]; assumption|].
      cbn. split; [|split]; assumption.
Qed.

(** X18.  No pass is drawn with a stale sampler.  After any events the bind
    group binds a sampler created with the address mode and the filter mode
    that are selected now (the latest selections, or the values at load),
    and the pass that the next animation frame draws uses that bind group. *)
Theorem bind_group_has_selected_sampler {N : Type} `{Number N}
        (p : page N) (es : list (event N)) :
  addressmode (run p es) = latest addressmode_of (addressmode0 p) es /\
  filtermode (run p es) = latest filtermode_of (filtermode0 p) es /\
  bound_sampler (bindGroup (run p es))
  = Some (createSampler (addressmode (run p es)) (filtermode (run p es))) /\
  (pending (run p es) <> 0%nat ->
   head (log (run p (es ++ [animation_frame])))
   = Some (RenderPass (bindGroup (run p es)))).
Proof.
  assert (Hinv : addressmode (run p es) = latest addressmode_of (addressmode0 p) es /\
                 filtermode (run p es) = latest filtermode_of (filtermode0 p) es /\
                 bound_sampler (bindGroup (run p es))
                 = Some (createSampler (addressmode (run p es))
                                       (filtermode (run p es)))).
  { apply (run_ind p (fun es s =>
      addressmode s = latest addressmode_of (addressmode0 p) es /\
      filtermode s = latest filtermode_of (filtermode0 p) es /\
      bound_sampler (bindGroup s)
      = Some (createSampler (addressmode s) (filtermode s)))).
    - split; [|split]; reflexivity.
    - clear es. intros es e (Ha & Hf & Hb). rewrite !latest_snoc.
      destruct e; cbn [handle addressmode_of filtermode_of];
        try (cbn; split; [|split]; assumption).
      + cbn. split; [|split]; [reflexivity | assumption | reflexivity].
      + cbn. split; [|split]; [assumption | reflexivity | reflexivity].
      + destruct (pending (run p es)); cbn; (split; [|split]); assumption. }
  destruct Hinv as (Ha & Hf & Hb).
  split; [exact Ha|]. split; [exact Hf|]. split; [exact Hb|].
  intros Hp. rewrite run_snoc. cbn [handle].
  destruct (pending (run p es)); [congruence | reflexivity].
Qed.

Lemma bind_group_has_selected_sampler_witness :
  bound_sampler
    (bindGroup
       (run {| width := 512; height := 512;
               addressmode0 := GPUModes.clamp_to_edge;
               filtermode0 := GPUModes.nearest;
               subdivs0 := 1; random0 := fun _ => 0.5%float |}
            [change_filtermode GPUModes.linear; input_zoom 2%float;
             change_addressmode GPUModes.repeat_]))
  = Some (createSampler GPUModes.repeat_ GPUModes.linear) /\
  head (log (run {| width := 512; height := 512;
                    addressmode0 := GPUModes.clamp_to_edge;
                    filtermode0 := GPUModes.nearest;
                    subdivs0 := 1; random0 := fun _ => 0.5%float |}
                 ([change_filtermode GPUModes.linear] ++ [animation_frame])))
  = Some (RenderPass (createBindGroup
                        (createSampler GPUModes.clamp_to_edge GPUModes.linear))).
Proof.
  split.
  - destruct (bind_group_has_selected_sampler
                {| width := 512; height := 512;
                   addressmode0 := GPUModes.clamp_to_edge;
                   filtermode0 := GPUModes.nearest;
                   subdivs0 := 1; random0 := fun _ => 0.5%float |}
                [change_filtermode GPUModes.linear; input_zoom 2%float;
                 change_addressmode GPUModes.repeat_]) as (Ha & Hf & Hb & _).
    rewrite Hb, Ha, Hf. reflexivity.
  - destruct (bind_group_has_selected_sampler
                {| width := 512; height := 512;
                   addressmode0 := GPUModes.clamp_to_edge;
                   filtermode0 := GPUModes.nearest;
                   subdivs0 := 1; random0 := fun _ => 0.5%float |}
                [change_filtermode GPUModes.linear]) as (_ & _ & _ & Hpass).
    rewrite Hpass; [reflexivity | discriminate].
Defined.

(** X19.  The page draws on demand: [main] draws one pass, every event of a
    control requests exactly one frame and a frame draws exactly one pass
    and requests nothing.  So after any events the passes drawn and the
    callbacks still pending add up to one more than the events of the
    controls, and the frames requested are as many as those events. *)
Theorem one_pass_per_event {N : Type} `{Number N}
        (p : page N) (es : list (event N)) :
  (length (List.filter is_pass (trace p es)) + pending (run p es)
   = S (length (List.filter (fun e => negb (is_animation_frame e)) es)))%nat /\
  length (List.filter is_frame_request (trace p es))
  = length (List.filter (fun e => negb (is_animation_frame e)) es).
Proof.
  unfold trace. rewrite !List.filter_rev, !length_rev.
  apply (run_ind p (fun es s =>
    (length (List.filter is_pass (log s)) + pending s
     = S (length (List.filter (fun e => negb (is_animation_frame e)) es)))%nat /\
    length (List.filter is_frame_request (log s))
    = length (List.filter (fun e => negb (is_animation_frame e)) es))).
  - split; reflexivity.
  - clear es. intros es e [Hn Hr]. rewrite !List.filter_app, !length_app.
    destruct e; cbn [handle]; cbn - [run]; try (split; lia).
    destruct (pending (run p es)) eqn:E; cbn - [run]; split; lia.
Qed.

(** X20.  Every write stays within its buffer: each write of [uniforms]
    carries 16 of the uniform buffer's 20 bytes, and each write of [jitter]
    carries exactly the 1600 bytes of the jitter buffer, whatever number of
    subdivisions is selected; stores beyond the 400 entries are dropped and
    the array never grows. *)
Theorem writes_within_buffers {N : Type} `{Number N}
        (p : page N) (es : list (event N)) :
  length (uniforms (run p es)) = 4%nat /\
  length (jitter (run p es)) = 400%nat /\
  Forall write_within (trace p es).
Proof.
  unfold trace.
  assert (H400 : length (jitter_400 (N := N)) = 400%nat) by apply repeat_length.
  cut (length (uniforms (run p es)) = 4%nat /\ length (jitter (run p es)) = 400%nat /\
       Forall write_within (log (run p es))).
  { intros (Hu & Hj & Hall). split; [exact Hu|]. split; [exact Hj|].
    apply Forall_rev. exact Hall. }
  apply (run_ind p (fun _ s =>
    length (uniforms s) = 4%nat /\ length (jitter s) = 400%nat /\
    Forall write_within (log s))).
  - cbn [main render updateSampler emit uniforms jitter log].
    rewrite JitterFacts.computeJitters_length, H400. split; [reflexivity|]. split; [reflexivity|].
    repeat first [apply Forall_nil | apply Forall_cons];
      cbn [write_within]; try exact I;
      unfold uniformBuffer_size, jitterBuffer_size;
      rewrite ?JitterFacts.computeJitters_length, ?H400; cbn [length map]; lia.
  - clear es. intros es e (Hu & Hj & Hall).
    assert (Hw : forall i v,
               write_within (WriteUniforms (<[i := v]> (uniforms (run p es))))).
    { intros. cbn [write_within]. rewrite length_insert, Hu.
      unfold uniformBuffer_size. lia. }
    assert (Hwj : forall random ps sd,
               write_within (WriteJitter (computeJitters random (jitter (run p es))
                                                         ps sd))).
    { intros. cbn [write_within]. rewrite JitterFacts.computeJitters_length, Hj.
      unfold jitterBuffer_size. rewrite H400. lia. }
    destruct e; cbn [handle requestRender store_uniform store_jitters rebind
                     updateSampler select_addressmode select_filtermode
                     uniforms jitter log].
    + rewrite length_insert. split; [exact Hu|]. split; [exact Hj|].
      constructor; [exact I|]. constructor; [apply Hw | exact Hall].
    + rewrite length_insert. split; [exact Hu|]. split; [exact Hj|].
      constructor; [exact I|]. constructor; [apply Hw | exact Hall].
    + rewrite length_insert, JitterFacts.computeJitters_length.
      split; [exact Hu|]. split; [exact Hj|].
      constructor; [exact I|]. constructor; [apply Hwj|].
      constructor; [apply Hw | exact Hall].
    + split; [exact Hu|]. split; [exact Hj|]. repeat (constructor; [exact I|]).
      exact Hall.
    + split; [exact Hu|]. split; [exact Hj|]. repeat (constructor; [exact I|]).
      exact Hall.
    + destruct (pending (run p es)); cbn [render emit uniforms jitter log].
      * auto.
      * split; [exact Hu|]. split; [exact Hj|]. constructor; [exact I | exact Hall].
Qed.

End W05p01Facts.

(* --------------------------------------------------------------------- *)
(** ** Start-up                                                           *)
(* --------------------------------------------------------------------- *)

Module StartupFacts.
Import TypedArrays Demo Script Startup.

Lemma go_all_provided (v : variant) (cv : canvas) (env : environment) :
  forall (l : list step) (s : state),
    (forall st, In st l -> blocked env st = None) ->
    go v cv env l s = (None, fold_left (fun s' st => perform v cv st s') l s).
Proof.
  induction l as [|st l IH]; intros s H; cbn [go fold_left]; [reflexivity|].
  rewrite (H st (or_introl eq_refl)). apply IH. intros st' Hin. apply H. right. exact Hin.
Qed.

Lemma go_stops (v : variant) (cv : canvas) (env : environment) :
  forall (l : list step) (s s' : state) (r : prerequisite * reaction),
    go v cv env l s = (Some r, s') ->
    exists pre st post,
      l = pre ++ st :: post /\
      (forall st', In st' pre -> blocked env st' = None) /\
      blocked env st = Some r /\
      s' = fold_left (fun s0 st' => perform v cv st' s0) pre s.
Proof.
  induction l as [|st l IH]; intros s s' r H; cbn [go] in H; [discriminate|].
  destruct (blocked env st) as [r0|] eqn:E.
  - injection H as <- <-. exists [], st, l.
    split; [reflexivity|]. split; [intros st' []|]. split; [exact E|reflexivity].
  - destruct (IH _ _ _ H) as (pre & st1 & post & -> & Hpre & Hst & ->).
    exists (st :: pre), st1, post.
    split; [reflexivity|]. split; [|split; [exact Hst|reflexivity]].
    intros st' [<- | Hin]; [exact E | apply Hpre, Hin].
Qed.

Lemma go_goes_through (v : variant) (cv : canvas) (env : environment) :
  forall (l : list step) (s : state),
    fst (go v cv env l s) = None -> forall st, In st l -> blocked env st = None.
Proof.
  induction l as [|st l IH]; intros s H st' Hin; [destruct Hin|].
  cbn [go] in H. destruct (blocked env st) as [r|] eqn:E; [discriminate|].
  destruct Hin as [<- | Hin]; [exact E|]. exact (IH _ H st' Hin).
Qed.

Lemma go_unblockable (v : variant) (cv : canvas) (env : environment) :
  forall (l : list step) (s : state),
    forallb unblockable l = true -> fst (go v cv env l s) = None.
Proof.
  induction l as [|st l IH]; intros s H; [reflexivity|].
  cbn [forallb] in H. apply andb_true_iff in H. destruct H as [Hst Hl].
  cbn [go]. destruct st; try discriminate Hst; cbn [blocked]; apply IH, Hl.
Qed.

Lemma go_stops_undrawn (v : variant) (cv : canvas) (env : environment) :
  forall (l : list step) (s s' : state) (r : prerequisite * reaction),
    checks_first l = true -> undrawn s ->
    go v cv env l s = (Some r, s') -> undrawn s'.
Proof.
  induction l as [|st l IH]; intros s s' r Hc Hs H; cbn [go] in H; [discriminate|].
  destruct (blocked env st) as [r0|] eqn:E.
  - injection H as _ <-. exact Hs.
  - cbn [checks_first] in Hc. destruct (quiet st) eqn:Q.
    + apply (IH _ _ _ Hc) in H; [exact H|].
      destruct st; try discriminate Q; cbn [perform]; [exact Hs..|].
      destruct Hs as (H1 & H2 & H3). unfold undrawn. cbn [emit log].
      rewrite !ScriptFacts.count_cons. cbn [is_build is_create is_pass]. auto.
    + pose proof (go_unblockable v cv env l (perform v cv st s) Hc) as Hn.
      rewrite H in Hn. discriminate Hn.
Qed.

Lemma steps_checks_first (v : variant) : checks_first (steps v) = true.
Proof. destruct v; reflexivity. Qed.

(** With nothing in the way the steps are the synchronous tail of [main]
    as modelled in [Script]. *)
Lemma steps_main (v : variant) (cv : canvas) :
  fold_left (fun s st => perform v cv st s) (steps v) initial = main v cv.
Proof. destruct v; reflexivity. Qed.

(** X21.  [main] of a script that builds a tree goes through what it looks
    up and awaits in source order: the GPU, the adapter, the device, the
    canvas, its context, the shader element, in w06p03.js also the
    subdivisions menu or the environment image, the mesh, and in the
    progressive scripts the Progressive button.  If no step finds its value
    missing, [main] runs to the end, as modelled in [Script], and draws one
    pass.  Otherwise it ends at the first step that does, in the way the
    script provides there (report and return, log and return, or an
    exception where the script does not test or an [await] is rejected), and
    by then it has built no tree, created no bind group and drawn no pass. *)
Theorem main_stops_before_drawing (v : variant) (env : environment) (cv : canvas) :
  (fst (load v env cv) = None <->
   forall st, In st (steps v) -> blocked env st = None) /\
  (fst (load v env cv) = None ->
   snd (load v env cv) = main v cv /\
   count is_pass (history (snd (load v env cv))) = 1%nat) /\
  (forall r,
      fst (load v env cv) = Some r ->
      (exists pre st post,
          steps v = pre ++ st :: post /\
          (forall st', In st' pre -> blocked env st' = None) /\
          blocked env st = Some r) /\
      count is_build (history (snd (load v env cv))) = 0%nat /\
      count is_create (history (snd (load v env cv))) = 0%nat /\
      count is_pass (history (snd (load v env cv))) = 0%nat).
Proof.
  unfold load. split; [|split].
  - split.
    + apply go_goes_through.
    + intros H. rewrite (go_all_provided v cv env _ _ H). reflexivity.
  - intros H. pose proof (go_goes_through v cv env _ _ H) as Hall.
    rewrite (go_all_provided v cv env _ _ Hall). cbn [snd].
    rewrite steps_main. split; [reflexivity|].
    unfold history. rewrite ScriptFacts.count_rev. apply ScriptFacts.main_counts.
  - intros r H.
    destruct (go v cv env (steps v) initial) as [o s'] eqn:E.
    cbn [fst snd] in *. subst o.
    destruct (go_stops v cv env _ _ _ _ E) as (pre & st & post & Hl & Hpre & Hst & _).
    split; [exists pre, st, post; auto|].
    assert (Hu : undrawn s').
    { apply (go_stops_undrawn v cv env _ _ _ _ (steps_checks_first v)) in E;
        [exact E|]. repeat split. }
    destruct Hu as (H1 & H2 & H3). unfold history. rewrite !ScriptFacts.count_rev. auto.
Qed.

Lemma main_stops_before_drawing_witness :
  load part_007 (without progressive_button) {| width := 512; height := 512 |}
  = (Some (progressive_button, throws),
     emit (WriteUniformsUI (Float32Array [512; 512; 0])) initial) /\
  count is_pass
    (history (snd (load part_007 (without progressive_button)
                        {| width := 512; height := 512 |}))) = 0%nat /\
  fst (load w06p03_1 (without subdivs_menu) {| width := 512; height := 512 |})
  = Some (subdivs_menu, throws) /\
  count is_pass
    (history (snd (load w06p03_1 (without subdivs_menu)
                        {| width := 512; height := 512 |}))) = 0%nat /\
  count is_pass
    (history (snd (load part_007 complete {| width := 512; height := 512 |})))
  = 1%nat.
Proof.
  destruct (main_stops_before_drawing part_007 (without progressive_button)
              {| width := 512; height := 512 |}) as (_ & _ & Hstop).
  destruct (main_stops_before_drawing w06p03_1 (without subdivs_menu)
              {| width := 512; height := 512 |}) as (_ & _ & Hmenu).
  destruct (main_stops_before_drawing part_007 complete
              {| width := 512; height := 512 |}) as (Hall & Hdraw & _).
  split; [reflexivity|]. split; [apply (Hstop (progressive_button, throws)); reflexivity|].
  split; [reflexivity|]. split; [apply (Hmenu (subdivs_menu, throws)); reflexivity|].
  apply Hdraw. apply Hall. intros st _. destruct st; reflexivity.
Defined.

End StartupFacts.
